(** * vsfs: a shallow embedding of [fs.c]

    The simulator keeps one zero-filled region of 64 blocks of 4096 bytes
    behind the global pointer [disk]: block 0 holds the superblock, block 1
    the inode bitmap, block 2 the data bitmap, blocks 3..7 the inode table
    and blocks 8..63 the data region.  Every C function below is translated
    with the disk threaded through as an explicit state.

    Outcomes.  A C call either returns, trips [assert], or leaves the
    defined part of the language.  The embedding keeps the three apart in
    [result].

    Types.  [int] is 32 bits wide and two's complement, [word_t] is 64 bits
    wide, [sizeof(direntry)] is 36, and a pointer into the disk is its byte
    offset from [disk].

    Memory.  The disk is seen region by region at the type the code uses
    there: words in the two bitmap blocks, inodes at a 256-byte stride in
    the inode table, directory entries at a 36-byte stride in each data
    block.  An access is defined when it lands exactly on such a cell.
    The C program can also step out of a region and stay inside the
    64 blocks (an inode index of 80 or more, a directory scan that runs on
    into the next block and straddles its entries): those accesses are
    [Undef] here, so that the theorems below speak of the runs that stay
    inside the regions, and say nothing of the others.

    Shifts.  The masks of the bitmap functions are computed by [int]
    shifts that the C standard defines for the counts 0..30 only.  What an
    implementation does for the other counts is a parameter, [shl_undef],
    of everything that touches a bitmap. *)

From Stdlib Require Import ZArith Lia Ascii String.
From stdpp Require Import base list.

Local Open Scope Z_scope.

(** ** Outcomes of a call *)

Inductive result (A : Type) : Type :=
  | Ret (a : A)      (* the call returns *)
  | Undef            (* undefined behaviour *)
  | Abort            (* [assert] failed: the process is terminated *)
  | Fuel.            (* the model's recursion budget ran out *)

Arguments Ret {A} a.
Arguments Undef {A}.
Arguments Abort {A}.
Arguments Fuel {A}.

Definition bind {A B : Type} (m : result A) (f : A -> result B) : result B :=
  match m with
  | Ret a => f a
  | Undef => Undef
  | Abort => Abort
  | Fuel => Fuel
  end.

Notation "'let*' x ':=' m 'in' k" := (bind m (fun x => k))
  (at level 10, x name, m at level 100, k at level 200).

Definition of_option {A : Type} (o : option A) : result A :=
  match o with
  | Some a => Ret a
  | None => Undef
  end.

(** ** Layout constants *)

Definition BLOCK_SIZE_IN_BYTES : Z := 4096.
Definition DISK_SIZE_IN_BLOCKS : Z := 64.
Definition DATA_REGION_IN_BLOCKS : Z := 56.
Definition INODE_TABLE_IN_BLOCKS : Z := 5.
Definition INODE_SIZE_IN_BYTES : Z := 256.
Definition MAX_DIRECTORY_NAME_LENGTH : Z := 30.
Definition CHAR_BIT : Z := 8.

(** [word_t] is [uint64_t]; [BITS_PER_WORD] is [sizeof(word_t) * CHAR_BIT]. *)
Definition BITS_PER_WORD : Z := 8 * CHAR_BIT.
Definition WORD_OFFSET (b : Z) : Z := Z.quot b BITS_PER_WORD.
Definition BIT_OFFSET (b : Z) : Z := Z.rem b BITS_PER_WORD.

(** A bitmap is the array of [word_t] that fills one block. *)
Definition WORDS_PER_BLOCK : Z := BLOCK_SIZE_IN_BYTES / 8.

Definition wrap_int (v : Z) : Z := (v + 2 ^ 31) mod 2 ^ 32 - 2 ^ 31.
Definition to_word (v : Z) : Z := v mod 2 ^ 64.

(** ** Bitmaps *)

Section Bitmaps.

(** The source writes the mask as [1 << BIT_OFFSET(n)].  The literal [1]
    is an [int], so the shift is an [int] shift: it has the value [2^k]
    for [0 <= k < 31], and the C standard leaves every other count
    undefined.  [shl_undef k] is what the implementation at hand does for
    such a count: [None] when the execution has no result, [Some v] when
    it yields the [int] that [v] wraps to. *)
Variable shl_undef : Z -> option Z.

Definition int_shl1 (k : Z) : result Z :=
  if (0 <=? k) && (k <? 31) then Ret (2 ^ k)
  else let* v := of_option (shl_undef k) in Ret (wrap_int v).

(** [words[i]]: the bitmap pointer addresses the 512 words of its block. *)
Definition word_at (words : list Z) (i : Z) : result Z :=
  if (0 <=? i) && (i <? WORDS_PER_BLOCK)
  then of_option (words !! Z.to_nat i)
  else Undef.

Definition set_bit (words : list Z) (n : Z) : result (list Z) :=
  let* w := word_at words (WORD_OFFSET n) in
  let* m := int_shl1 (BIT_OFFSET n) in
  Ret (<[Z.to_nat (WORD_OFFSET n) := Z.lor w (to_word m)]> words).

Definition clear_bit (words : list Z) (n : Z) : result (list Z) :=
  let* w := word_at words (WORD_OFFSET n) in
  let* m := int_shl1 (BIT_OFFSET n) in
  Ret (<[Z.to_nat (WORD_OFFSET n) := Z.land w (to_word (Z.lnot m))]> words).

Definition get_bit (words : list Z) (n : Z) : result bool :=
  let* w := word_at words (WORD_OFFSET n) in
  let* m := int_shl1 (BIT_OFFSET n) in
  Ret (negb (Z.land w (to_word m) =? 0)).

(** The [for] loop of [first_clear_bit], with [rem] iterations left and
    [i] the loop variable. *)
Fixpoint first_clear_from (words : list Z) (rem : nat) (i : Z) : result Z :=
  match rem with
  | O => Ret (-1)
  | S rem' =>
      let* b := get_bit words i in
      if b then first_clear_from words rem' (i + 1) else Ret i
  end.

Definition first_clear_bit (words : list Z) : result Z :=
  first_clear_from words (Z.to_nat (BLOCK_SIZE_IN_BYTES * CHAR_BIT)) 0.

End Bitmaps.

(** ** C strings *)

Definition NUL : ascii := Ascii.zero.

(** The characters of a C string stop at its terminator. *)
Fixpoint cstr (s : string) : string :=
  match s with
  | EmptyString => EmptyString
  | String c s' => if Ascii.eqb c NUL then EmptyString else String c (cstr s')
  end.

(** The [n] characters [strncpy(dst, src, n)] writes: those of [src] up to
    its terminator, then NUL padding. *)
Fixpoint strncpy_chars (src : string) (n : nat) : list ascii :=
  match n with
  | O => []
  | S n' =>
      match src with
      | EmptyString => NUL :: strncpy_chars EmptyString n'
      | String c s' =>
          if Ascii.eqb c NUL then NUL :: strncpy_chars EmptyString n'
          else c :: strncpy_chars s' n'
      end
  end.

Definition strncpy (dst : list ascii) (src : string) (n : nat) : list ascii :=
  strncpy_chars src n ++ drop n dst.

(** Reading a [char] array as a string ([%s], [strlen], [strcmp]): the
    characters before the first NUL; running off the array is undefined. *)
Fixpoint c_str (chars : list ascii) : result string :=
  match chars with
  | [] => Undef
  | c :: rest =>
      if Ascii.eqb c NUL then Ret EmptyString
      else let* s := c_str rest in Ret (String c s)
  end.

(** ** On-disk structures *)

Definition inode_type_file : Z := 0.
Definition inode_type_directory : Z := 1.

(** Pointers into the disk are byte offsets from [disk]; [None] is [NULL]
    (which is also what zero-filled memory reads as). *)
Definition ptr : Type := option Z.

Record superblock : Type := mk_superblock {
  sb_inode_bitmap_block : Z;
  sb_data_bitmap_block : Z;
  sb_inode_table_start : Z;
  sb_data_region_start : Z;
  sb_root_inode : Z }.

Record inode : Type := mk_inode {
  i_type : Z;
  i_size : Z;
  i_data_block_pointers : list ptr }.

(** [char name[MAX_DIRECTORY_NAME_LENGTH + 1]] is a list of 31 characters. *)
Record direntry : Type := mk_direntry {
  d_inum : Z;
  d_name : list ascii }.

(** [sizeof(direntry)]: a 4-byte [int], 31 characters, one byte of padding. *)
Definition DIRENTRY_SIZE : Z := 36.
Definition ENTRIES_PER_BLOCK : Z := BLOCK_SIZE_IN_BYTES / DIRENTRY_SIZE.
Definition INODES_IN_TABLE : Z :=
  INODE_TABLE_IN_BLOCKS * BLOCK_SIZE_IN_BYTES / INODE_SIZE_IN_BYTES.

(** The disk, region by region.  Each region is seen at the type the code
    uses it at: words in the bitmap blocks, inodes at a 256-byte stride in
    the inode table, directory entries at a 36-byte stride in each data
    block. *)
Record disk_image : Type := mk_disk {
  dk_superblock : superblock;
  dk_inode_bitmap : list Z;
  dk_data_bitmap : list Z;
  dk_inode_table : list inode;
  dk_data_region : list (list direntry) }.

Definition zero_inode : inode := mk_inode 0 0 (replicate 12 None).
Definition zero_direntry : direntry := mk_direntry 0 (replicate 31 NUL).

(** [calloc(DISK_SIZE_IN_BLOCKS, BLOCK_SIZE_IN_BYTES)] *)
Definition calloc_disk : disk_image :=
  mk_disk (mk_superblock 0 0 0 0 0)
    (replicate (Z.to_nat WORDS_PER_BLOCK) 0)
    (replicate (Z.to_nat WORDS_PER_BLOCK) 0)
    (replicate (Z.to_nat INODES_IN_TABLE) zero_inode)
    (replicate (Z.to_nat DATA_REGION_IN_BLOCKS)
       (replicate (Z.to_nat ENTRIES_PER_BLOCK) zero_direntry)).

Definition INT_MIN : Z := - 2 ^ 31.
Definition INT_MAX : Z := 2 ^ 31 - 1.

(** [int] arithmetic: a result outside the type is undefined. *)
Definition int_val (v : Z) : result Z :=
  if (INT_MIN <=? v) && (v <=? INT_MAX) then Ret v else Undef.

(** ** Typed access to the disk

    A pointer is dereferenced at the type of the variable that holds it.
    The access is defined in the embedding when it lands exactly on a cell
    of that type in the region laid out above; every other access (outside
    the 64 blocks, inside another region, or astride two cells) is [Undef]. *)

Definition INODE_BITMAP_AT : Z := 1 * BLOCK_SIZE_IN_BYTES.
Definition DATA_BITMAP_AT : Z := 2 * BLOCK_SIZE_IN_BYTES.
Definition INODE_TABLE_AT : Z := 3 * BLOCK_SIZE_IN_BYTES.
Definition DATA_REGION_AT : Z := (3 + INODE_TABLE_IN_BLOCKS) * BLOCK_SIZE_IN_BYTES.
Definition DISK_END : Z := DISK_SIZE_IN_BLOCKS * BLOCK_SIZE_IN_BYTES.

Definition load_words (d : disk_image) (p : Z) : result (list Z) :=
  if p =? INODE_BITMAP_AT then Ret (dk_inode_bitmap d)
  else if p =? DATA_BITMAP_AT then Ret (dk_data_bitmap d)
  else Undef.

Definition store_words (d : disk_image) (p : Z) (ws : list Z) : result disk_image :=
  if p =? INODE_BITMAP_AT then
    Ret (mk_disk (dk_superblock d) ws (dk_data_bitmap d)
           (dk_inode_table d) (dk_data_region d))
  else if p =? DATA_BITMAP_AT then
    Ret (mk_disk (dk_superblock d) (dk_inode_bitmap d) ws
           (dk_inode_table d) (dk_data_region d))
  else Undef.

(** The inode a pointer addresses, as an index of the table. *)
Definition inode_slot (p : Z) : option nat :=
  if (INODE_TABLE_AT <=? p) && (p <? DATA_REGION_AT)
     && ((p - INODE_TABLE_AT) mod INODE_SIZE_IN_BYTES =? 0)
  then Some (Z.to_nat ((p - INODE_TABLE_AT) / INODE_SIZE_IN_BYTES))
  else None.

Definition load_inode (d : disk_image) (p : Z) : result inode :=
  let* k := of_option (inode_slot p) in
  of_option (dk_inode_table d !! k).

Definition store_inode (d : disk_image) (p : Z) (i : inode) : result disk_image :=
  let* k := of_option (inode_slot p) in
  Ret (mk_disk (dk_superblock d) (dk_inode_bitmap d) (dk_data_bitmap d)
         (<[k := i]> (dk_inode_table d)) (dk_data_region d)).

(** The directory entry a pointer addresses: data block and slot in it. *)
Definition entry_slot (p : Z) : option (nat * nat) :=
  let q := p - DATA_REGION_AT in
  if (DATA_REGION_AT <=? p) && (p <? DISK_END)
     && (q mod BLOCK_SIZE_IN_BYTES mod DIRENTRY_SIZE =? 0)
     && (q mod BLOCK_SIZE_IN_BYTES / DIRENTRY_SIZE <? ENTRIES_PER_BLOCK)
  then Some (Z.to_nat (q / BLOCK_SIZE_IN_BYTES),
             Z.to_nat (q mod BLOCK_SIZE_IN_BYTES / DIRENTRY_SIZE))
  else None.

Definition load_entry (d : disk_image) (p : Z) : result direntry :=
  let* bs := of_option (entry_slot p) in
  let* blk := of_option (dk_data_region d !! bs.1) in
  of_option (blk !! bs.2).

Definition store_entry (d : disk_image) (p : Z) (e : direntry) : result disk_image :=
  let* bs := of_option (entry_slot p) in
  let* blk := of_option (dk_data_region d !! bs.1) in
  Ret (mk_disk (dk_superblock d) (dk_inode_bitmap d) (dk_data_bitmap d)
         (dk_inode_table d) (<[bs.1 := <[bs.2 := e]> blk]> (dk_data_region d))).

(** [&entry[k]] *)
Definition entry_at (entry : Z) (k : Z) : Z := entry + k * DIRENTRY_SIZE.

(** ** Accessors *)

Definition inode_bitmap (d : disk_image) : result Z :=
  int_val (sb_inode_bitmap_block (dk_superblock d) * BLOCK_SIZE_IN_BYTES).

Definition data_bitmap (d : disk_image) : result Z :=
  int_val (sb_data_bitmap_block (dk_superblock d) * BLOCK_SIZE_IN_BYTES).

Definition inode_for_index (d : disk_image) (index : Z) : result Z :=
  let* a := int_val (sb_inode_table_start (dk_superblock d) * BLOCK_SIZE_IN_BYTES) in
  let* b := int_val (index * INODE_SIZE_IN_BYTES) in
  Ret (a + b).

Definition data_block_for_index (d : disk_image) (index : Z) : result Z :=
  let* s := int_val (sb_data_region_start (dk_superblock d) + index) in
  int_val (s * BLOCK_SIZE_IN_BYTES).

Definition root_inode (d : disk_image) : result Z :=
  inode_for_index d (sb_root_inode (dk_superblock d)).

(** [ino->data_block_pointers[0]], for reading and for writing. *)
Definition first_block (i : inode) : result ptr :=
  of_option (i_data_block_pointers i !! 0%nat).

Definition set_first_block (i : inode) (p : ptr) : inode :=
  mk_inode (i_type i) (i_size i) (<[0%nat := p]> (i_data_block_pointers i)).

Definition set_type (i : inode) (t : Z) : inode :=
  mk_inode t (i_size i) (i_data_block_pointers i).

Definition set_inum (e : direntry) (n : Z) : direntry := mk_direntry n (d_name e).

Definition set_name (e : direntry) (s : string) : direntry :=
  mk_direntry (d_inum e)
    (strncpy (d_name e) s (Z.to_nat MAX_DIRECTORY_NAME_LENGTH)).

Definition init_direntry_datablock_with_default_directories
    (d : disk_image) (data_block : Z) : result disk_image :=
  let entry := data_block in
  let* e := load_entry d entry in
  let* d := store_entry d entry (set_inum e 0) in
  let* e := load_entry d entry in
  let* d := store_entry d entry (set_name e ".") in
  let entry := entry_at entry 1 in
  let* e := load_entry d entry in
  let* d := store_entry d entry (set_inum e 0) in
  let* e := load_entry d entry in
  store_entry d entry (set_name e "..").

Section FileSystem.

Variable shl_undef : Z -> option Z.

(** [set_bit(bitmap, n)] through the bitmap pointer. *)
Definition set_bit_in (d : disk_image) (bitmap : Z) (n : Z) : result disk_image :=
  let* ws := load_words d bitmap in
  let* ws' := set_bit shl_undef ws n in
  store_words d bitmap ws'.

Definition first_clear_bit_in (d : disk_image) (bitmap : Z) : result Z :=
  let* ws := load_words d bitmap in
  first_clear_bit shl_undef ws.

Definition fs_create_disk : result disk_image :=
  let d := calloc_disk in
  let d := mk_disk (mk_superblock 1 2 3 (3 + INODE_TABLE_IN_BLOCKS) 0)
             (dk_inode_bitmap d) (dk_data_bitmap d)
             (dk_inode_table d) (dk_data_region d) in
  let* bitmap := inode_bitmap d in
  let* d := set_bit_in d bitmap 0 in
  let* ino := inode_for_index d 0 in
  let* i := load_inode d ino in
  let* d := store_inode d ino (set_type i inode_type_directory) in
  let* bitmap := data_bitmap d in
  let* d := set_bit_in d bitmap 0 in
  let* data_block := data_block_for_index d 0 in
  let* i := load_inode d ino in
  let* d := store_inode d ino (set_first_block i (Some data_block)) in
  init_direntry_datablock_with_default_directories d data_block.

(** The scans over a directory step [entry = &entry[++entry_index]]: the
    pointer moves on from where it stands by the incremented index.  Each
    pass dereferences [entry], so a scan leaves the disk after fewer than
    [SCAN_FUEL] passes. *)
Definition SCAN_FUEL : nat := 128.

(** The [while] loop of [directory_inode]. *)
Fixpoint directory_inode_scan (fuel : nat) (d : disk_image)
    (entry : Z) (entry_index : Z) (directory_name : string) : result ptr :=
  match fuel with
  | O => Fuel
  | S fuel' =>
      let* e := load_entry d entry in
      match d_name e with
      | [] => Undef
      | c :: _ =>
          if Ascii.eqb c NUL then Ret None
          else
            let* s := c_str (d_name e) in
            if String.eqb s (cstr directory_name) then
              let* p := inode_for_index d (d_inum e) in Ret (Some p)
            else
              directory_inode_scan fuel' d
                (entry_at entry (entry_index + 1)) (entry_index + 1)
                directory_name
      end
  end.

Definition directory_inode (d : disk_image) (curr_dir_inode : Z)
    (directory_name : string) : result ptr :=
  let* i := load_inode d curr_dir_inode in
  if negb (i_type i =? inode_type_directory) then Ret None
  else
    let* b := first_block i in
    let* entry := of_option b in
    directory_inode_scan SCAN_FUEL d entry 0 directory_name.

(** The [while] loop of [create_inode]: the first entry met whose name is
    empty. *)
Fixpoint free_entry_scan (fuel : nat) (d : disk_image)
    (entry : Z) (index : Z) : result Z :=
  match fuel with
  | O => Fuel
  | S fuel' =>
      let* e := load_entry d entry in
      match d_name e with
      | [] => Undef
      | c :: _ =>
          if Ascii.eqb c NUL then Ret entry
          else free_entry_scan fuel' d (entry_at entry (index + 1)) (index + 1)
      end
  end.

Definition create_inode (d : disk_image) (parent : Z) (name : string)
    (inode_type : Z) : result disk_image :=
  let* pi := load_inode d parent in
  if negb (i_type pi =? inode_type_directory) then Abort
  else
    (* Find a free inode. *)
    let* bitmap := inode_bitmap d in
    let* inum := first_clear_bit_in d bitmap in
    let* d := set_bit_in d bitmap inum in
    (* Find a data block. *)
    let* bitmap := data_bitmap d in
    let* data_block_num := first_clear_bit_in d bitmap in
    let* d := set_bit_in d bitmap data_block_num in
    let* data_block := data_block_for_index d data_block_num in
    (* Init the new inode. *)
    let* ino := inode_for_index d inum in
    let* i := load_inode d ino in
    let* d := store_inode d ino (set_first_block i (Some data_block)) in
    let* i := load_inode d ino in
    let* d := store_inode d ino (set_type i inode_type) in
    (* Add reference to directory. *)
    let* pi := load_inode d parent in
    let* b := first_block pi in
    let* entry := of_option b in
    let* entry := free_entry_scan SCAN_FUEL d entry 0 in
    let* e := load_entry d entry in
    let* d := store_entry d entry (set_name e name) in
    let* e := load_entry d entry in
    let* d := store_entry d entry (set_inum e inum) in
    (* If this is a directory, init with . and .. dir entries. *)
    if inode_type =? inode_type_directory
    then init_direntry_datablock_with_default_directories d data_block
    else Ret d.

(** [strsep(&string, "/")] applied until the string is used up: the
    components between the slashes, [tok] holding (reversed) the
    characters of the component being read. *)
Fixpoint path_components (s : string) (tok : list ascii) : list string :=
  match s with
  | EmptyString => [string_of_list_ascii (rev tok)]
  | String c s' =>
      if Ascii.eqb c "/" then
        string_of_list_ascii (rev tok) :: path_components s' []
      else path_components s' (c :: tok)
  end.

(** One pass of the [while] loop of [create_file] and [create_dir] on a
    component that is not the last: [in = directory_inode(in, component)],
    and a [NULL] leaves the loop ([None] stays [None]). *)
Definition lookup_step (d : disk_image) (cur : result ptr)
    (current_path_component : string) : result ptr :=
  let* p := cur in
  match p with
  | None => Ret None
  | Some ino => directory_inode d ino current_path_component
  end.

(** The walk from the root over the components before the last one: the
    inode the new name is to be created under, or [NULL]. *)
Definition walk_parent (d : disk_image) (components : list string) : result ptr :=
  let* root := root_inode d in
  fold_left (lookup_step d) (removelast components) (Ret (Some root)).

(** The body shared by [create_file] and [create_dir], which differ in the
    inode type they pass on.  The components before the last are looked
    up in turn from the root; the last one names the new inode. *)
Definition create_path (d : disk_image) (path : string) (inode_type : Z)
    : result disk_image :=
  match cstr path with
  | String c path' =>
      if Ascii.eqb c "/" then
        let components := path_components path' [] in
        let* parent := walk_parent d components in
        match parent with
        | None => Ret d
        | Some ino =>
            create_inode d ino (List.last components EmptyString) inode_type
        end
      else Ret d (* We don't support relative paths yet. *)
  | EmptyString => Ret d
  end.

Definition create_file (d : disk_image) (path : string) : result disk_image :=
  create_path d path inode_type_file.

Definition create_dir (d : disk_image) (path : string) : result disk_image :=
  create_path d path inode_type_directory.

(** *** Runs

    The states the disk goes through: the one [fs_create_disk] returns,
    and those reached from it by [create_inode] calls that return (the
    calls [create_file] and [create_dir] make are among them). *)
Inductive reachable : disk_image -> Prop :=
  | reachable_disk d :
      fs_create_disk = Ret d -> reachable d
  | reachable_create d parent name inode_type d' :
      reachable d ->
      create_inode d parent name inode_type = Ret d' ->
      reachable d'.

(** The indices the next [create_inode] takes: what [first_clear_bit]
    answers on the inode bitmap, and what it answers on the data bitmap
    once the inode bit is set. *)
Definition next_allocation (d : disk_image) : result (Z * Z) :=
  let* bitmap := inode_bitmap d in
  let* inum := first_clear_bit_in d bitmap in
  let* d := set_bit_in d bitmap inum in
  let* bitmap := data_bitmap d in
  let* data_block_num := first_clear_bit_in d bitmap in
  Ret (inum, data_block_num).

(** Whether a call with this path gets as far as [create_inode], and
    then with which parent and name. *)
Definition create_target (d : disk_image) (path : string)
    : result (option (Z * string)) :=
  match cstr path with
  | String c path' =>
      if Ascii.eqb c "/" then
        let components := path_components path' [] in
        let* parent := walk_parent d components in
        Ret (option_map (fun ino => (ino, List.last components EmptyString))
               parent)
      else Ret None
  | EmptyString => Ret None
  end.

Inductive call : Type :=
  | CreateFile (path : string)
  | CreateDir (path : string).

Definition call_path (c : call) : string :=
  match c with CreateFile path | CreateDir path => path end.

Definition exec (d : disk_image) (c : call) : result disk_image :=
  match c with
  | CreateFile path => create_file d path
  | CreateDir path => create_dir d path
  end.

(** [run d cs l d']: the calls [cs], made in turn from [d], all return and
    leave the disk in [d']; [l] lists, in order, the inode index and the
    data-block index allocated by those of them that create an inode. *)
Inductive run : disk_image -> list call -> list (Z * Z) -> disk_image -> Prop :=
  | run_nil d : run d [] [] d
  | run_skip d c d1 cs l d2 :
      create_target d (call_path c) = Ret None ->
      exec d c = Ret d1 ->
      run d1 cs l d2 ->
      run d (c :: cs) l d2
  | run_alloc d c t a d1 cs l d2 :
      create_target d (call_path c) = Ret (Some t) ->
      next_allocation d = Ret a ->
      exec d c = Ret d1 ->
      run d1 cs l d2 ->
      run d (c :: cs) (a :: l) d2.

End FileSystem.

(** ** Printing the tree *)

Local Open Scope string_scope.

Definition newline : string := String (ascii_of_nat 10) EmptyString.

Fixpoint spaces (n : nat) : string :=
  match n with
  | O => ""
  | S n' => " " ++ spaces n'
  end.

(** [(length == 1 && name[0] == '.') ||
     (length == 2 && name[0] == '.' && name[1] == '.')] *)
Definition is_dot_name (name : string) : bool :=
  let length := Z.of_nat (String.length name) in
  let is_dot (k : nat) :=
    match String.get k name with
    | Some c => Ascii.eqb c "."
    | None => false
    end in
  ((length =? 1)%Z && is_dot 0%nat)
  || ((length =? 2)%Z && is_dot 0%nat && is_dot 1%nat).

(** [print_inode_recursive] returns what the C function writes to the
    standard output.  [print_entries] is its [while] loop.  The recursion
    follows inode numbers stored on the disk, hence the budget. *)
Fixpoint print_inode_recursive (fuel : nat) (d : disk_image) (name : string)
    (ino : Z) (level : Z) : result string :=
  match fuel with
  | O => Fuel
  | S fuel' =>
      let out := spaces (Z.to_nat level) ++ name ++ newline in
      if is_dot_name name then Ret out
      else
        let* i := load_inode d ino in
        if (i_type i =? inode_type_directory)%Z then
          let* b := first_block i in
          let* entry := of_option b in
          let* rest := print_entries fuel' d entry 0 level in
          Ret (out ++ rest)
        else Ret out
  end
with print_entries (fuel : nat) (d : disk_image) (entry : Z) (entry_index : Z)
    (level : Z) : result string :=
  match fuel with
  | O => Fuel
  | S fuel' =>
      let* e := load_entry d entry in
      match d_name e with
      | [] => Undef
      | c :: _ =>
          if Ascii.eqb c NUL then Ret ""
          else
            let* s := c_str (d_name e) in
            let* p := inode_for_index d (d_inum e) in
            let* o1 := print_inode_recursive fuel' d s p (level + 1) in
            let* o2 := print_entries fuel' d
                         (entry_at entry (entry_index + 1)) (entry_index + 1)
                         level in
            Ret (o1 ++ o2)
      end
  end.

Definition print_tree (fuel : nat) (d : disk_image) : result string :=
  let* r := root_inode d in
  print_inode_recursive fuel d "/" r 0.

Local Close Scope string_scope.

(** * Definitions used by the statements *)

Definition BITMAP_BITS : Z := BLOCK_SIZE_IN_BYTES * CHAR_BIT.

Definition zero_bitmap : list Z := replicate (Z.to_nat WORDS_PER_BLOCK) 0.

(** Two readings of the shifts the C standard leaves undefined: no result
    at all ([iso_c]), and the count taken modulo 32 as the 32-bit shift
    instructions of x86-64 and AArch64 do, the result wrapping to [int]
    ([mod32]). *)
Definition iso_c : Z -> option Z := fun _ => None.

Definition mod32 : Z -> option Z := fun k => Some (2 ^ (k mod 32)).

(** A bit of a bitmap, as the bytes hold it. *)
Definition bit_is_set (ws : list Z) (k : Z) : bool :=
  match ws !! Z.to_nat (k / BITS_PER_WORD) with
  | Some w => Z.testbit w (k mod BITS_PER_WORD)
  | None => false
  end.

(** The law on [set_bit] and [get_bit], as the claim words it. *)
Definition set_get_law (shl_undef : Z -> option Z) : Prop :=
  forall (ws : list Z) (n : Z),
    length ws = Z.to_nat WORDS_PER_BLOCK ->
    0 <= n < BITMAP_BITS ->
    exists ws',
      set_bit shl_undef ws n = Ret ws'
      /\ get_bit shl_undef ws' n = Ret true
      /\ forall m, 0 <= m < BITMAP_BITS -> m <> n ->
                   get_bit shl_undef ws' m = get_bit shl_undef ws m.

(** First fit, as the claim words it. *)
Definition first_fit_law (shl_undef : Z -> option Z) : Prop :=
  (forall (ws : list Z) (k : Z),
     length ws = Z.to_nat WORDS_PER_BLOCK ->
     0 <= k < BITMAP_BITS ->
     (forall j, 0 <= j < k -> bit_is_set ws j = true) ->
     bit_is_set ws k = false ->
     first_clear_bit shl_undef ws = Ret k)
  /\ (forall ws : list Z,
       length ws = Z.to_nat WORDS_PER_BLOCK ->
       (forall j, 0 <= j < BITMAP_BITS -> bit_is_set ws j = true) ->
       first_clear_bit shl_undef ws = Ret (-1)).

(** Bits 0..31 set, and bits 0..63 set. *)
Definition bitmap_low32 : list Z := <[0%nat := Z.ones 32]> zero_bitmap.

Definition bitmap_low64 : list Z := <[0%nat := Z.ones 64]> zero_bitmap.

(** Addresses of the cells: inode [k] of the table, data block [b], and
    slot [s] of a data block. *)
Definition inode_addr (k : nat) : Z := INODE_TABLE_AT + Z.of_nat k * INODE_SIZE_IN_BYTES.
Definition block_addr (b : nat) : Z := DATA_REGION_AT + Z.of_nat b * BLOCK_SIZE_IN_BYTES.
Definition slot_addr (b s : nat) : Z := block_addr b + Z.of_nat s * DIRENTRY_SIZE.

(** The pointer a directory scan holds after [n] steps
    [entry = &entry[++index]]. *)
Fixpoint probe (entry index : Z) (n : nat) : Z :=
  match n with
  | O => entry
  | S n' => probe (entry_at entry (index + 1)) (index + 1) n'
  end.

(** The slot that pointer addresses when the scan starts on slot 0. *)
Definition probe_slot (n : nat) : nat := (n * (n + 1) / 2)%nat.

(** What a scan meets at a pointer: an entry in use (its name does not
    start with NUL), a free entry, an entry carrying the name [t]. *)
Definition used_at (d : disk_image) (p : Z) : Prop :=
  exists e c r, load_entry d p = Ret e /\ d_name e = c :: r /\ c <> NUL.

Definition free_at (d : disk_image) (p : Z) : Prop :=
  exists e r, load_entry d p = Ret e /\ d_name e = NUL :: r.

Definition named_at (d : disk_image) (p : Z) (t : string) : Prop :=
  exists e, load_entry d p = Ret e /\ c_str (d_name e) = Ret t /\ t <> EmptyString.

Definition std_superblock : superblock :=
  mk_superblock 1 2 3 (3 + INODE_TABLE_IN_BLOCKS) 0.

Definition zero_block : list direntry :=
  replicate (Z.to_nat ENTRIES_PER_BLOCK) zero_direntry.

(** A name array has its 31 characters, the last one NUL: [strncpy] writes
    the first 30 only. *)
Definition name_ok (e : direntry) : Prop :=
  length (d_name e) = 31%nat /\ d_name e !! 30%nat = Some NUL.

(** An implementation on which no undefined shift yields 0 (it yields no
    result, or some non-zero [int]): setting a bit then shows in the word. *)
Definition shifts_never_zero (shl_undef : Z -> option Z) : Prop :=
  forall k v, shl_undef k = Some v -> to_word (wrap_int v) <> 0.

Section Invariant.
Variable shl_undef : Z -> option Z.

(** An inode of the table is either untouched, and then so is the data
    block of the same index, or it is allocated and owns that block. *)
Definition inode_ok (d : disk_image) (k : nat) (i : inode) : Prop :=
  (i = zero_inode
   /\ forall blk, dk_data_region d !! k = Some blk -> blk = zero_block)
  \/ (get_bit shl_undef (dk_inode_bitmap d) (Z.of_nat k) = Ret true
      /\ first_block i = Ret (Some (block_addr k))).

Record Inv (d : disk_image) : Prop := mk_Inv {
  inv_sb : dk_superblock d = std_superblock;
  inv_maps : dk_data_bitmap d = dk_inode_bitmap d;
  inv_itable : length (dk_inode_table d) = 80%nat;
  inv_region : length (dk_data_region d) = 56%nat;
  inv_blocks : forall b blk, dk_data_region d !! b = Some blk -> length blk = 113%nat;
  inv_names : forall b blk s e,
    dk_data_region d !! b = Some blk -> blk !! s = Some e -> name_ok e;
  inv_inodes : forall k i, dk_inode_table d !! k = Some i -> inode_ok d k i }.

End Invariant.

(** The entry [create_inode] writes, and the block a new directory starts
    with. *)
Definition new_entry (e : direntry) (name : string) (inum : Z) : direntry :=
  set_inum (set_name e name) inum.

Definition dot_block (blk : list direntry) : list direntry :=
  <[1%nat := set_name (set_inum zero_direntry 0) ".."]>
    (<[0%nat := set_name (set_inum zero_direntry 0) "."]> blk).

(** What a returning [create_inode] has done: [kp] is the parent's inode
    index, [a] the index allocated (for the inode and for its block), [n]
    the number of steps the scan of the parent took, [blkp] the parent's
    block and [e] the free entry found there. *)
Definition created (d : disk_image) (kp a n : nat) (blkp : list direntry)
    (e : direntry) (name : string) (ty : Z) (imap' : list Z) : disk_image :=
  let table' :=
    <[a := set_type (set_first_block zero_inode (Some (block_addr a))) ty]>
      (dk_inode_table d) in
  let region1 :=
    <[kp := <[probe_slot n := new_entry e name (Z.of_nat a)]> blkp]>
      (dk_data_region d) in
  let region2 :=
    if ty =? inode_type_directory then <[a := dot_block zero_block]> region1
    else region1 in
  mk_disk (dk_superblock d) imap' imap' table' region2.

Record creation (shl_undef : Z -> option Z) (d : disk_image) (parent : Z)
    (name : string) (ty : Z) (d' : disk_image)
    (kp a n : nat) (blkp : list direntry) (e : direntry) (imap' : list Z) : Prop :=
  mk_creation {
    cr_parent : parent = inode_addr kp;
    cr_kp : (kp < 56)%nat;
    cr_a : (a < 80)%nat;
    cr_a_dir : ty = inode_type_directory -> (a < 56)%nat;
    cr_ne : kp <> a;
    cr_first : first_clear_bit shl_undef (dk_inode_bitmap d) = Ret (Z.of_nat a);
    cr_clear : get_bit shl_undef (dk_inode_bitmap d) (Z.of_nat a) = Ret false;
    cr_set : set_bit shl_undef (dk_inode_bitmap d) (Z.of_nat a) = Ret imap';
    cr_inode : dk_inode_table d !! a = Some zero_inode;
    cr_block : forall blk, dk_data_region d !! a = Some blk -> blk = zero_block;
    cr_pinode : exists pi, dk_inode_table d !! kp = Some pi
                           /\ i_type pi = inode_type_directory;
    cr_pbit : get_bit shl_undef (dk_inode_bitmap d) (Z.of_nat kp) = Ret true;
    cr_pblock : dk_data_region d !! kp = Some blkp;
    cr_n : (n <= 14)%nat;
    cr_entry : blkp !! probe_slot n = Some e;
    cr_used : forall i, (i < n)%nat -> used_at d (probe (block_addr kp) 0 i);
    cr_free : free_at d (probe (block_addr kp) 0 n);
    cr_state : d' = created d kp a n blkp e name ty imap' }.

(** The disk [fs_create_disk] returns. *)
Definition root_disk : disk_image :=
  mk_disk std_superblock
    (<[0%nat := 1]> zero_bitmap) (<[0%nat := 1]> zero_bitmap)
    (<[0%nat := set_first_block (set_type zero_inode inode_type_directory)
                  (Some (block_addr 0))]>
       (replicate (Z.to_nat INODES_IN_TABLE) zero_inode))
    (<[0%nat := dot_block zero_block]>
       (replicate (Z.to_nat DATA_REGION_IN_BLOCKS) zero_block)).

Definition with_region (d : disk_image) (r : list (list direntry)) : disk_image :=
  mk_disk (dk_superblock d) (dk_inode_bitmap d) (dk_data_bitmap d) (dk_inode_table d) r.

(** The disk after the calls [cs], made in turn on a fresh disk. *)
Definition after (shl_undef : Z -> option Z) (cs : list call) : result disk_image :=
  fold_left (fun r c => bind r (fun d => exec shl_undef d c)) cs
    (fs_create_disk shl_undef).

(** The listing [print_tree] writes for a root holding a directory [a]
    that holds a file [b.txt]. *)
Definition listing_a_b : string :=
  ("/" ++ newline ++
   " ." ++ newline ++
   " .." ++ newline ++
   " a" ++ newline ++
   "  ." ++ newline ++
   "  .." ++ newline ++
   "  b.txt" ++ newline)%string.

(** The name a directory entry keeps of the [name] passed to
    [create_inode]: its first [MAX_DIRECTORY_NAME_LENGTH] characters. *)
Definition stored_name (name : string) : string :=
  substring 0 (Z.to_nat MAX_DIRECTORY_NAME_LENGTH) (cstr name).

(** [create_inode] returns [d'], and [e] is the entry it has written: the
    one at the pointer its scan of the parent's block stops on. *)
Definition writes_entry (shl_undef : Z -> option Z) (d : disk_image) (parent : Z)
    (name : string) (inode_type : Z) (d' : disk_image) (e : direntry) : Prop :=
  create_inode shl_undef d parent name inode_type = Ret d'
  /\ exists pi b entry,
       load_inode d parent = Ret pi
       /\ first_block pi = Ret (Some b)
       /\ free_entry_scan SCAN_FUEL d b 0 = Ret entry
       /\ load_entry d' entry = Ret e.

(** The claim on lookups, as it is worded: after a returning
    [create_inode], looking the child's stored name up in the parent gives
    the inode that was allocated for the child. *)
Definition lookup_law (shl_undef : Z -> option Z) : Prop :=
  forall d parent name inode_type d' inum data_block_num q,
    reachable shl_undef d ->
    create_inode shl_undef d parent name inode_type = Ret d' ->
    next_allocation shl_undef d = Ret (inum, data_block_num) ->
    inode_for_index d' inum = Ret q ->
    directory_inode d' parent (stored_name name) = Ret (Some q).

(** The claim on abandoned creates, as it is worded.  The path names a
    parent when it starts with a slash and the walk over its intermediate
    components ends on a directory. *)
Definition parent_is_directory (d : disk_image) (path : string) : Prop :=
  exists path' p i,
    cstr path = String "/" path'
    /\ walk_parent d (path_components path' []) = Ret (Some p)
    /\ load_inode d p = Ret i
    /\ i_type i = inode_type_directory.

Definition abandon_law (shl_undef : Z -> option Z) : Prop :=
  forall d path inode_type,
    reachable shl_undef d ->
    ~ parent_is_directory d path ->
    create_path shl_undef d path inode_type = Ret d.

(** The ways a create is given up, with what the call then does. *)
Inductive abandoned (d : disk_image) (path : string) : result disk_image -> Prop :=
  | abandoned_relative :
      (forall path', cstr path <> String "/" path') ->
      abandoned d path (Ret d)
  | abandoned_not_found path' :
      cstr path = String "/" path' ->
      walk_parent d (path_components path' []) = Ret None ->
      abandoned d path (Ret d)
  | abandoned_not_directory path' p i :
      cstr path = String "/" path' ->
      walk_parent d (path_components path' []) = Ret (Some p) ->
      load_inode d p = Ret i ->
      i_type i <> inode_type_directory ->
      abandoned d path Abort.

(** A fresh disk on which [name] has been created in the root. *)
Definition disk_with (inode_type : Z) (name : string) : disk_image :=
  created root_disk 0 1 2 (dot_block zero_block) zero_direntry name inode_type
    (<[0%nat := 3]> zero_bitmap).

(** Thirty creations: two directories, thirteen files in each (a block
    holds no more), two files in the root. *)
Definition files_in (dir : string) : list call :=
  map (fun n => CreateFile (dir ++ "/" ++ n)%string)
    ["f01"; "f02"; "f03"; "f04"; "f05"; "f06"; "f07"; "f08"; "f09"; "f10";
     "f11"; "f12"; "f13"]%string.

Definition fill30 : list call :=
  [CreateDir "/a"; CreateDir "/b"] ++ files_in "/a" ++ files_in "/b"
  ++ [CreateFile "/r1"; CreateFile "/r2"].

Definition long_name : string := "a_name_longer_than_thirty_characters".

(** The disk after [long_name] has been created twice in the root of a
    fresh disk. *)
Definition disk_with_twice : disk_image :=
  created (disk_with inode_type_file long_name) 0 2 3
    (<[3%nat := new_entry zero_direntry long_name 1]> (dot_block zero_block))
    zero_direntry long_name inode_type_file (<[0%nat := 7]> zero_bitmap).

(** A block that [init_direntry_datablock_with_default_directories] has
    run on when it was all zero: [.] and [..], both with inode 0, then
    nothing. *)
Definition seeded (d : disk_image) (data_block : Z) : Prop :=
  (exists e, load_entry d data_block = Ret e
             /\ d_inum e = 0 /\ c_str (d_name e) = Ret "."%string)
  /\ (exists e, load_entry d (entry_at data_block 1) = Ret e
                /\ d_inum e = 0 /\ c_str (d_name e) = Ret ".."%string)
  /\ forall k, 2 <= k < ENTRIES_PER_BLOCK -> free_at d (entry_at data_block k).

(** The two entries [init_direntry_datablock_with_default_directories]
    leaves at the start of a zero-filled block. *)
Definition dot_entry : direntry := set_name (set_inum zero_direntry 0) ".".
Definition dotdot_entry : direntry := set_name (set_inum zero_direntry 0) "..".

(** The shape of the tree on the disk.  Inode 0 is a directory; the inodes
    in use fill the table from index 0 on, as the bitmap reads; the block
    of a directory starts with [.] and [..]; an entry that differs from
    zero-filled memory sits on one of the slots a scan visits; and an
    entry is zero-filled, one of the two dot entries, or refers to an
    inode in use whose index is greater than that of the directory holding
    the entry. *)
Record Tree (shl_undef : Z -> option Z) (d : disk_image) : Prop := mk_Tree {
  tr_root : exists i,
    dk_inode_table d !! 0%nat = Some i /\ i_type i = inode_type_directory;
  tr_filled : forall k i j,
    dk_inode_table d !! k = Some i -> i <> zero_inode ->
    0 <= j <= Z.of_nat k ->
    get_bit shl_undef (dk_inode_bitmap d) j = Ret true;
  tr_dots : forall k i,
    dk_inode_table d !! k = Some i -> i_type i = inode_type_directory ->
    exists blk, dk_data_region d !! k = Some blk
      /\ blk !! 0%nat = Some dot_entry /\ blk !! 1%nat = Some dotdot_entry;
  tr_slots : forall b blk s e,
    dk_data_region d !! b = Some blk -> blk !! s = Some e ->
    e <> zero_direntry -> exists n, (n <= 14)%nat /\ s = probe_slot n;
  tr_entries : forall b blk s e,
    dk_data_region d !! b = Some blk -> blk !! s = Some e ->
    e = zero_direntry \/ e = dot_entry \/ e = dotdot_entry
    \/ (Z.of_nat b < d_inum e < 80
        /\ exists i, dk_inode_table d !! Z.to_nat (d_inum e) = Some i
                     /\ i <> zero_inode) }.

(** Every directory has room: the scan [create_inode] makes of its block
    would stop on a free entry. *)
Definition roomy (d : disk_image) : Prop :=
  forall dir i b,
    load_inode d dir = Ret i -> i_type i = inode_type_directory ->
    first_block i = Ret (Some b) ->
    exists entry, free_entry_scan SCAN_FUEL d b 0 = Ret entry.

(** A recursion budget that covers the deepest tree the inode table can
    hold: 80 inodes, each a directory of at most 15 entries. *)
Definition PRINT_FUEL : nat := 80 * 17 + 1.

(** [main]: what the program writes to the standard output, the listings
    being produced within the recursion budget [fuel]. *)
Definition main (shl_undef : Z -> option Z) (fuel : nat) : result string :=
  let* d := fs_create_disk shl_undef in
  let* o1 := print_tree fuel d in
  let* d := create_file shl_undef d "/test.txt" in
  let* d := create_dir shl_undef d "/testdir" in
  let* d := create_file shl_undef d "/testdir/test1.txt" in
  let* d := create_file shl_undef d "/testdir/test2.txt" in
  let* o2 := print_tree fuel d in
  Ret (o1 ++ newline ++ newline ++ o2)%string.

Definition main_output : string :=
  ("/" ++ newline ++
   " ." ++ newline ++
   " .." ++ newline ++
   newline ++ newline ++
   "/" ++ newline ++
   " ." ++ newline ++
   " .." ++ newline ++
   " test.txt" ++ newline ++
   " testdir" ++ newline ++
   "  ." ++ newline ++
   "  .." ++ newline ++
   "  test1.txt" ++ newline ++
   "  test2.txt" ++ newline)%string.

(** * Facts on the outcome monad *)

Lemma bind_Ret {A B : Type} (m : result A) (f : A -> result B) (b : B) :
  bind m f = Ret b -> exists a, m = Ret a /\ f a = Ret b.
Proof. destruct m; simpl; intros H; try discriminate. eauto. Qed.

Lemma of_option_Ret {A : Type} (o : option A) (a : A) :
  of_option o = Ret a -> o = Some a.
Proof. destruct o; simpl; congruence. Qed.

Ltac inv_ret :=
  repeat match goal with
  | H : bind _ _ = Ret _ |- _ =>
      let a := fresh "a" in
      let Ha := fresh "Ha" in
      apply bind_Ret in H; destruct H as (a & Ha & H)
  | H : of_option _ = Ret _ |- _ => apply of_option_Ret in H
  | H : Ret _ = Ret _ |- _ => injection H as H
  end.

Lemma Ret_inj {A : Type} (a b : A) : Ret a = Ret b -> a = b.
Proof. congruence. Qed.

Ltac bind_inv H x Hx := apply bind_Ret in H; destruct H as (x & Hx & H).

(** * Bit-level facts *)

Lemma land_pow2 (x b : Z) :
  0 <= b -> Z.land x (2 ^ b) = if Z.testbit x b then 2 ^ b else 0.
Proof.
  intros Hb. apply Z.bits_inj'. intros n Hn.
  rewrite Z.land_spec, Z.pow2_bits_eqb by lia.
  destruct (Z.eqb_spec b n) as [->|Hne].
  - destruct (Z.testbit x n) eqn:E; simpl.
    + rewrite Z.pow2_bits_eqb, Z.eqb_refl by lia. reflexivity.
    + rewrite Z.bits_0. reflexivity.
  - rewrite andb_false_r.
    destruct (Z.testbit x b).
    + rewrite Z.pow2_bits_eqb by lia. symmetry. apply Z.eqb_neq. exact Hne.
    + rewrite Z.bits_0. reflexivity.
Qed.

Lemma land_pow2_eq0 (x b : Z) :
  0 <= b -> (Z.land x (2 ^ b) =? 0) = negb (Z.testbit x b).
Proof.
  intros Hb. rewrite land_pow2 by lia.
  destruct (Z.testbit x b); simpl; [|reflexivity].
  apply Z.eqb_neq. pose proof (Z.pow_pos_nonneg 2 b). lia.
Qed.

Lemma to_word_pow2 (k : Z) : 0 <= k < 64 -> to_word (2 ^ k) = 2 ^ k.
Proof.
  intros Hk. unfold to_word. apply Z.mod_small. split.
  - apply Z.pow_nonneg. lia.
  - apply Z.pow_lt_mono_r; lia.
Qed.

(** The value an [int] takes once converted to [word_t]: a small
    non-negative number, or one whose bits 31..63 are all set. *)
Lemma to_word_wrap_int (v : Z) :
  0 <= to_word (wrap_int v) < 2 ^ 31
  \/ 2 ^ 64 - 2 ^ 31 <= to_word (wrap_int v) < 2 ^ 64.
Proof.
  unfold to_word, wrap_int.
  pose proof (Z.mod_pos_bound (v + 2 ^ 31) (2 ^ 32) ltac:(lia)) as H.
  destruct (Z_lt_le_dec ((v + 2 ^ 31) mod 2 ^ 32) (2 ^ 31)) as [Hlt|Hge].
  - right.
    replace (((v + 2 ^ 31) mod 2 ^ 32 - 2 ^ 31) mod 2 ^ 64)
      with ((v + 2 ^ 31) mod 2 ^ 32 - 2 ^ 31 + 2 ^ 64); [lia|].
    apply Z.mod_unique with (q := -1); lia.
  - left. rewrite Z.mod_small; lia.
Qed.

Lemma bitmap_bits_nat : Z.of_nat (Z.to_nat (BLOCK_SIZE_IN_BYTES * CHAR_BIT)) = BITMAP_BITS.
Proof. apply Z2Nat.id. unfold BITMAP_BITS, BLOCK_SIZE_IN_BYTES, CHAR_BIT. lia. Qed.

Section BitmapFacts.
Variable shl_undef : Z -> option Z.

Lemma int_shl1_low (k : Z) : 0 <= k < 31 -> int_shl1 shl_undef k = Ret (2 ^ k).
Proof.
  intros Hk. unfold int_shl1.
  destruct (Z.leb_spec 0 k), (Z.ltb_spec k 31); simpl; try lia. reflexivity.
Qed.

Lemma int_shl1_shape (k m : Z) :
  int_shl1 shl_undef k = Ret m ->
  0 <= to_word m < 2 ^ 31 \/ 2 ^ 64 - 2 ^ 31 <= to_word m < 2 ^ 64.
Proof.
  unfold int_shl1. destruct ((0 <=? k) && (k <? 31)) eqn:E.
  - intros [= <-]. apply andb_true_iff in E as [E1 E2].
    apply Z.leb_le in E1. apply Z.ltb_lt in E2.
    left. rewrite to_word_pow2 by lia. split.
    + apply Z.pow_nonneg; lia.
    + apply Z.pow_lt_mono_r; lia.
  - intros H. inv_ret. subst m. apply to_word_wrap_int.
Qed.

Lemma word_at_Ret (ws : list Z) (i w : Z) :
  word_at ws i = Ret w ->
  0 <= i < WORDS_PER_BLOCK /\ ws !! Z.to_nat i = Some w.
Proof.
  unfold word_at. destruct ((0 <=? i) && (i <? WORDS_PER_BLOCK)) eqn:E; [|discriminate].
  apply andb_true_iff in E as [E1 E2].
  apply Z.leb_le in E1. apply Z.ltb_lt in E2.
  intros H. inv_ret. auto.
Qed.

Lemma word_at_insert_eq (ws : list Z) (i w v : Z) :
  word_at ws i = Ret w -> word_at (<[Z.to_nat i := v]> ws) i = Ret v.
Proof.
  intros H. apply word_at_Ret in H as [Hi Hw].
  unfold word_at.
  destruct (Z.leb_spec 0 i), (Z.ltb_spec i WORDS_PER_BLOCK); simpl; try lia.
  rewrite list_lookup_insert_eq; [reflexivity|].
  apply lookup_lt_Some in Hw. exact Hw.
Qed.

Lemma word_at_insert_ne (ws : list Z) (i j v : Z) :
  0 <= i -> i <> j -> word_at (<[Z.to_nat i := v]> ws) j = word_at ws j.
Proof.
  intros Hi Hne. unfold word_at.
  destruct ((0 <=? j) && (j <? WORDS_PER_BLOCK)) eqn:E; [|reflexivity].
  apply andb_true_iff in E as [E1 E2]. apply Z.leb_le in E1.
  rewrite list_lookup_insert_ne; [reflexivity|]. lia.
Qed.

(** A bit that reads as set stays set whatever bit is set next. *)
Lemma set_bit_keeps (ws ws' : list Z) (n j : Z) :
  set_bit shl_undef ws n = Ret ws' ->
  get_bit shl_undef ws j = Ret true ->
  get_bit shl_undef ws' j = Ret true.
Proof.
  unfold set_bit, get_bit. intros Hs Hg.
  bind_inv Hs w Hw. bind_inv Hs m Hm. injection Hs as <-.
  bind_inv Hg wj Hwj. bind_inv Hg mj Hmj. injection Hg as Hg.
  pose proof Hw as Hr. apply word_at_Ret in Hr as [Hr _].
  destruct (Z.eq_dec (WORD_OFFSET n) (WORD_OFFSET j)) as [E|E].
  - rewrite <- E in *. rewrite (word_at_insert_eq _ _ _ _ Hw). simpl.
    rewrite Hmj. simpl. f_equal.
    assert (wj = w) by congruence. subst wj.
    apply negb_true_iff in Hg. apply Z.eqb_neq in Hg.
    apply negb_true_iff. apply Z.eqb_neq.
    rewrite Z.land_lor_distr_l. intros H0.
    apply Z.lor_eq_0_iff in H0. tauto.
  - rewrite word_at_insert_ne by lia. rewrite Hwj. simpl. rewrite Hmj. simpl.
    rewrite Hg. reflexivity.
Qed.

Lemma bit_split (n : Z) :
  0 <= n -> n = BITS_PER_WORD * WORD_OFFSET n + BIT_OFFSET n
            /\ 0 <= WORD_OFFSET n /\ 0 <= BIT_OFFSET n < 64.
Proof.
  intros Hn. unfold WORD_OFFSET, BIT_OFFSET, BITS_PER_WORD, CHAR_BIT.
  change (8 * 8) with 64.
  rewrite Z.quot_div_nonneg, Z.rem_mod_nonneg by lia.
  pose proof (Z.div_mod n 64 ltac:(lia)).
  pose proof (Z.mod_pos_bound n 64 ltac:(lia)).
  pose proof (Z.div_pos n 64 Hn ltac:(lia)). lia.
Qed.

(** Below bit 31 of a word the mask is the C standard's: setting the bit
    makes it read as set. *)
Lemma set_bit_get_same (ws ws' : list Z) (n : Z) :
  0 <= n -> BIT_OFFSET n < 31 ->
  set_bit shl_undef ws n = Ret ws' ->
  get_bit shl_undef ws' n = Ret true.
Proof.
  intros Hn Ho Hs. destruct (bit_split n Hn) as (_ & Hw0 & Hb).
  unfold set_bit in Hs. unfold get_bit.
  bind_inv Hs w Hw. bind_inv Hs m Hm. injection Hs as <-.
  rewrite (word_at_insert_eq _ _ _ _ Hw). simpl. rewrite Hm. simpl.
  rewrite int_shl1_low in Hm by lia. injection Hm as <-.
  rewrite to_word_pow2 by lia. f_equal.
  rewrite land_pow2_eq0, negb_involutive by lia.
  rewrite Z.lor_spec, Z.pow2_bits_eqb, Z.eqb_refl by lia.
  apply orb_true_r.
Qed.

(** ... and leaves every other bit below bit 31 of its word as it reads. *)
Lemma set_bit_get_other (ws ws' : list Z) (n j : Z) :
  0 <= n -> BIT_OFFSET n < 31 -> 0 <= j -> BIT_OFFSET j < 31 -> n <> j ->
  set_bit shl_undef ws n = Ret ws' ->
  get_bit shl_undef ws' j = get_bit shl_undef ws j.
Proof.
  intros Hn Hon Hj Hoj Hne Hs.
  destruct (bit_split n Hn) as (En & Hwn & Hbn).
  destruct (bit_split j Hj) as (Ej & Hwj & Hbj).
  unfold set_bit in Hs. unfold get_bit.
  bind_inv Hs w Hw. bind_inv Hs m Hm. injection Hs as <-.
  rewrite int_shl1_low in Hm by lia. injection Hm as <-.
  destruct (Z.eq_dec (WORD_OFFSET n) (WORD_OFFSET j)) as [E|E].
  - rewrite <- E. rewrite (word_at_insert_eq _ _ _ _ Hw), Hw. simpl.
    rewrite int_shl1_low by lia. simpl. f_equal. f_equal.
    rewrite !to_word_pow2 by lia.
    rewrite !land_pow2_eq0 by lia. f_equal.
    rewrite Z.lor_spec, Z.pow2_bits_eqb by lia.
    replace (BIT_OFFSET n =? BIT_OFFSET j) with false; [apply orb_false_r|].
    symmetry. apply Z.eqb_neq. lia.
  - rewrite word_at_insert_ne by lia. reflexivity.
Qed.

(** *** The scan of [first_clear_bit] *)

Lemma first_clear_from_sound (ws : list Z) (rem : nat) (i r : Z) :
  0 <= i ->
  first_clear_from shl_undef ws rem i = Ret r ->
  (forall j, i <= j < (if r =? -1 then i + Z.of_nat rem else r) ->
             get_bit shl_undef ws j = Ret true)
  /\ (r = -1 \/ (i <= r < i + Z.of_nat rem /\ get_bit shl_undef ws r = Ret false)).
Proof.
  revert i. induction rem as [|rem IH]; intros i Hi H; simpl in H.
  - injection H as <-. simpl. split; [intros; lia|auto].
  - bind_inv H b Hb. destruct b.
    + apply IH in H as [H1 H2]; [|lia]. split.
      * intros j Hj. destruct (Z.eq_dec j i) as [->|]; [exact Hb|].
        apply H1. destruct (r =? -1) eqn:E.
        -- lia.
        -- lia.
      * destruct H2 as [->|[H2 H3]]; [auto|right; split; [lia|exact H3]].
    + injection H as <-. split.
      * destruct (Z.eqb_spec i (-1)); intros; lia.
      * right. split; [lia|exact Hb].
Qed.

Lemma first_clear_from_complete (ws : list Z) (rem : nat) (i k : Z) :
  i <= k < i + Z.of_nat rem ->
  (forall j, i <= j < k -> get_bit shl_undef ws j = Ret true) ->
  get_bit shl_undef ws k = Ret false ->
  first_clear_from shl_undef ws rem i = Ret k.
Proof.
  revert i. induction rem as [|rem IH]; intros i Hk Hset Hclr; [lia|].
  simpl. destruct (Z.eq_dec i k) as [->|Hne].
  - rewrite Hclr. reflexivity.
  - rewrite Hset by lia. simpl. apply IH; [lia| |exact Hclr].
    intros j Hj. apply Hset. lia.
Qed.

Lemma first_clear_bit_found (ws : list Z) (r : Z) :
  first_clear_bit shl_undef ws = Ret r -> r <> -1 ->
  0 <= r < BITMAP_BITS
  /\ get_bit shl_undef ws r = Ret false
  /\ forall j, 0 <= j < r -> get_bit shl_undef ws j = Ret true.
Proof.
  unfold first_clear_bit. intros H Hr.
  apply first_clear_from_sound in H; [|lia].
  rewrite bitmap_bits_nat in H.
  destruct H as [H1 [H2|[H2 H3]]]; [congruence|].
  apply Z.eqb_neq in Hr. rewrite Hr in H1. auto.
Qed.

Lemma first_clear_bit_none (ws : list Z) :
  first_clear_bit shl_undef ws = Ret (-1) ->
  forall j, 0 <= j < BITMAP_BITS -> get_bit shl_undef ws j = Ret true.
Proof.
  unfold first_clear_bit. intros H.
  apply first_clear_from_sound in H; [|lia].
  rewrite bitmap_bits_nat in H.
  destruct H as [H1 _]. rewrite Z.eqb_refl in H1. exact H1.
Qed.

Lemma first_clear_bit_complete (ws : list Z) (k : Z) :
  0 <= k < BITMAP_BITS ->
  (forall j, 0 <= j < k -> get_bit shl_undef ws j = Ret true) ->
  get_bit shl_undef ws k = Ret false ->
  first_clear_bit shl_undef ws = Ret k.
Proof.
  intros Hk Hset Hclr. unfold first_clear_bit.
  apply first_clear_from_complete; [|exact Hset|exact Hclr].
  rewrite bitmap_bits_nat. lia.
Qed.

End BitmapFacts.

(** * First fit and the law of the bits *)

Lemma low_bits_zero (M : Z) :
  (forall j, 0 <= j < 31 -> Z.testbit M j = false) -> M mod 2 ^ 31 = 0.
Proof.
  intros H. rewrite <- Z.land_ones by lia.
  apply Z.bits_inj'. intros n Hn.
  rewrite Z.land_spec, Z.bits_0.
  destruct (Z.ltb_spec n 31).
  - rewrite H by lia. reflexivity.
  - rewrite Z.ones_spec_high by lia. apply andb_false_r.
Qed.

Section First.
Variable shl_undef : Z -> option Z.

Lemma get_bit_first_word (ws : list Z) (M j : Z) :
  ws !! 0%nat = Some M -> 0 <= j < 64 ->
  get_bit shl_undef ws j
  = bind (int_shl1 shl_undef j)
      (fun m => Ret (negb (Z.land M (to_word m) =? 0))).
Proof.
  intros HM Hj. unfold get_bit, WORD_OFFSET, BIT_OFFSET, BITS_PER_WORD, CHAR_BIT.
  change (8 * 8) with 64.
  rewrite Z.quot_small, Z.rem_small by lia.
  unfold word_at. change (Z.to_nat 0) with 0%nat. rewrite HM. reflexivity.
Qed.

Lemma get_bit_low (ws : list Z) (M j : Z) :
  ws !! 0%nat = Some M -> 0 <= j < 31 ->
  get_bit shl_undef ws j = Ret (Z.testbit M j).
Proof.
  intros HM Hj. rewrite (get_bit_first_word ws M) by (auto; lia).
  rewrite int_shl1_low by lia. unfold bind.
  rewrite to_word_pow2, land_pow2_eq0, negb_involutive by lia. reflexivity.
Qed.

Lemma bit_is_set_first_word (ws : list Z) (M j : Z) :
  ws !! 0%nat = Some M -> 0 <= j < 64 -> bit_is_set ws j = Z.testbit M j.
Proof.
  intros HM Hj. unfold bit_is_set, BITS_PER_WORD, CHAR_BIT. change (8 * 8) with 64.
  rewrite Z.div_small, Z.mod_small by lia.
  change (Z.to_nat 0) with 0%nat. rewrite HM. reflexivity.
Qed.

(** First fit, as far as the standard defines the scan: below bit 31 of
    the first word. *)
Lemma first_clear_bit_low (ws : list Z) (k : Z) :
  0 <= k < 31 ->
  (forall j, 0 <= j < k -> bit_is_set ws j = true) ->
  bit_is_set ws k = false ->
  ws <> [] ->
  first_clear_bit shl_undef ws = Ret k.
Proof.
  intros Hk Hset Hclr Hne. destruct ws as [|M ws]; [congruence|].
  apply first_clear_bit_complete.
  - unfold BITMAP_BITS, BLOCK_SIZE_IN_BYTES, CHAR_BIT. lia.
  - intros j Hj. rewrite (get_bit_low _ M) by (auto; lia).
    rewrite <- (bit_is_set_first_word (M :: ws)) by (auto; lia).
    rewrite Hset by lia. reflexivity.
  - rewrite (get_bit_low _ M) by (auto; lia).
    rewrite <- (bit_is_set_first_word (M :: ws)) by (auto; lia).
    rewrite Hclr. reflexivity.
Qed.

Lemma get_bit_word0 (M j : Z) :
  0 <= j < 64 ->
  get_bit shl_undef (<[0%nat := M]> zero_bitmap) j
  = bind (int_shl1 shl_undef j)
      (fun m => Ret (negb (Z.land M (to_word m) =? 0))).
Proof.
  intros Hj. unfold get_bit, WORD_OFFSET, BIT_OFFSET, BITS_PER_WORD, CHAR_BIT.
  change (8 * 8) with 64.
  rewrite Z.quot_small, Z.rem_small by lia. reflexivity.
Qed.

Lemma set_bit_word0 (j : Z) :
  0 <= j < 64 ->
  set_bit shl_undef zero_bitmap j
  = bind (int_shl1 shl_undef j)
      (fun m => Ret (<[0%nat := to_word m]> zero_bitmap)).
Proof.
  intros Hj. unfold set_bit, WORD_OFFSET, BIT_OFFSET, BITS_PER_WORD, CHAR_BIT.
  change (8 * 8) with 64.
  rewrite Z.quot_small, Z.rem_small by lia. reflexivity.
Qed.

Lemma get_bit_zero_low (j : Z) :
  0 <= j < 31 -> get_bit shl_undef zero_bitmap j = Ret false.
Proof.
  intros Hj. unfold get_bit, WORD_OFFSET, BIT_OFFSET, BITS_PER_WORD, CHAR_BIT.
  change (8 * 8) with 64.
  rewrite Z.quot_small, Z.rem_small by lia.
  rewrite int_shl1_low by lia. reflexivity.
Qed.

(** What the law forces on the mask of a bit the standard leaves
    undefined: the bits 31..63, all of them. *)
Lemma law_forces_mask (n : Z) :
  set_get_law shl_undef -> 31 <= n < 64 ->
  exists m, int_shl1 shl_undef n = Ret m /\ to_word m = 2 ^ 64 - 2 ^ 31.
Proof.
  intros L Hn.
  destruct (L zero_bitmap n) as (ws' & Hs & Hg & Ho).
  { reflexivity. } { unfold BITMAP_BITS, BLOCK_SIZE_IN_BYTES, CHAR_BIT. lia. }
  rewrite set_bit_word0 in Hs by lia.
  bind_inv Hs m Hm. apply Ret_inj in Hs. subst ws'. exists m. split; [exact Hm|].
  rewrite get_bit_word0, Hm in Hg by lia. apply Ret_inj in Hg.
  apply negb_true_iff, Z.eqb_neq in Hg. rewrite Z.land_diag in Hg.
  assert (Hlow : to_word m mod 2 ^ 31 = 0).
  { apply low_bits_zero. intros j Hj.
    specialize (Ho j). rewrite get_bit_zero_low in Ho by lia.
    rewrite get_bit_word0, int_shl1_low in Ho by lia. unfold bind in Ho.
    rewrite to_word_pow2, land_pow2_eq0, negb_involutive in Ho by lia.
    apply Ret_inj, Ho; [unfold BITMAP_BITS, BLOCK_SIZE_IN_BYTES, CHAR_BIT|]; lia. }
  pose proof (int_shl1_shape _ _ _ Hm) as Hshape.
  pose proof (Z.div_mod (to_word m) (2 ^ 31) ltac:(lia)). lia.
Qed.

Lemma zero_bitmap_first : zero_bitmap !! 0%nat = Some 0.
Proof. reflexivity. Qed.

Lemma insert_first (M : Z) : (<[0%nat := M]> zero_bitmap) !! 0%nat = Some M.
Proof. reflexivity. Qed.

End First.

(** C10.  The law on [set_bit] and [get_bit] fails on every implementation.
    The mask is the [int] [1 << (n % 64)]: converted to a 64-bit word it
    is below [2^31] or has bits 31..63 all set, never bit 32 alone.  If
    the law held at bits 32 and 33 of an empty bitmap, both masks would be
    bits 31..63, and setting bit 32 would make bit 33 read as set. *)
Theorem set_get_law_fails (shl_undef : Z -> option Z) : ~ set_get_law shl_undef.
Proof.
  intros L.
  destruct (law_forces_mask shl_undef 32 L ltac:(lia)) as (m32 & H32 & M32).
  destruct (law_forces_mask shl_undef 33 L ltac:(lia)) as (m33 & H33 & M33).
  destruct (L zero_bitmap 32) as (ws' & Hs & _ & Ho).
  { reflexivity. } { unfold BITMAP_BITS, BLOCK_SIZE_IN_BYTES, CHAR_BIT. lia. }
  rewrite set_bit_word0, H32 in Hs by lia. apply Ret_inj in Hs. subst ws'.
  specialize (Ho 33).
  rewrite (get_bit_first_word _ _ (to_word m32) 33 (insert_first _)) in Ho by lia.
  rewrite (get_bit_first_word _ _ 0 33 zero_bitmap_first) in Ho by lia.
  rewrite H33 in Ho. unfold bind in Ho.
  rewrite M32, M33, Z.land_diag, Z.land_0_l in Ho.
  assert (Ret true = Ret false) as [=].
  apply Ho; [unfold BITMAP_BITS, BLOCK_SIZE_IN_BYTES, CHAR_BIT|]; lia.
Qed.

Example set_bit_32_iso_c : set_bit iso_c zero_bitmap 32 = Undef.
Proof. reflexivity. Qed.

Example set_bit_32_mod32 :
  set_bit mod32 zero_bitmap 32 = Ret (<[0%nat := 1]> zero_bitmap)
  /\ get_bit mod32 zero_bitmap 0 = Ret false
  /\ get_bit mod32 (<[0%nat := 1]> zero_bitmap) 0 = Ret true.
Proof. repeat split; vm_compute; reflexivity. Qed.

(** C2.  First fit fails on every implementation, for the same reason.
    With bits 0..31 set the scan must stop on bit 32, so the mask of bit 32
    has none of the bits 0..31, hence is 0; with bits 0..63 set the scan
    then stops on bit 32 again instead of going on to bit 64. *)
Theorem first_fit_law_fails (shl_undef : Z -> option Z) : ~ first_fit_law shl_undef.
Proof.
  intros [L _].
  assert (HA : first_clear_bit shl_undef bitmap_low32 = Ret 32).
  { apply L.
    - reflexivity.
    - unfold BITMAP_BITS, BLOCK_SIZE_IN_BYTES, CHAR_BIT. lia.
    - intros j Hj. rewrite (bit_is_set_first_word _ (Z.ones 32)) by (auto; lia).
      apply Z.ones_spec_low. lia.
    - reflexivity. }
  assert (HB : first_clear_bit shl_undef bitmap_low64 = Ret 64).
  { apply L.
    - reflexivity.
    - unfold BITMAP_BITS, BLOCK_SIZE_IN_BYTES, CHAR_BIT. lia.
    - intros j Hj. rewrite (bit_is_set_first_word _ (Z.ones 64)) by (auto; lia).
      apply Z.ones_spec_low. lia.
    - reflexivity. }
  apply first_clear_bit_found in HA as (_ & HA & _); [|lia].
  apply first_clear_bit_found in HB as (_ & _ & HB); [|lia].
  specialize (HB 32 ltac:(lia)).
  rewrite (get_bit_first_word _ _ (Z.ones 32) 32) in HA by (auto; lia).
  rewrite (get_bit_first_word _ _ (Z.ones 64) 32) in HB by (auto; lia).
  bind_inv HA m Hm. rewrite Hm in HB. unfold bind in HB.
  apply Ret_inj in HA. apply Ret_inj in HB.
  apply negb_false_iff, Z.eqb_eq in HA. apply negb_true_iff, Z.eqb_neq in HB.
  rewrite Z.land_comm, Z.land_ones in HA by lia.
  rewrite Z.land_comm, Z.land_ones in HB by lia.
  pose proof (int_shl1_shape _ _ _ Hm) as Hshape.
  pose proof (Z.div_mod (to_word m) (2 ^ 32) ltac:(lia)).
  pose proof (Z.div_mod (to_word m) (2 ^ 64) ltac:(lia)).
  pose proof (Z.mod_pos_bound (to_word m) (2 ^ 64) ltac:(lia)).
  lia.
Qed.

Example first_clear_bit_low31_iso_c :
  first_clear_bit iso_c (<[0%nat := Z.ones 31]> zero_bitmap) = Undef.
Proof. vm_compute. reflexivity. Qed.

Example first_clear_bit_low32_mod32 :
  first_clear_bit mod32 bitmap_low32 = Ret 64.
Proof. vm_compute. reflexivity. Qed.

(** * Addresses, and the pointers of a scan *)

Lemma inode_slot_addr (k : nat) :
  (k < 80)%nat -> inode_slot (inode_addr k) = Some k.
Proof.
  intros Hk. unfold inode_slot, inode_addr, INODE_TABLE_AT, DATA_REGION_AT,
    INODE_TABLE_IN_BLOCKS, INODE_SIZE_IN_BYTES, BLOCK_SIZE_IN_BYTES.
  replace (3 * 4096 + Z.of_nat k * 256 - 3 * 4096) with (Z.of_nat k * 256) by lia.
  rewrite Z.mod_mul, Z.div_mul by lia.
  destruct (Z.leb_spec (3 * 4096) (3 * 4096 + Z.of_nat k * 256)); [|lia].
  destruct (Z.ltb_spec (3 * 4096 + Z.of_nat k * 256) ((3 + 5) * 4096)); [|lia].
  simpl. rewrite Nat2Z.id. reflexivity.
Qed.

Lemma inode_slot_Some (p : Z) (k : nat) :
  inode_slot p = Some k -> p = inode_addr k /\ (k < 80)%nat.
Proof.
  unfold inode_slot, inode_addr, INODE_TABLE_AT, DATA_REGION_AT,
    INODE_TABLE_IN_BLOCKS, INODE_SIZE_IN_BYTES, BLOCK_SIZE_IN_BYTES.
  destruct (Z.leb_spec (3 * 4096) p); [|discriminate].
  destruct (Z.ltb_spec p ((3 + 5) * 4096)); [|discriminate].
  destruct (Z.eqb_spec ((p - 3 * 4096) mod 256) 0); [|discriminate].
  simpl. intros [= <-].
  pose proof (Z.div_mod (p - 3 * 4096) 256 ltac:(lia)).
  pose proof (Z.div_pos (p - 3 * 4096) 256 ltac:(lia) ltac:(lia)).
  rewrite Z2Nat.id by lia. split; [lia|].
  apply Nat2Z.inj_lt. rewrite Z2Nat.id by lia.
  apply Z.div_lt_upper_bound; lia.
Qed.

Lemma entry_slot_addr (b s : nat) :
  (b < 56)%nat -> (s < 113)%nat -> entry_slot (slot_addr b s) = Some (b, s).
Proof.
  intros Hb Hs. unfold entry_slot, slot_addr, block_addr, DATA_REGION_AT, DISK_END,
    DISK_SIZE_IN_BLOCKS, INODE_TABLE_IN_BLOCKS, ENTRIES_PER_BLOCK, DIRENTRY_SIZE,
    BLOCK_SIZE_IN_BYTES.
  change (4096 / 36) with 113.
  replace ((3 + 5) * 4096 + Z.of_nat b * 4096 + Z.of_nat s * 36 - (3 + 5) * 4096)
    with (Z.of_nat s * 36 + Z.of_nat b * 4096) by lia.
  rewrite Z.mod_add, Z.div_add by lia.
  rewrite (Z.mod_small (Z.of_nat s * 36) 4096), (Z.div_small (Z.of_nat s * 36) 4096) by lia.
  rewrite Z.mod_mul, Z.div_mul by lia.
  destruct (Z.leb_spec ((3 + 5) * 4096)
              ((3 + 5) * 4096 + Z.of_nat b * 4096 + Z.of_nat s * 36)); [|lia].
  destruct (Z.ltb_spec ((3 + 5) * 4096 + Z.of_nat b * 4096 + Z.of_nat s * 36)
              (64 * 4096)); [|lia].
  destruct (Z.ltb_spec (Z.of_nat s) 113); [|lia].
  simpl. rewrite Z.add_0_l, !Nat2Z.id. reflexivity.
Qed.

Lemma entry_slot_Some (p : Z) (b s : nat) :
  entry_slot p = Some (b, s) -> p = slot_addr b s /\ (b < 56)%nat /\ (s < 113)%nat.
Proof.
  unfold entry_slot, slot_addr, block_addr, DATA_REGION_AT, DISK_END,
    DISK_SIZE_IN_BLOCKS, INODE_TABLE_IN_BLOCKS, ENTRIES_PER_BLOCK, DIRENTRY_SIZE,
    BLOCK_SIZE_IN_BYTES.
  change (4096 / 36) with 113.
  destruct (Z.leb_spec ((3 + 5) * 4096) p); [|discriminate].
  destruct (Z.ltb_spec p (64 * 4096)); [|discriminate].
  set (q := p - (3 + 5) * 4096).
  destruct (Z.eqb_spec (q mod 4096 mod 36) 0); [|discriminate].
  destruct (Z.ltb_spec (q mod 4096 / 36) 113); [|discriminate].
  simpl. intros [= <- <-].
  pose proof (Z.div_mod q 4096 ltac:(lia)).
  pose proof (Z.mod_pos_bound q 4096 ltac:(lia)).
  pose proof (Z.div_mod (q mod 4096) 36 ltac:(lia)).
  pose proof (Z.div_pos q 4096 ltac:(lia) ltac:(lia)).
  pose proof (Z.div_pos (q mod 4096) 36 ltac:(lia) ltac:(lia)).
  assert (q / 4096 < 56) by (apply Z.div_lt_upper_bound; lia).
  rewrite !Z2Nat.id by lia. repeat split; lia.
Qed.

(** A scan that starts on slot 0 of a block walks the triangular numbers. *)
Lemma probe_add (entry index : Z) (n : nat) :
  probe entry index n
  = entry + DIRENTRY_SIZE * (Z.of_nat n * index + Z.of_nat n * (Z.of_nat n + 1) / 2).
Proof.
  revert entry index. induction n as [|n IH]; intros entry index.
  - change (probe entry index 0) with entry. change (Z.of_nat 0) with 0.
    rewrite !Z.mul_0_l. change (0 / 2) with 0. lia.
  - change (probe entry index (S n))
      with (probe (entry_at entry (index + 1)) (index + 1) n).
    rewrite IH. unfold entry_at.
    replace (Z.of_nat (S n) * (Z.of_nat (S n) + 1))
      with (Z.of_nat n * (Z.of_nat n + 1) + (Z.of_nat n + 1) * 2) by lia.
    rewrite Z.div_add by lia. lia.
Qed.

Lemma probe_slot_Z (n : nat) :
  Z.of_nat (probe_slot n) = Z.of_nat n * (Z.of_nat n + 1) / 2.
Proof.
  unfold probe_slot. rewrite Nat2Z.inj_div, Nat2Z.inj_mul, Nat2Z.inj_add. reflexivity.
Qed.

Lemma probe_block (b : nat) (n : nat) :
  probe (block_addr b) 0 n = slot_addr b (probe_slot n).
Proof.
  rewrite probe_add. unfold slot_addr. rewrite probe_slot_Z. lia.
Qed.

(** The sixteenth pointer of a scan (slot 120) lies astride two entries of
    the next block. *)
Lemma probe_15_unmapped (b : nat) : entry_slot (probe (block_addr b) 0 15) = None.
Proof.
  rewrite probe_block. unfold entry_slot, slot_addr, block_addr, DATA_REGION_AT, DISK_END,
    DISK_SIZE_IN_BLOCKS, INODE_TABLE_IN_BLOCKS, ENTRIES_PER_BLOCK, DIRENTRY_SIZE,
    BLOCK_SIZE_IN_BYTES.
  change (Z.of_nat (probe_slot 15)) with 120.
  replace ((3 + 5) * 4096 + Z.of_nat b * 4096 + 120 * 36 - (3 + 5) * 4096)
    with (4320 + Z.of_nat b * 4096) by lia.
  rewrite Z.mod_add by lia. change (4320 mod 4096 mod 36 =? 0) with false.
  rewrite andb_false_r. reflexivity.
Qed.

Lemma probe_slot_small (n : nat) : (n <= 14)%nat -> (probe_slot n < 113)%nat.
Proof.
  intros Hn. do 15 (destruct n as [|n]; [vm_compute; lia|]). lia.
Qed.

(** * The two scans of a directory *)

Lemma ascii_eqb_NUL (c : ascii) : Ascii.eqb c NUL = true <-> c = NUL.
Proof. apply Ascii.eqb_eq. Qed.

Lemma c_str_head (c : ascii) (r : list ascii) (t : string) :
  c <> NUL -> c_str (c :: r) = Ret t -> t <> EmptyString.
Proof.
  intros Hc. simpl. destruct (Ascii.eqb_spec c NUL) as [|_]; [contradiction|].
  intros H. bind_inv H s Hs. apply Ret_inj in H. subst t. discriminate.
Qed.

Lemma c_str_nonempty (l : list ascii) (t : string) :
  c_str l = Ret t -> t <> EmptyString -> exists c r, l = c :: r /\ c <> NUL.
Proof.
  destruct l as [|c r]; simpl; [discriminate|].
  destruct (Ascii.eqb_spec c NUL) as [->|Hc].
  - intros H. apply Ret_inj in H. congruence.
  - eauto.
Qed.

Lemma used_not_free (d : disk_image) (p : Z) : used_at d p -> free_at d p -> False.
Proof.
  intros (e & c & r & He & Hn & Hc) (e' & r' & He' & Hn').
  rewrite He in He'. apply Ret_inj in He'. subst e'. congruence.
Qed.

Lemma named_used (d : disk_image) (p : Z) (t : string) : named_at d p t -> used_at d p.
Proof.
  intros (e & He & Ht & Hne). destruct (c_str_nonempty _ _ Ht Hne) as (c & r & Hn & Hc).
  exists e, c, r. auto.
Qed.

(** The first free pointer of a scan is determined by the entries. *)
Lemma first_free_unique (d : disk_image) (entry index : Z) (n n' : nat) :
  (forall i, (i < n)%nat -> used_at d (probe entry index i)) ->
  free_at d (probe entry index n) ->
  (forall i, (i < n')%nat -> used_at d (probe entry index i)) ->
  free_at d (probe entry index n') ->
  n = n'.
Proof.
  intros Hu Hf Hu' Hf'.
  destruct (Nat.lt_trichotomy n n') as [H|[H|H]]; [|exact H|].
  - exfalso. eapply used_not_free; [apply Hu'; exact H|exact Hf].
  - exfalso. eapply used_not_free; [apply Hu; exact H|exact Hf'].
Qed.

Lemma free_entry_scan_Ret (fuel : nat) (d : disk_image) (entry index p : Z) :
  free_entry_scan fuel d entry index = Ret p ->
  exists n, (n < fuel)%nat /\ p = probe entry index n
    /\ (forall i, (i < n)%nat -> used_at d (probe entry index i))
    /\ free_at d p.
Proof.
  revert entry index. induction fuel as [|fuel IH]; intros entry index H; [discriminate|].
  simpl in H. bind_inv H e He.
  destruct (d_name e) as [|c r] eqn:Hn; [discriminate|].
  destruct (Ascii.eqb_spec c NUL) as [->|Hc].
  - apply Ret_inj in H. subst p. exists 0%nat. repeat split; [lia| |].
    + intros i Hi. lia.
    + exists e, r. auto.
  - apply IH in H as (n & Hlt & -> & Hu & Hf).
    exists (S n). repeat split; [lia| |exact Hf].
    intros [|i] Hi; [exists e, c, r; auto|]. apply Hu. lia.
Qed.

Lemma free_entry_scan_complete (fuel : nat) (d : disk_image) (entry index : Z) (n : nat) :
  (n < fuel)%nat ->
  (forall i, (i < n)%nat -> used_at d (probe entry index i)) ->
  free_at d (probe entry index n) ->
  free_entry_scan fuel d entry index = Ret (probe entry index n).
Proof.
  revert entry index n. induction fuel as [|fuel IH]; intros entry index n Hn Hu Hf; [lia|].
  simpl. destruct n as [|n].
  - destruct Hf as (e & r & He & Hr). simpl in He. rewrite He. simpl. rewrite Hr.
    change (Ascii.eqb NUL NUL) with true. reflexivity.
  - destruct (Hu 0%nat ltac:(lia)) as (e & c & r & He & Hr & Hc).
    simpl in He. rewrite He. simpl. rewrite Hr.
    destruct (Ascii.eqb_spec c NUL) as [|_]; [contradiction|].
    rewrite (IH _ _ n); [reflexivity|lia| |exact Hf].
    intros i Hi. apply (Hu (S i)). lia.
Qed.

Lemma directory_inode_scan_None (fuel : nat) (d : disk_image) (entry index : Z)
    (s : string) :
  directory_inode_scan fuel d entry index s = Ret None ->
  exists n, (n < fuel)%nat
    /\ (forall i, (i < n)%nat ->
          exists t, named_at d (probe entry index i) t /\ t <> cstr s)
    /\ free_at d (probe entry index n).
Proof.
  revert entry index. induction fuel as [|fuel IH]; intros entry index H; [discriminate|].
  simpl in H. bind_inv H e He.
  destruct (d_name e) as [|c r] eqn:Hn; [discriminate|].
  destruct (Ascii.eqb_spec c NUL) as [->|Hc].
  - exists 0%nat. repeat split; [lia| |].
    + intros i Hi. lia.
    + exists e, r. auto.
  - bind_inv H t Ht. destruct (String.eqb_spec t (cstr s)) as [->|Hne].
    + bind_inv H q Hq. discriminate.
    + apply IH in H as (n & Hlt & Hu & Hf).
      exists (S n). repeat split; [lia| |exact Hf].
      intros [|i] Hi.
      * exists t. split; [|exact Hne]. exists e. rewrite Hn.
        repeat split; [exact He|exact Ht|]. eapply c_str_head; eauto.
      * apply Hu. lia.
Qed.

Lemma directory_inode_scan_found (fuel : nat) (d : disk_image) (entry index : Z)
    (s : string) (n : nat) (e : direntry) (q : Z) :
  (n < fuel)%nat ->
  (forall i, (i < n)%nat ->
     exists t, named_at d (probe entry index i) t /\ t <> cstr s) ->
  load_entry d (probe entry index n) = Ret e ->
  c_str (d_name e) = Ret (cstr s) ->
  cstr s <> EmptyString ->
  inode_for_index d (d_inum e) = Ret q ->
  directory_inode_scan fuel d entry index s = Ret (Some q).
Proof.
  revert entry index n.
  induction fuel as [|fuel IH]; intros entry index n Hn Hu He Hs Hne Hq; [lia|].
  simpl. destruct n as [|n].
  - simpl in He. rewrite He. simpl.
    destruct (c_str_nonempty _ _ Hs Hne) as (c & r & Hr & Hc). rewrite Hr.
    destruct (Ascii.eqb_spec c NUL) as [|_]; [contradiction|].
    rewrite <- Hr, Hs. simpl. rewrite String.eqb_refl, Hq. reflexivity.
  - destruct (Hu 0%nat ltac:(lia)) as (t & (e0 & He0 & Ht & Htne) & Hts).
    simpl in He0. rewrite He0. simpl.
    destruct (c_str_nonempty _ _ Ht Htne) as (c & r & Hr & Hc). rewrite Hr.
    destruct (Ascii.eqb_spec c NUL) as [|_]; [contradiction|].
    rewrite <- Hr, Ht. simpl.
    destruct (String.eqb_spec t (cstr s)) as [|_]; [contradiction|].
    apply (IH _ _ n); auto; [lia|].
    intros i Hi. apply (Hu (S i)). lia.
Qed.

(** * Reading and writing cells *)

Lemma load_inode_Ret (d : disk_image) (p : Z) (i : inode) :
  load_inode d p = Ret i ->
  exists k, p = inode_addr k /\ (k < 80)%nat /\ dk_inode_table d !! k = Some i.
Proof.
  unfold load_inode. intros H. bind_inv H k Hk.
  apply of_option_Ret in Hk, H. apply inode_slot_Some in Hk as [-> Hk]. eauto.
Qed.

Lemma load_inode_addr (d : disk_image) (k : nat) :
  (k < 80)%nat -> load_inode d (inode_addr k) = of_option (dk_inode_table d !! k).
Proof. intros Hk. unfold load_inode. rewrite inode_slot_addr by exact Hk. reflexivity. Qed.

Lemma store_inode_addr (d : disk_image) (k : nat) (i : inode) :
  (k < 80)%nat ->
  store_inode d (inode_addr k) i
  = Ret (mk_disk (dk_superblock d) (dk_inode_bitmap d) (dk_data_bitmap d)
           (<[k := i]> (dk_inode_table d)) (dk_data_region d)).
Proof. intros Hk. unfold store_inode. rewrite inode_slot_addr by exact Hk. reflexivity. Qed.

Lemma load_entry_Ret (d : disk_image) (p : Z) (e : direntry) :
  load_entry d p = Ret e ->
  exists b s blk, p = slot_addr b s /\ (b < 56)%nat /\ (s < 113)%nat
    /\ dk_data_region d !! b = Some blk /\ blk !! s = Some e.
Proof.
  unfold load_entry. intros H. bind_inv H bs Hbs. bind_inv H blk Hblk.
  apply of_option_Ret in Hbs, Hblk, H. destruct bs as [b s].
  apply entry_slot_Some in Hbs as (-> & Hb & Hs). exists b, s, blk. auto.
Qed.

Lemma load_entry_addr (d : disk_image) (b s : nat) (blk : list direntry) :
  (b < 56)%nat -> (s < 113)%nat -> dk_data_region d !! b = Some blk ->
  load_entry d (slot_addr b s) = of_option (blk !! s).
Proof.
  intros Hb Hs Hblk. unfold load_entry. rewrite entry_slot_addr by assumption.
  simpl. rewrite Hblk. reflexivity.
Qed.

Lemma store_entry_addr (d : disk_image) (b s : nat) (blk : list direntry) (e : direntry) :
  (b < 56)%nat -> (s < 113)%nat -> dk_data_region d !! b = Some blk ->
  store_entry d (slot_addr b s) e
  = Ret (mk_disk (dk_superblock d) (dk_inode_bitmap d) (dk_data_bitmap d)
           (dk_inode_table d) (<[b := <[s := e]> blk]> (dk_data_region d))).
Proof.
  intros Hb Hs Hblk. unfold store_entry. rewrite entry_slot_addr by assumption.
  simpl. rewrite Hblk. reflexivity.
Qed.

Lemma int_val_Ret (v : Z) : INT_MIN <= v <= INT_MAX -> int_val v = Ret v.
Proof.
  intros H. unfold int_val.
  destruct (Z.leb_spec INT_MIN v), (Z.leb_spec v INT_MAX); simpl; try lia. reflexivity.
Qed.

Lemma int_val_inv (v r : Z) : int_val v = Ret r -> r = v.
Proof. unfold int_val. destruct (_ && _); [intros H; apply Ret_inj in H; auto|discriminate]. Qed.

(** [strncpy] keeps a name array in shape. *)
Lemma strncpy_chars_length (s : string) (n : nat) : length (strncpy_chars s n) = n.
Proof.
  revert s. induction n as [|n IH]; intros s; [reflexivity|].
  simpl. destruct s as [|c s]; [|destruct (Ascii.eqb c NUL)]; simpl; rewrite IH; reflexivity.
Qed.

Lemma set_name_ok (e : direntry) (s : string) : name_ok e -> name_ok (set_name e s).
Proof.
  intros [Hl Hz]. unfold name_ok, set_name, strncpy. cbn [d_name].
  change (Z.to_nat MAX_DIRECTORY_NAME_LENGTH) with 30%nat.
  split.
  - rewrite length_app, strncpy_chars_length, length_drop, Hl. reflexivity.
  - rewrite lookup_app_r; rewrite strncpy_chars_length; [|lia].
    rewrite lookup_drop. exact Hz.
Qed.

Lemma zero_direntry_ok : name_ok zero_direntry.
Proof. split; reflexivity. Qed.

Lemma slot_addr_inj (b s b' s' : nat) :
  (s < 113)%nat -> (s' < 113)%nat -> slot_addr b s = slot_addr b' s' -> b = b' /\ s = s'.
Proof.
  unfold slot_addr, block_addr, DATA_REGION_AT, INODE_TABLE_IN_BLOCKS, DIRENTRY_SIZE,
    BLOCK_SIZE_IN_BYTES. lia.
Qed.

Lemma inode_addr_Z (a : nat) (inum : Z) :
  INODE_TABLE_AT + inum * INODE_SIZE_IN_BYTES = inode_addr a -> inum = Z.of_nat a.
Proof. unfold inode_addr, INODE_SIZE_IN_BYTES. lia. Qed.

Lemma block_addr_slot (a : nat) : block_addr a = slot_addr a 0.
Proof. unfold slot_addr. lia. Qed.

Lemma load_entry_region (d d' : disk_image) (p : Z) :
  dk_data_region d = dk_data_region d' -> load_entry d p = load_entry d' p.
Proof. intros E. unfold load_entry. rewrite E. reflexivity. Qed.

Lemma used_at_region (d d' : disk_image) (p : Z) :
  dk_data_region d = dk_data_region d' -> used_at d p -> used_at d' p.
Proof.
  intros E (e & c & r & H). exists e, c, r. rewrite <- (load_entry_region d d' p E). exact H.
Qed.

Lemma free_at_region (d d' : disk_image) (p : Z) :
  dk_data_region d = dk_data_region d' -> free_at d p -> free_at d' p.
Proof.
  intros E (e & r & H). exists e, r. rewrite <- (load_entry_region d d' p E). exact H.
Qed.

Lemma used_at_mapped (d : disk_image) (p : Z) : used_at d p -> entry_slot p <> None.
Proof.
  intros (e & c & r & H & _). apply load_entry_Ret in H as (b & s & blk & -> & Hb & Hs & _).
  rewrite entry_slot_addr by assumption. discriminate.
Qed.

Lemma first_block_zero : first_block zero_inode = Ret None.
Proof. reflexivity. Qed.

(** Reading an entry and writing it back changed: one step of the code's
    [entry->field = ...]. *)
Lemma update_entry (d : disk_image) (b s : nat) (blk : list direntry) (e : direntry)
    (f : direntry -> direntry) :
  (b < 56)%nat -> (s < 113)%nat ->
  dk_data_region d !! b = Some blk -> blk !! s = Some e ->
  bind (load_entry d (slot_addr b s)) (fun e => store_entry d (slot_addr b s) (f e))
  = Ret (with_region d (<[b := <[s := f e]> blk]> (dk_data_region d))).
Proof.
  intros Hb Hs Hblk He.
  rewrite (load_entry_addr d b s blk), He by assumption. cbn [of_option bind].
  rewrite (store_entry_addr d b s blk) by assumption. reflexivity.
Qed.

Lemma bind_assoc {A B C : Type} (m : result A) (f : A -> result B) (g : B -> result C) :
  bind (bind m f) g = bind m (fun a => bind (f a) g).
Proof. destruct m; reflexivity. Qed.

Lemma init_block_spec (d : disk_image) (a : nat) (blk : list direntry) (e0 e1 : direntry) :
  (a < 56)%nat -> dk_data_region d !! a = Some blk ->
  blk !! 0%nat = Some e0 -> blk !! 1%nat = Some e1 ->
  init_direntry_datablock_with_default_directories d (block_addr a)
  = Ret (with_region d
           (<[a := <[1%nat := set_name (set_inum e1 0) ".."]>
                     (<[0%nat := set_name (set_inum e0 0) "."]> blk)]>
              (dk_data_region d))).
Proof.
  intros Ha Hblk H0 H1. rewrite block_addr_slot.
  unfold init_direntry_datablock_with_default_directories.
  assert (Hla : (a < length (dk_data_region d))%nat) by (eapply lookup_lt_Some; eauto).
  assert (Hl0 : (0 < length blk)%nat) by (eapply lookup_lt_Some; eauto).
  assert (Hl1 : (1 < length blk)%nat) by (eapply lookup_lt_Some; eauto).
  replace (entry_at (slot_addr a 0) 1) with (slot_addr a 1)
    by (unfold entry_at, slot_addr; lia).
  rewrite (load_entry_addr d a 0 blk), H0 by (auto; lia). cbn [of_option bind].
  rewrite (store_entry_addr d a 0 blk) by (auto; lia). cbn [bind].
  rewrite (load_entry_addr _ a 0 (<[0%nat := set_inum e0 0]> blk))
    by (auto; try lia; cbn [dk_data_region]; apply list_lookup_insert_eq; exact Hla).
  rewrite list_lookup_insert_eq by exact Hl0. cbn [of_option bind].
  rewrite (store_entry_addr _ a 0 (<[0%nat := set_inum e0 0]> blk))
    by (auto; try lia; cbn [dk_data_region]; apply list_lookup_insert_eq; exact Hla).
  cbn [bind dk_superblock dk_inode_bitmap dk_data_bitmap dk_inode_table dk_data_region].
  rewrite !list_insert_insert_eq.
  set (blk1 := <[0%nat := set_name (set_inum e0 0) "."]> blk).
  assert (Hb1 : blk1 !! 1%nat = Some e1)
    by (unfold blk1; rewrite list_lookup_insert_ne by lia; exact H1).
  assert (Hl1' : (1 < length blk1)%nat) by (unfold blk1; rewrite length_insert; exact Hl1).
  rewrite (load_entry_addr _ a 1 blk1), Hb1
    by (auto; try lia; cbn [dk_data_region]; apply list_lookup_insert_eq; exact Hla).
  cbn [of_option bind].
  rewrite (store_entry_addr _ a 1 blk1)
    by (auto; try lia; cbn [dk_data_region]; apply list_lookup_insert_eq; exact Hla).
  cbn [bind dk_superblock dk_inode_bitmap dk_data_bitmap dk_inode_table dk_data_region].
  rewrite !list_insert_insert_eq.
  rewrite (load_entry_addr _ a 1 (<[1%nat := set_inum e1 0]> blk1))
    by (auto; try lia; cbn [dk_data_region]; apply list_lookup_insert_eq; exact Hla).
  rewrite list_lookup_insert_eq by exact Hl1'. cbn [of_option bind].
  rewrite (store_entry_addr _ a 1 (<[1%nat := set_inum e1 0]> blk1))
    by (auto; try lia; cbn [dk_data_region]; apply list_lookup_insert_eq; exact Hla).
  cbn [bind dk_superblock dk_inode_bitmap dk_data_bitmap dk_inode_table dk_data_region].
  rewrite !list_insert_insert_eq. reflexivity.
Qed.

(** A scan that finds a free entry has taken at most 14 steps. *)
Lemma probes_bounded (d : disk_image) (kp n : nat) :
  (forall i, (i < n)%nat -> used_at d (probe (block_addr kp) 0 i)) ->
  free_at d (probe (block_addr kp) 0 n) ->
  (n <= 14)%nat.
Proof.
  intros Hused' Hfree'.
  destruct (le_lt_dec n 14) as [|Hgt]; [assumption|exfalso].
  assert (Hm : exists e, load_entry d (probe (block_addr kp) 0 15%nat) = Ret e).
  { destruct (Nat.eq_dec n 15%nat) as [->|].
    - destruct Hfree' as (e & _ & He & _). eauto.
    - destruct (Hused' 15%nat ltac:(lia)) as (e & _ & _ & He & _). eauto. }
  destruct Hm as (e & He).
  apply load_entry_Ret in He as (b & s & blk & E & Hb & Hs & _).
  pose proof (probe_15_unmapped kp) as U. rewrite E in U.
  rewrite entry_slot_addr in U by assumption. discriminate.
Qed.

(** * What a returning [create_inode] has done *)

Section Create.
Variable shl_undef : Z -> option Z.
Hypothesis shl_nz : shifts_never_zero shl_undef.

Lemma int_shl1_nonzero (k m : Z) : int_shl1 shl_undef k = Ret m -> to_word m <> 0.
Proof.
  unfold int_shl1. destruct ((0 <=? k) && (k <? 31)) eqn:E.
  - apply andb_true_iff in E as [E1 E2]. apply Z.leb_le in E1. apply Z.ltb_lt in E2.
    intros H. apply Ret_inj in H. subst m. rewrite to_word_pow2 by lia.
    pose proof (Z.pow_pos_nonneg 2 k). lia.
  - intros H. bind_inv H v Hv. apply of_option_Ret in Hv. apply Ret_inj in H. subst m.
    eapply shl_nz. exact Hv.
Qed.

(** On such an implementation a bit reads as set once it has been set. *)
Lemma set_bit_get (ws ws' : list Z) (n : Z) :
  set_bit shl_undef ws n = Ret ws' -> get_bit shl_undef ws' n = Ret true.
Proof.
  unfold set_bit, get_bit. intros Hs.
  bind_inv Hs w Hw. bind_inv Hs m Hm. apply Ret_inj in Hs. subst ws'.
  rewrite (word_at_insert_eq _ _ _ _ Hw). simpl. rewrite Hm. simpl. f_equal.
  apply negb_true_iff, Z.eqb_neq.
  rewrite Z.land_lor_distr_l, Z.land_diag. intros H0.
  apply Z.lor_eq_0_iff in H0 as [_ H0]. eapply int_shl1_nonzero; eauto.
Qed.

Lemma first_clear_bit_in_inode (d : disk_image) :
  first_clear_bit_in shl_undef d INODE_BITMAP_AT
  = first_clear_bit shl_undef (dk_inode_bitmap d).
Proof. reflexivity. Qed.

Lemma first_clear_bit_in_data (d : disk_image) :
  first_clear_bit_in shl_undef d DATA_BITMAP_AT
  = first_clear_bit shl_undef (dk_data_bitmap d).
Proof. reflexivity. Qed.

Lemma set_bit_in_inode (d : disk_image) (n : Z) :
  set_bit_in shl_undef d INODE_BITMAP_AT n
  = bind (set_bit shl_undef (dk_inode_bitmap d) n)
      (fun ws => Ret (mk_disk (dk_superblock d) ws (dk_data_bitmap d)
                        (dk_inode_table d) (dk_data_region d))).
Proof. reflexivity. Qed.

Lemma set_bit_in_data (d : disk_image) (n : Z) :
  set_bit_in shl_undef d DATA_BITMAP_AT n
  = bind (set_bit shl_undef (dk_data_bitmap d) n)
      (fun ws => Ret (mk_disk (dk_superblock d) (dk_inode_bitmap d) ws
                        (dk_inode_table d) (dk_data_region d))).
Proof. reflexivity. Qed.

Lemma inode_bitmap_std (d : disk_image) :
  dk_superblock d = std_superblock -> inode_bitmap d = Ret INODE_BITMAP_AT.
Proof. intros E. unfold inode_bitmap. rewrite E. reflexivity. Qed.

Lemma data_bitmap_std (d : disk_image) :
  dk_superblock d = std_superblock -> data_bitmap d = Ret DATA_BITMAP_AT.
Proof. intros E. unfold data_bitmap. rewrite E. reflexivity. Qed.

Lemma inode_for_index_std (d : disk_image) (k : nat) :
  dk_superblock d = std_superblock -> (k < 80)%nat ->
  inode_for_index d (Z.of_nat k) = Ret (inode_addr k).
Proof.
  intros E Hk. unfold inode_for_index. rewrite E.
  change (int_val (sb_inode_table_start std_superblock * BLOCK_SIZE_IN_BYTES))
    with (Ret INODE_TABLE_AT). cbn [bind].
  rewrite int_val_Ret; [reflexivity|].
  unfold INT_MIN, INT_MAX, INODE_SIZE_IN_BYTES. lia.
Qed.

Lemma inode_for_index_inv (d : disk_image) (index p : Z) :
  dk_superblock d = std_superblock ->
  inode_for_index d index = Ret p -> p = INODE_TABLE_AT + index * INODE_SIZE_IN_BYTES.
Proof.
  intros E. unfold inode_for_index. rewrite E.
  change (int_val (sb_inode_table_start std_superblock * BLOCK_SIZE_IN_BYTES))
    with (Ret INODE_TABLE_AT). cbn [bind].
  intros H. bind_inv H b Hb. apply int_val_inv in Hb. apply Ret_inj in H. lia.
Qed.

Lemma data_block_for_index_inv (d : disk_image) (index p : Z) :
  dk_superblock d = std_superblock ->
  data_block_for_index d index = Ret p ->
  p = DATA_REGION_AT + index * BLOCK_SIZE_IN_BYTES.
Proof.
  intros E. unfold data_block_for_index. rewrite E.
  intros H. bind_inv H b Hb. apply int_val_inv in Hb, H. subst.
  unfold DATA_REGION_AT, std_superblock. cbn [sb_data_region_start]. lia.
Qed.

Local Opaque first_clear_bit set_bit get_bit free_entry_scan directory_inode_scan.

Lemma create_inode_spec (d : disk_image) (parent : Z) (name : string) (ty : Z)
    (d' : disk_image) :
  Inv shl_undef d ->
  create_inode shl_undef d parent name ty = Ret d' ->
  exists kp a n blkp e imap',
    creation shl_undef d parent name ty d' kp a n blkp e imap'.
Proof.
  intros I H. unfold create_inode in H.
  bind_inv H pi Hpi.
  destruct (Z.eqb_spec (i_type pi) inode_type_directory) as [Hdir|]; [|discriminate].
  cbn [negb] in H.
  apply load_inode_Ret in Hpi as (kp & -> & Hkp & Hpi).
  pose proof (inv_sb _ _ I) as Esb. pose proof (inv_maps _ _ I) as Emaps.
  rewrite (inode_bitmap_std _ Esb) in H. cbn [bind] in H.
  rewrite first_clear_bit_in_inode in H. bind_inv H inum Hinum.
  rewrite set_bit_in_inode in H. bind_inv H d1 Hd1. bind_inv Hd1 imap' Himap.
  apply Ret_inj in Hd1. subst d1.
  rewrite data_bitmap_std in H by exact Esb. cbn [bind] in H.
  rewrite first_clear_bit_in_data in H. cbn [dk_data_bitmap] in H.
  rewrite Emaps, Hinum in H. cbn [bind] in H.
  rewrite set_bit_in_data in H. cbn [dk_data_bitmap dk_superblock dk_inode_bitmap
    dk_inode_table dk_data_region] in H.
  rewrite Himap in H. cbn [bind] in H.
  bind_inv H data_block Hdb. apply data_block_for_index_inv in Hdb; [|exact Esb].
  bind_inv H ino Hino. apply inode_for_index_inv in Hino; [|exact Esb].
  bind_inv H i Hi. apply load_inode_Ret in Hi as (a & Ea & Ha & Hi).
  cbn [dk_inode_table] in Hi.
  subst ino. apply inode_addr_Z in Ea. subst inum data_block.
  pose proof Hinum as Hfound.
  apply first_clear_bit_found in Hfound as (_ & Hclr & _); [|lia].
  (* the allocated inode is untouched, the parent is allocated *)
  destruct (inv_inodes _ _ I a i Hi) as [[-> Hblka]|[Hbit _]]; [|congruence].
  destruct (inv_inodes _ _ I kp pi Hpi) as [[-> _]|[Hpbit Hpblk]]; [discriminate|].
  assert (Hne : kp <> a) by (intros ->; congruence).
  pose proof (inv_itable _ _ I) as Hlen. pose proof (inv_region _ _ I) as Hrlen.
  (* the new inode *)
  replace (INODE_TABLE_AT + Z.of_nat a * INODE_SIZE_IN_BYTES) with (inode_addr a) in H
    by reflexivity.
  rewrite store_inode_addr in H by exact Ha. cbn [bind] in H.
  rewrite load_inode_addr in H by exact Ha. cbn [dk_inode_table] in H.
  rewrite list_lookup_insert_eq in H by lia. cbn [of_option bind] in H.
  rewrite store_inode_addr in H by exact Ha. cbn [bind] in H.
  cbn [dk_superblock dk_inode_bitmap dk_data_bitmap dk_inode_table dk_data_region] in H.
  rewrite list_insert_insert_eq in H.
  (* the parent's block *)
  rewrite load_inode_addr in H by exact Hkp. cbn [dk_inode_table] in H.
  rewrite list_lookup_insert_ne, Hpi in H by auto. cbn [of_option bind] in H.
  rewrite Hpblk in H. cbn [of_option bind] in H.
  bind_inv H entry Hscan.
  apply free_entry_scan_Ret in Hscan as (n & _ & -> & Hused & Hfree).
  assert (Hused' : forall i, (i < n)%nat -> used_at d (probe (block_addr kp) 0 i)).
  { intros i Hi'. eapply used_at_region; [|apply Hused; exact Hi']. reflexivity. }
  assert (Hfree' : free_at d (probe (block_addr kp) 0 n)).
  { eapply free_at_region; [|exact Hfree]. reflexivity. }
  clear Hused Hfree.
  pose proof (probes_bounded d kp n Hused' Hfree') as Hn.
  pose proof (probe_slot_small n Hn) as Hs.
  rewrite probe_block in H.
  pose proof Hfree' as (e & r & He & Hr). rewrite probe_block in He.
  apply load_entry_Ret in He as (b & s' & blkp & Eaddr & Hb & Hs' & Hblkp & He).
  apply slot_addr_inj in Eaddr as [<- <-]; [|assumption..].
  assert (Hlp : (probe_slot n < length blkp)%nat) by (eapply lookup_lt_Some; eauto).
  (* the entry *)
  rewrite (load_entry_addr _ kp (probe_slot n) blkp), He in H by assumption.
  cbn [of_option bind] in H.
  rewrite (store_entry_addr _ kp (probe_slot n) blkp) in H by assumption.
  cbn [bind dk_superblock dk_inode_bitmap dk_data_bitmap dk_inode_table dk_data_region] in H.
  rewrite (load_entry_addr _ kp (probe_slot n) (<[probe_slot n := set_name e name]> blkp)) in H
    by (auto; cbn [dk_data_region]; apply list_lookup_insert_eq; lia).
  rewrite list_lookup_insert_eq in H by exact Hlp. cbn [of_option bind] in H.
  rewrite (store_entry_addr _ kp (probe_slot n) (<[probe_slot n := set_name e name]> blkp)) in H
    by (auto; cbn [dk_data_region]; apply list_lookup_insert_eq; lia).
  cbn [bind dk_superblock dk_inode_bitmap dk_data_bitmap dk_inode_table dk_data_region] in H.
  rewrite !list_insert_insert_eq in H.
  exists kp, a, n, blkp, e, imap'.
  destruct (Z.eqb_spec ty inode_type_directory) as [Hty|Hty].
  - change (DATA_REGION_AT + Z.of_nat a * BLOCK_SIZE_IN_BYTES) with (block_addr a) in H.
    assert (Ha56 : (a < 56)%nat).
    { unfold init_direntry_datablock_with_default_directories in H.
      bind_inv H e0 He0. apply load_entry_Ret in He0 as (b & s' & _ & Eaddr & Hb' & Hs0 & _).
      rewrite block_addr_slot in Eaddr.
      apply slot_addr_inj in Eaddr as [<- _]; [assumption|lia|assumption]. }
    destruct (lookup_lt_is_Some_2 (dk_data_region d) a ltac:(lia)) as [blka Hblka'].
    pose proof (Hblka _ Hblka') as ->.
    rewrite (init_block_spec _ a zero_block zero_direntry zero_direntry) in H;
      [|assumption|cbn [dk_data_region]; rewrite list_lookup_insert_ne by auto;
        exact Hblka'|reflexivity..].
    apply Ret_inj in H. subst d'.
    refine (mk_creation _ _ _ _ _ _ _ _ _ _ _ _ eq_refl Hb Ha (fun _ => Ha56) Hne Hinum
              Hclr Himap Hi Hblka (ex_intro _ pi (conj Hpi Hdir)) Hpbit Hblkp Hn He
              Hused' Hfree' _).
    unfold created, with_region, new_entry, dot_block.
    destruct (Z.eqb_spec ty inode_type_directory); [|contradiction].
    reflexivity.
  - apply Ret_inj in H. subst d'.
    refine (mk_creation _ _ _ _ _ _ _ _ _ _ _ _ eq_refl Hb Ha
              (fun E => False_ind _ (Hty E)) Hne Hinum
              Hclr Himap Hi Hblka (ex_intro _ pi (conj Hpi Hdir)) Hpbit Hblkp Hn He
              Hused' Hfree' _).
    unfold created, with_region, new_entry.
    destruct (Z.eqb_spec ty inode_type_directory); [contradiction|].
    reflexivity.
Qed.
Lemma fs_create_disk_root : fs_create_disk shl_undef = Ret root_disk.
Proof. vm_compute. reflexivity. Qed.

Lemma created_region_other (d : disk_image) (kp a n : nat) (blkp : list direntry)
    (e : direntry) (name : string) (ty : Z) (imap' : list Z) (b : nat) :
  b <> kp -> b <> a ->
  dk_data_region (created d kp a n blkp e name ty imap') !! b = dk_data_region d !! b.
Proof.
  intros H1 H2. unfold created. cbn [dk_data_region].
  destruct (ty =? inode_type_directory);
    rewrite ?(list_lookup_insert_ne _ a b) by auto;
    rewrite list_lookup_insert_ne by auto; reflexivity.
Qed.

Lemma created_region_parent (d : disk_image) (kp a n : nat) (blkp : list direntry)
    (e : direntry) (name : string) (ty : Z) (imap' : list Z) :
  kp <> a -> (kp < length (dk_data_region d))%nat ->
  dk_data_region (created d kp a n blkp e name ty imap') !! kp
  = Some (<[probe_slot n := new_entry e name (Z.of_nat a)]> blkp).
Proof.
  intros H1 H2. unfold created. cbn [dk_data_region].
  destruct (ty =? inode_type_directory);
    rewrite ?(list_lookup_insert_ne _ a kp) by auto;
    rewrite list_lookup_insert_eq by auto; reflexivity.
Qed.

Lemma created_region_new (d : disk_image) (kp a n : nat) (blkp : list direntry)
    (e : direntry) (name : string) (ty : Z) (imap' : list Z) :
  kp <> a -> (a < length (dk_data_region d))%nat ->
  dk_data_region (created d kp a n blkp e name ty imap') !! a
  = if ty =? inode_type_directory then Some (dot_block zero_block)
    else dk_data_region d !! a.
Proof.
  intros H1 H2. unfold created. cbn [dk_data_region].
  destruct (ty =? inode_type_directory).
  - rewrite list_lookup_insert_eq; [reflexivity|]. rewrite length_insert. exact H2.
  - rewrite list_lookup_insert_ne by auto. reflexivity.
Qed.

End Create.

(** * The invariant of the reachable states *)

Lemma dot_block_length (blk : list direntry) : length (dot_block blk) = length blk.
Proof. unfold dot_block. rewrite !length_insert. reflexivity. Qed.

Lemma zero_block_length : length zero_block = 113%nat.
Proof. reflexivity. Qed.

Lemma zero_block_lookup (s : nat) (e : direntry) :
  zero_block !! s = Some e -> e = zero_direntry.
Proof. unfold zero_block. intros H. apply lookup_replicate in H as [-> _]. reflexivity. Qed.

Lemma new_entry_ok (e : direntry) (name : string) (inum : Z) :
  name_ok e -> name_ok (new_entry e name inum).
Proof. intros H. unfold new_entry, set_inum, name_ok. cbn [d_name]. apply set_name_ok, H. Qed.

Lemma dot_block_names (blk : list direntry) (s : nat) (e : direntry) :
  (forall s e, blk !! s = Some e -> name_ok e) ->
  dot_block blk !! s = Some e -> name_ok e.
Proof.
  intros Hblk. unfold dot_block. intros H.
  apply list_lookup_insert_Some in H as [(_ & <- & _)|[_ H]].
  { apply set_name_ok. exact zero_direntry_ok. }
  apply list_lookup_insert_Some in H as [(_ & <- & _)|[_ H]].
  { apply set_name_ok. exact zero_direntry_ok. }
  eapply Hblk. exact H.
Qed.

Section Preservation.
Variable shl_undef : Z -> option Z.
Hypothesis shl_nz : shifts_never_zero shl_undef.

Local Opaque get_bit set_bit first_clear_bit.

Lemma creation_Inv (d : disk_image) (parent : Z) (name : string) (ty : Z)
    (d' : disk_image) (kp a n : nat) (blkp : list direntry) (e : direntry)
    (imap' : list Z) :
  Inv shl_undef d ->
  creation shl_undef d parent name ty d' kp a n blkp e imap' ->
  Inv shl_undef d'.
Proof.
  intros I C. pose proof (cr_state _ _ _ _ _ _ _ _ _ _ _ _ C) as ->.
  pose proof (inv_region _ _ I) as Hrlen.
  pose proof (cr_kp _ _ _ _ _ _ _ _ _ _ _ _ C) as Hkp.
  pose proof (cr_ne _ _ _ _ _ _ _ _ _ _ _ _ C) as Hne.
  pose proof (cr_pblock _ _ _ _ _ _ _ _ _ _ _ _ C) as Hblkp.
  pose proof (cr_a _ _ _ _ _ _ _ _ _ _ _ _ C) as Ha.
  assert (Hnew : forall b blk,
    dk_data_region (created d kp a n blkp e name ty imap') !! b = Some blk ->
    (b = kp /\ blk = <[probe_slot n := new_entry e name (Z.of_nat a)]> blkp)
    \/ (b = a /\ blk = dot_block zero_block /\ ty = inode_type_directory)
    \/ (b <> kp /\ dk_data_region d !! b = Some blk)).
  { intros b blk Hb. destruct (Nat.eq_dec b kp) as [->|Hbk].
    - rewrite created_region_parent in Hb by (auto; lia). left. split; congruence.
    - right. destruct (Nat.eq_dec b a) as [->|Hba].
      + assert (Hal : (a < length (dk_data_region d))%nat).
        { apply lookup_lt_Some in Hb. unfold created in Hb. cbn [dk_data_region] in Hb.
          destruct (ty =? inode_type_directory); rewrite ?length_insert in Hb; exact Hb. }
        rewrite created_region_new in Hb by auto.
        destruct (Z.eqb_spec ty inode_type_directory).
        * left. repeat split; congruence.
        * right. auto.
      + right. rewrite created_region_other in Hb by auto. auto. }
  constructor.
  - exact (inv_sb _ _ I).
  - reflexivity.
  - unfold created. cbn [dk_inode_table]. rewrite length_insert. exact (inv_itable _ _ I).
  - unfold created. cbn [dk_data_region].
    destruct (ty =? inode_type_directory); rewrite !length_insert; exact Hrlen.
  - intros b blk Hb. destruct (Hnew b blk Hb) as [[-> ->]|[(-> & -> & _)|[_ Hold]]].
    + rewrite length_insert. eapply inv_blocks; eauto.
    + rewrite dot_block_length. reflexivity.
    + eapply inv_blocks; eauto.
  - intros b blk s e' Hb He'. destruct (Hnew b blk Hb) as [[-> ->]|[(-> & -> & _)|[_ Hold]]].
    + apply list_lookup_insert_Some in He' as [(_ & <- & _)|[_ He']].
      * apply new_entry_ok. eapply inv_names; eauto. exact (cr_entry _ _ _ _ _ _ _ _ _ _ _ _ C).
      * eapply inv_names; eauto.
    + eapply dot_block_names; [|exact He'].
      intros s0 e0 H0. apply zero_block_lookup in H0 as ->. exact zero_direntry_ok.
    + eapply inv_names; eauto.
  - intros k i Hi. unfold created in Hi. cbn [dk_inode_table] in Hi.
    apply list_lookup_insert_Some in Hi as [(-> & <- & _)|[Hka Hi]].
    + right. split.
      * unfold created. cbn [dk_inode_bitmap].
        eapply set_bit_get; [exact shl_nz|]. exact (cr_set _ _ _ _ _ _ _ _ _ _ _ _ C).
      * reflexivity.
    + destruct (inv_inodes _ _ I k i Hi) as [[-> Hz]|[Hbit Hblk]].
      * left. split; [reflexivity|]. intros blk Hb.
        destruct (cr_pinode _ _ _ _ _ _ _ _ _ _ _ _ C) as (pi & Hpi & Hty).
        assert (k <> kp).
        { intros ->. rewrite Hpi in Hi. injection Hi as ->. discriminate. }
        rewrite created_region_other in Hb by auto. auto.
      * right. split; [|exact Hblk]. unfold created. cbn [dk_inode_bitmap].
        eapply set_bit_keeps; [|exact Hbit]. exact (cr_set _ _ _ _ _ _ _ _ _ _ _ _ C).
Qed.

Lemma create_inode_Inv (d : disk_image) (parent : Z) (name : string) (ty : Z)
    (d' : disk_image) :
  Inv shl_undef d -> create_inode shl_undef d parent name ty = Ret d' -> Inv shl_undef d'.
Proof.
  intros I H.
  destruct (create_inode_spec shl_undef d parent name ty d' I H)
    as (kp & a & n & blkp & e & imap' & C).
  eapply creation_Inv; eauto.
Qed.

Lemma create_path_cases (d : disk_image) (path : string) (ty : Z) (d' : disk_image) :
  create_path shl_undef d path ty = Ret d' ->
  d' = d \/ exists parent name, create_inode shl_undef d parent name ty = Ret d'.
Proof.
  unfold create_path. destruct (cstr path) as [|c path']; [left; congruence|].
  destruct (Ascii.eqb c "/"); [|left; congruence].
  intros H. bind_inv H parent Hp. destruct parent as [ino|]; [|left; congruence].
  right. eauto.
Qed.

Lemma root_disk_Inv : Inv shl_undef root_disk.
Proof.
  constructor.
  - reflexivity.
  - reflexivity.
  - reflexivity.
  - reflexivity.
  - intros b blk Hb. unfold root_disk in Hb. cbn [dk_data_region] in Hb.
    apply list_lookup_insert_Some in Hb as [(_ & <- & _)|[_ Hb]].
    + rewrite dot_block_length. reflexivity.
    + apply lookup_replicate in Hb as [-> _]. reflexivity.
  - intros b blk s e Hb He. unfold root_disk in Hb. cbn [dk_data_region] in Hb.
    assert (Hz : forall s0 e0, zero_block !! s0 = Some e0 -> name_ok e0).
    { intros s0 e0 H0. apply zero_block_lookup in H0 as ->. exact zero_direntry_ok. }
    apply list_lookup_insert_Some in Hb as [(_ & <- & _)|[_ Hb]].
    + eapply dot_block_names; eauto.
    + apply lookup_replicate in Hb as [-> _]. eauto.
  - intros k i Hi. unfold root_disk in Hi. cbn [dk_inode_table] in Hi.
    apply list_lookup_insert_Some in Hi as [(<- & <- & _)|[Hk Hi]].
    + right. split; [|reflexivity]. unfold root_disk. cbn [dk_inode_bitmap].
      vm_compute. reflexivity.
    + left. apply lookup_replicate in Hi as [-> Hlt]. split; [reflexivity|].
      intros blk Hb. unfold root_disk in Hb. cbn [dk_data_region] in Hb.
      rewrite list_lookup_insert_ne in Hb by auto.
      apply lookup_replicate in Hb as [-> _]. reflexivity.
Qed.

Lemma reachable_Inv (d : disk_image) : reachable shl_undef d -> Inv shl_undef d.
Proof.
  induction 1 as [d H|d parent name ty d' _ IH H].
  - rewrite fs_create_disk_root in H. apply Ret_inj in H. subst d. exact root_disk_Inv.
  - eapply create_inode_Inv; eauto.
Qed.

(** The calls of the interface stay among the reachable states. *)
Lemma reachable_path (d : disk_image) (path : string) (ty : Z) (d' : disk_image) :
  reachable shl_undef d -> create_path shl_undef d path ty = Ret d' ->
  reachable shl_undef d'.
Proof.
  intros R H. apply create_path_cases in H as [->|(parent & name & H)]; [exact R|].
  eapply reachable_create; eauto.
Qed.

Lemma reachable_file (d : disk_image) (path : string) (d' : disk_image) :
  reachable shl_undef d -> create_file shl_undef d path = Ret d' ->
  reachable shl_undef d'.
Proof. apply reachable_path. Qed.

Lemma reachable_dir (d : disk_image) (path : string) (d' : disk_image) :
  reachable shl_undef d -> create_dir shl_undef d path = Ret d' ->
  reachable shl_undef d'.
Proof. apply reachable_path. Qed.

End Preservation.

(** * Allocation *)

Section Runs.
Variable shl_undef : Z -> option Z.
Hypothesis shl_nz : shifts_never_zero shl_undef.

Local Opaque get_bit set_bit first_clear_bit create_inode.

Lemma create_path_target (d : disk_image) (path : string) (ty : Z) :
  create_path shl_undef d path ty
  = bind (create_target d path) (fun t =>
      match t with
      | None => Ret d
      | Some (ino, name) => create_inode shl_undef d ino name ty
      end).
Proof.
  unfold create_path, create_target.
  destruct (cstr path) as [|c path']; [reflexivity|].
  destruct (Ascii.eqb c "/"); [|reflexivity].
  destruct (walk_parent d (path_components path' [])) as [[ino|]| | |]; reflexivity.
Qed.

Lemma exec_create_path (d : disk_image) (c : call) :
  exists ty, exec shl_undef d c = create_path shl_undef d (call_path c) ty.
Proof. destruct c; [exists inode_type_file|exists inode_type_directory]; reflexivity. Qed.

(** The two indices a returning [create_inode] takes are those of one and
    the same first clear bit. *)
Lemma creation_allocation (d : disk_image) (parent : Z) (name : string) (ty : Z)
    (d' : disk_image) (kp a n : nat) (blkp : list direntry) (e : direntry)
    (imap' : list Z) :
  Inv shl_undef d ->
  creation shl_undef d parent name ty d' kp a n blkp e imap' ->
  next_allocation shl_undef d = Ret (Z.of_nat a, Z.of_nat a).
Proof.
  intros I C. unfold next_allocation.
  rewrite (inode_bitmap_std _ (inv_sb _ _ I)). cbn [bind].
  rewrite first_clear_bit_in_inode, (cr_first _ _ _ _ _ _ _ _ _ _ _ _ C). cbn [bind].
  rewrite set_bit_in_inode, (cr_set _ _ _ _ _ _ _ _ _ _ _ _ C). cbn [bind].
  rewrite data_bitmap_std by exact (inv_sb _ _ I). cbn [bind].
  rewrite first_clear_bit_in_data. cbn [dk_data_bitmap].
  rewrite (inv_maps _ _ I), (cr_first _ _ _ _ _ _ _ _ _ _ _ _ C). reflexivity.
Qed.

Lemma run_fresh (d : disk_image) (cs : list call) (l : list (Z * Z)) (d' : disk_image) :
  run shl_undef d cs l d' ->
  Inv shl_undef d ->
  NoDup l.*1 /\ NoDup l.*2
  /\ forall x, get_bit shl_undef (dk_inode_bitmap d) x = Ret true ->
               (x ∉ l.*1) /\ (x ∉ l.*2).
Proof.
  induction 1 as [d|d c d1 cs l d2 Ht He _ IH|d c t al d1 cs l d2 Ht Hal He _ IH];
    intros I.
  - repeat split; try constructor; intros Hx; inversion Hx.
  - destruct (exec_create_path d c) as (ty & E). rewrite E, create_path_target, Ht in He.
    cbn [bind] in He. apply Ret_inj in He. subst d1. exact (IH I).
  - destruct (exec_create_path d c) as (ty & E). rewrite E, create_path_target, Ht in He.
    cbn [bind] in He. destruct t as [ino name].
    destruct (create_inode_spec shl_undef d ino name ty d1 I He)
      as (kp & a & n & blkp & e & imap' & C).
    rewrite (creation_allocation _ _ _ _ _ _ _ _ _ _ _ I C) in Hal.
    apply Ret_inj in Hal. subst al.
    pose proof (creation_Inv shl_undef shl_nz _ _ _ _ _ _ _ _ _ _ _ I C) as I1.
    destruct (IH I1) as (N1 & N2 & Hfresh).
    assert (Hset : get_bit shl_undef (dk_inode_bitmap d1) (Z.of_nat a) = Ret true).
    { rewrite (cr_state _ _ _ _ _ _ _ _ _ _ _ _ C). unfold created. cbn [dk_inode_bitmap].
      eapply set_bit_get; [exact shl_nz|]. exact (cr_set _ _ _ _ _ _ _ _ _ _ _ _ C). }
    destruct (Hfresh _ Hset) as [F1 F2].
    cbn [fmap list_fmap fst snd]. repeat split.
    + constructor; assumption.
    + constructor; assumption.
    + assert (Hx' : get_bit shl_undef (dk_inode_bitmap d1) x = Ret true).
      { rewrite (cr_state _ _ _ _ _ _ _ _ _ _ _ _ C). unfold created. cbn [dk_inode_bitmap].
        eapply set_bit_keeps; [|exact H]. exact (cr_set _ _ _ _ _ _ _ _ _ _ _ _ C). }
      intros Hin. apply elem_of_cons in Hin as [->|Hin].
      * rewrite (cr_clear _ _ _ _ _ _ _ _ _ _ _ _ C) in H. discriminate.
      * destruct (Hfresh _ Hx') as [G _]. contradiction.
    + assert (Hx' : get_bit shl_undef (dk_inode_bitmap d1) x = Ret true).
      { rewrite (cr_state _ _ _ _ _ _ _ _ _ _ _ _ C). unfold created. cbn [dk_inode_bitmap].
        eapply set_bit_keeps; [|exact H]. exact (cr_set _ _ _ _ _ _ _ _ _ _ _ _ C). }
      intros Hin. apply elem_of_cons in Hin as [->|Hin].
      * rewrite (cr_clear _ _ _ _ _ _ _ _ _ _ _ _ C) in H. discriminate.
      * destruct (Hfresh _ Hx') as [_ G]. contradiction.
Qed.


(** Every sequence of calls that return has its run. *)
Lemma steps_Ret (cs : list call) (r : result disk_image) (d' : disk_image) :
  fold_left (fun r c => bind r (fun d => exec shl_undef d c)) cs r = Ret d' ->
  exists d, r = Ret d.
Proof.
  revert r. induction cs as [|c cs IH]; intros r H; [eauto|].
  apply IH in H as (d1 & H). apply bind_Ret in H as (d & -> & _). eauto.
Qed.

Lemma run_complete (cs : list call) (d d' : disk_image) :
  Inv shl_undef d ->
  fold_left (fun r c => bind r (fun d => exec shl_undef d c)) cs (Ret d) = Ret d' ->
  exists l, run shl_undef d cs l d'.
Proof.
  revert d. induction cs as [|c cs IH]; intros d I H.
  - apply Ret_inj in H. subst d'. exists []. constructor.
  - cbn [fold_left bind] in H.
    destruct (steps_Ret _ _ _ H) as (d1 & He). rewrite He in H.
    destruct (exec_create_path d c) as (ty & E).
    pose proof He as Hc. rewrite E, create_path_target in Hc.
    apply bind_Ret in Hc as (t & Ht & Hc). destruct t as [[ino name]|].
    + destruct (create_inode_spec shl_undef d ino name ty d1 I Hc)
        as (kp & a & n & blkp & e & imap' & C).
      pose proof (creation_Inv shl_undef shl_nz _ _ _ _ _ _ _ _ _ _ _ I C) as I1.
      destruct (IH d1 I1 H) as (l & R).
      exists ((Z.of_nat a, Z.of_nat a) :: l).
      eapply run_alloc; eauto. eapply creation_allocation; eauto.
    + apply Ret_inj in Hc. subst d1. destruct (IH d I H) as (l & R).
      exists l. eapply run_skip; eauto.
Qed.

Lemma after_run (cs : list call) (d : disk_image) :
  after shl_undef cs = Ret d -> exists l, run shl_undef root_disk cs l d.
Proof.
  unfold after. rewrite fs_create_disk_root.
  apply run_complete. apply root_disk_Inv.
Qed.

End Runs.

(** * The root and the listing *)

Lemma dot_block_later (k : nat) :
  (2 <= k < 113)%nat ->
  dot_block zero_block !! k = Some zero_direntry.
Proof.
  intros Hk. unfold dot_block. rewrite !list_lookup_insert_ne by lia.
  unfold zero_block. apply lookup_replicate_2. change (Z.to_nat ENTRIES_PER_BLOCK) with 113%nat. lia.
Qed.

Lemma entry_at_slot (b : nat) (k : Z) :
  0 <= k -> entry_at (block_addr b) k = slot_addr b (Z.to_nat k).
Proof. intros Hk. unfold entry_at, slot_addr. rewrite Z2Nat.id by lia. reflexivity. Qed.

Lemma seeded_dot_block (d : disk_image) (b : nat) :
  (b < 56)%nat -> dk_data_region d !! b = Some (dot_block zero_block) ->
  seeded d (block_addr b).
Proof.
  intros Hb Hblk. repeat split.
  - exists (set_name (set_inum zero_direntry 0) "."). rewrite block_addr_slot.
    rewrite (load_entry_addr d b 0 (dot_block zero_block)) by (auto; lia).
    repeat split.
  - exists (set_name (set_inum zero_direntry 0) ".."). rewrite entry_at_slot by lia.
    rewrite (load_entry_addr d b (Z.to_nat 1) (dot_block zero_block))
      by (auto; change (Z.to_nat 1) with 1%nat; lia).
    repeat split.
  - intros k Hk. change ENTRIES_PER_BLOCK with 113 in Hk.
    exists zero_direntry, (replicate 30 NUL). rewrite entry_at_slot by lia.
    rewrite (load_entry_addr d b (Z.to_nat k) (dot_block zero_block)) by (auto; lia).
    rewrite dot_block_later by lia. split; reflexivity.
Qed.

(** C3.  Right after [fs_create_disk], bit 0 of both bitmaps is set,
    inode 0 is the root, is a directory and owns data block 0, and that
    block holds the entry [.], the entry [..], both with inode 0, and then
    free entries only. *)
Theorem root_after_fs_create_disk (shl_undef : Z -> option Z) :
  exists d r i data_block,
    fs_create_disk shl_undef = Ret d
    /\ get_bit shl_undef (dk_inode_bitmap d) 0 = Ret true
    /\ get_bit shl_undef (dk_data_bitmap d) 0 = Ret true
    /\ root_inode d = Ret r /\ inode_for_index d 0 = Ret r
    /\ load_inode d r = Ret i
    /\ i_type i = inode_type_directory
    /\ data_block_for_index d 0 = Ret data_block
    /\ first_block i = Ret (Some data_block)
    /\ seeded d data_block.
Proof.
  exists root_disk, (inode_addr 0),
    (set_first_block (set_type zero_inode inode_type_directory) (Some (block_addr 0))),
    (block_addr 0).
  split; [apply fs_create_disk_root|].
  do 8 (split; [vm_compute; reflexivity|]).
  apply seeded_dot_block; [lia|reflexivity].
Qed.

Lemma print_dot (fuel : nat) (d : disk_image) (ino level : Z) :
  print_inode_recursive (S fuel) d "." ino level
  = Ret (spaces (Z.to_nat level) ++ "." ++ newline)%string.
Proof. reflexivity. Qed.

Lemma print_dotdot (fuel : nat) (d : disk_image) (ino level : Z) :
  print_inode_recursive (S fuel) d ".." ino level
  = Ret (spaces (Z.to_nat level) ++ ".." ++ newline)%string.
Proof. reflexivity. Qed.

(** C4.  On a fresh disk, after [create_dir("/a")] and
    [create_file("/a/b.txt")], [print_tree] writes the root, then its
    entries in the order they were made with one space of indentation, and
    under [a] its own entries with two: [b.txt] comes one level under [a],
    itself one level under the root.  An entry named [.] or [..] is
    printed and never descended into, whatever inode it points to. *)
Theorem print_tree_a_b (shl_undef : Z -> option Z) (k : nat) :
  (exists d, after shl_undef [CreateDir "/a"; CreateFile "/a/b.txt"] = Ret d
             /\ print_tree (9 + k) d = Ret listing_a_b)
  /\ (forall fuel d ino level,
        print_inode_recursive (S fuel) d "." ino level
        = Ret (spaces (Z.to_nat level) ++ "." ++ newline)%string
        /\ print_inode_recursive (S fuel) d ".." ino level
           = Ret (spaces (Z.to_nat level) ++ ".." ++ newline)%string).
Proof.
  split.
  - assert (H : bind (after shl_undef [CreateDir "/a"; CreateFile "/a/b.txt"])
                  (print_tree (9 + k)) = Ret listing_a_b)
      by (vm_compute; reflexivity).
    apply bind_Ret in H. exact H.
  - intros. split; reflexivity.
Qed.

(** * What [strncpy] leaves in a name array *)

Lemma c_str_strncpy (s : string) (n : nat) :
  c_str (strncpy_chars s n ++ [NUL]) = Ret (substring 0 n (cstr s)).
Proof.
  revert s. induction n as [|n IH]; intros s.
  - simpl. destruct (cstr s); reflexivity.
  - destruct s as [|c s].
    + cbn [strncpy_chars cstr substring app c_str].
      change (Ascii.eqb NUL NUL) with true. reflexivity.
    + cbn [strncpy_chars cstr]. destruct (Ascii.eqb_spec c NUL) as [->|Hc].
      * cbn [app c_str substring]. change (Ascii.eqb NUL NUL) with true. reflexivity.
      * cbn [app c_str substring].
        destruct (Ascii.eqb_spec c NUL) as [|_]; [contradiction|].
        rewrite IH. reflexivity.
Qed.

Lemma strncpy_chars_long (s : string) (n : nat) :
  (n <= String.length (cstr s))%nat ->
  strncpy_chars s n = list_ascii_of_string (substring 0 n (cstr s)).
Proof.
  revert s. induction n as [|n IH]; intros s Hn.
  - simpl. destruct (cstr s); reflexivity.
  - destruct s as [|c s]; [simpl in Hn; lia|].
    cbn [strncpy_chars cstr] in *. destruct (Ascii.eqb_spec c NUL) as [->|Hc].
    + simpl in Hn. lia.
    + cbn [substring list_ascii_of_string String.length] in *. rewrite IH by lia. reflexivity.
Qed.

Lemma substring_length_long (s : string) (n : nat) :
  (n <= String.length s)%nat -> String.length (substring 0 n s) = n.
Proof.
  revert s. induction n as [|n IH]; intros s Hn.
  - destruct s; reflexivity.
  - destruct s as [|c s]; [simpl in Hn; lia|].
    cbn [substring String.length] in *. rewrite IH by lia. reflexivity.
Qed.

Lemma cstr_idem (s : string) : cstr (cstr s) = cstr s.
Proof.
  induction s as [|c s IH]; [reflexivity|].
  cbn [cstr]. destruct (Ascii.eqb_spec c NUL) as [|Hc]; [reflexivity|].
  cbn [cstr]. destruct (Ascii.eqb_spec c NUL) as [|_]; [contradiction|].
  rewrite IH. reflexivity.
Qed.

Lemma cstr_substring (s : string) (n : nat) :
  cstr (substring 0 n (cstr s)) = substring 0 n (cstr s).
Proof.
  revert s. induction n as [|n IH]; intros s.
  - destruct (cstr s); reflexivity.
  - destruct s as [|c s]; [reflexivity|].
    cbn [cstr]. destruct (Ascii.eqb_spec c NUL) as [|Hc]; [reflexivity|].
    cbn [substring cstr]. destruct (Ascii.eqb_spec c NUL) as [|_]; [contradiction|].
    rewrite IH. reflexivity.
Qed.

Lemma name_ok_tail (e : direntry) : name_ok e -> drop 30 (d_name e) = [NUL].
Proof.
  intros [Hl Hz].
  assert (Hd : length (drop 30 (d_name e)) = 1%nat) by (rewrite length_drop, Hl; reflexivity).
  destruct (drop 30 (d_name e)) as [|c [|c' r]] eqn:E; try discriminate.
  assert (Hc : drop 30 (d_name e) !! 0%nat = Some NUL) by (rewrite lookup_drop; exact Hz).
  rewrite E in Hc. injection Hc as ->. reflexivity.
Qed.

Lemma new_entry_name (e : direntry) (name : string) (inum : Z) :
  name_ok e ->
  d_name (new_entry e name inum)
  = strncpy_chars name (Z.to_nat MAX_DIRECTORY_NAME_LENGTH) ++ [NUL].
Proof.
  intros H. unfold new_entry, set_inum, set_name, strncpy. cbn [d_name].
  change (Z.to_nat MAX_DIRECTORY_NAME_LENGTH) with 30%nat.
  rewrite name_ok_tail by exact H. reflexivity.
Qed.

Lemma new_entry_c_str (e : direntry) (name : string) (inum : Z) :
  name_ok e -> c_str (d_name (new_entry e name inum)) = Ret (stored_name name).
Proof. intros H. rewrite new_entry_name by exact H. apply c_str_strncpy. Qed.

Lemma probe_slot_lt (i n : nat) : (i < n)%nat -> (probe_slot i < probe_slot n)%nat.
Proof.
  intros H. apply Nat2Z.inj_lt. rewrite !probe_slot_Z.
  assert (Hle : (Z.of_nat i * (Z.of_nat i + 1) + 1 * 2) / 2
                <= Z.of_nat n * (Z.of_nat n + 1) / 2)
    by (apply Z.div_le_mono; nia).
  rewrite Z.div_add in Hle by lia. lia.
Qed.

Section Entries.
Variable shl_undef : Z -> option Z.
Hypothesis shl_nz : shifts_never_zero shl_undef.

Local Opaque get_bit set_bit first_clear_bit create_inode free_entry_scan
  directory_inode_scan.

Section Creation.
Variables (d : disk_image) (parent : Z) (name : string) (ty : Z) (d' : disk_image).
Variables (kp a n : nat) (blkp : list direntry) (e : direntry) (imap' : list Z).
Hypothesis I : Inv shl_undef d.
Hypothesis C : creation shl_undef d parent name ty d' kp a n blkp e imap'.

Let Hkp := cr_kp _ _ _ _ _ _ _ _ _ _ _ _ C.
Let Hne := cr_ne _ _ _ _ _ _ _ _ _ _ _ _ C.
Let Hn := cr_n _ _ _ _ _ _ _ _ _ _ _ _ C.
Let Hst := cr_state _ _ _ _ _ _ _ _ _ _ _ _ C.

Lemma creation_parent_block :
  dk_data_region d' !! kp
  = Some (<[probe_slot n := new_entry e name (Z.of_nat a)]> blkp).
Proof.
  rewrite Hst. apply created_region_parent; [exact Hne|].
  rewrite (inv_region _ _ I). exact Hkp.
Qed.

Lemma creation_entry :
  load_entry d' (probe (block_addr kp) 0 n) = Ret (new_entry e name (Z.of_nat a)).
Proof.
  rewrite probe_block.
  rewrite (load_entry_addr d' kp (probe_slot n) _ Hkp (probe_slot_small n Hn)
             creation_parent_block).
  rewrite list_lookup_insert_eq; [reflexivity|].
  eapply lookup_lt_Some. exact (cr_entry _ _ _ _ _ _ _ _ _ _ _ _ C).
Qed.

(** The entries the scan of the parent had passed are as they were. *)
Lemma creation_earlier (i : nat) :
  (i < n)%nat ->
  load_entry d' (probe (block_addr kp) 0 i) = load_entry d (probe (block_addr kp) 0 i).
Proof.
  intros Hi. rewrite probe_block.
  assert (Hs : (probe_slot i < 113)%nat) by (apply probe_slot_small; lia).
  rewrite (load_entry_addr d' kp (probe_slot i) _ Hkp Hs creation_parent_block).
  rewrite (load_entry_addr d kp (probe_slot i) _ Hkp Hs
             (cr_pblock _ _ _ _ _ _ _ _ _ _ _ _ C)).
  rewrite list_lookup_insert_ne; [reflexivity|].
  pose proof (probe_slot_lt i n Hi). lia.
Qed.

Lemma creation_parent_inode :
  exists pi, dk_inode_table d !! kp = Some pi
    /\ dk_inode_table d' !! kp = Some pi
    /\ i_type pi = inode_type_directory
    /\ first_block pi = Ret (Some (block_addr kp)).
Proof.
  destruct (cr_pinode _ _ _ _ _ _ _ _ _ _ _ _ C) as (pi & Hpi & Hty).
  exists pi. repeat split; [exact Hpi| |exact Hty|].
  - rewrite Hst. unfold created. cbn [dk_inode_table].
    rewrite list_lookup_insert_ne by auto. exact Hpi.
  - destruct (inv_inodes _ _ I kp pi Hpi) as [[-> _]|[_ Hb]]; [discriminate|exact Hb].
Qed.

Lemma creation_scan :
  free_entry_scan SCAN_FUEL d (block_addr kp) 0 = Ret (probe (block_addr kp) 0 n).
Proof.
  apply free_entry_scan_complete.
  - unfold SCAN_FUEL. lia.
  - exact (cr_used _ _ _ _ _ _ _ _ _ _ _ _ C).
  - exact (cr_free _ _ _ _ _ _ _ _ _ _ _ _ C).
Qed.

Lemma creation_new_inode :
  inode_for_index d' (Z.of_nat a) = Ret (inode_addr a)
  /\ load_inode d' (inode_addr a)
     = Ret (set_type (set_first_block zero_inode (Some (block_addr a))) ty).
Proof.
  pose proof (cr_a _ _ _ _ _ _ _ _ _ _ _ _ C) as Ha. split.
  - apply inode_for_index_std; [|exact Ha]. rewrite Hst. exact (inv_sb _ _ I).
  - rewrite load_inode_addr by exact Ha. rewrite Hst. unfold created.
    cbn [dk_inode_table]. rewrite list_lookup_insert_eq; [reflexivity|].
    rewrite (inv_itable _ _ I). exact Ha.
Qed.

End Creation.

Lemma writes_entry_name (d : disk_image) (parent : Z) (name : string) (ty : Z)
    (d' : disk_image) (e : direntry) :
  Inv shl_undef d ->
  writes_entry shl_undef d parent name ty d' e ->
  exists e0 inum data_block_num,
    name_ok e0
    /\ e = new_entry e0 name inum
    /\ next_allocation shl_undef d = Ret (inum, data_block_num).
Proof.
  intros I (Hc & pi & b & entry & Hpi & Hb & Hscan & He).
  destruct (create_inode_spec shl_undef d parent name ty d' I Hc)
    as (kp & a & n & blkp & e0 & imap' & C).
  destruct (creation_parent_inode _ _ _ _ _ _ _ _ _ _ _ I C) as (pi' & Hpi' & _ & _ & Hb').
  rewrite (cr_parent _ _ _ _ _ _ _ _ _ _ _ _ C) in Hpi.
  rewrite load_inode_addr, Hpi' in Hpi
    by (pose proof (cr_kp _ _ _ _ _ _ _ _ _ _ _ _ C); lia).
  apply Ret_inj in Hpi. subst pi'. rewrite Hb' in Hb.
  apply Ret_inj in Hb. injection Hb as <-.
  rewrite (creation_scan _ _ _ _ _ _ _ _ _ _ _ C) in Hscan.
  apply Ret_inj in Hscan. subst entry.
  rewrite (creation_entry _ _ _ _ _ _ _ _ _ _ _ I C) in He.
  apply Ret_inj in He. subst e.
  exists e0, (Z.of_nat a), (Z.of_nat a). repeat split.
  - pose proof (inv_names _ _ I kp blkp (probe_slot n) e0
                  (cr_pblock _ _ _ _ _ _ _ _ _ _ _ _ C)
                  (cr_entry _ _ _ _ _ _ _ _ _ _ _ _ C)) as [H1 H2].
    exact H1.
  - pose proof (inv_names _ _ I kp blkp (probe_slot n) e0
                  (cr_pblock _ _ _ _ _ _ _ _ _ _ _ _ C)
                  (cr_entry _ _ _ _ _ _ _ _ _ _ _ _ C)) as [H1 H2].
    exact H2.
  - eapply creation_allocation; eauto.
Qed.


End Entries.

(** * New directories and lookups *)

Lemma data_block_for_index_std (d : disk_image) (b : nat) :
  dk_superblock d = std_superblock -> (b < 80)%nat ->
  data_block_for_index d (Z.of_nat b) = Ret (block_addr b).
Proof.
  intros E Hb. unfold data_block_for_index. rewrite E.
  cbn [sb_data_region_start std_superblock].
  rewrite int_val_Ret by (unfold INT_MIN, INT_MAX, INODE_TABLE_IN_BLOCKS; lia).
  cbn [bind].
  rewrite int_val_Ret
    by (unfold INT_MIN, INT_MAX, INODE_TABLE_IN_BLOCKS, BLOCK_SIZE_IN_BYTES; lia).
  f_equal. unfold block_addr, DATA_REGION_AT. lia.
Qed.

Lemma cstr_stored_name (name : string) : cstr (stored_name name) = stored_name name.
Proof. unfold stored_name. apply cstr_substring. Qed.

Section Directories.
Variable shl_undef : Z -> option Z.
Hypothesis shl_nz : shifts_never_zero shl_undef.

Local Opaque get_bit set_bit first_clear_bit create_inode free_entry_scan
  directory_inode_scan.


Lemma named_at_transfer (d d' : disk_image) (p : Z) (t : string) :
  load_entry d' p = load_entry d p -> named_at d p t -> named_at d' p t.
Proof. intros E (e & He & H). exists e. rewrite E. auto. Qed.


End Directories.

(** * Creates that are given up *)

Lemma iso_c_never_zero : shifts_never_zero iso_c.
Proof. intros k v H. discriminate. Qed.

Lemma mod32_never_zero : shifts_never_zero mod32.
Proof.
  intros k v H. unfold mod32 in H. injection H as <-.
  pose proof (Z.mod_pos_bound k 32 ltac:(lia)) as Hk.
  destruct (Z.eq_dec (k mod 32) 31) as [->|Hne]; [vm_compute; discriminate|].
  assert (H1 : 1 <= 2 ^ (k mod 32)) by (pose proof (Z.pow_pos_nonneg 2 (k mod 32)); lia).
  assert (H2 : 2 ^ (k mod 32) < 2 ^ 31) by (apply Z.pow_lt_mono_r; lia).
  unfold to_word, wrap_int.
  rewrite (Z.mod_small (2 ^ (k mod 32) + 2 ^ 31)) by lia.
  rewrite Z.mod_small by lia. lia.
Qed.

(** The walk over the intermediate components: a [NULL] ends it, each
    other step is one [directory_inode], and [directory_inode] answers
    [NULL] inside anything that is not a directory. *)
Lemma walk_stays_null (d : disk_image) (l : list string) :
  fold_left (lookup_step d) l (Ret None) = Ret None.
Proof. induction l as [|c l IH]; [reflexivity|exact IH]. Qed.

Lemma walk_step (d : disk_image) (p : Z) (c : string) (l : list string) :
  fold_left (lookup_step d) (c :: l) (Ret (Some p))
  = fold_left (lookup_step d) l (directory_inode d p c).
Proof. reflexivity. Qed.

Lemma directory_inode_of_file (d : disk_image) (p : Z) (i : inode) (c : string) :
  load_inode d p = Ret i -> i_type i <> inode_type_directory ->
  directory_inode d p c = Ret None.
Proof.
  intros L T. unfold directory_inode. rewrite L. cbn [bind].
  destruct (Z.eqb_spec (i_type i) inode_type_directory); [contradiction|reflexivity].
Qed.


Lemma create_file_f : create_file iso_c root_disk "/f" = Ret (disk_with inode_type_file "f").
Proof. vm_compute. reflexivity. Qed.

Lemma reachable_root (shl_undef : Z -> option Z) : reachable shl_undef root_disk.
Proof. apply reachable_disk. apply fs_create_disk_root. Qed.



(** A child whose stored name is empty leaves its entry free: the lookup
    does not find it, and the next child takes the same entry. *)
Example lookup_misses_empty_name :
  bind (create_inode iso_c root_disk (inode_addr 0) "" inode_type_file) (fun d' =>
  bind (directory_inode d' (inode_addr 0) "") (fun r =>
  bind (free_entry_scan SCAN_FUEL root_disk (block_addr 0) 0) (fun p =>
  bind (free_entry_scan SCAN_FUEL d' (block_addr 0) 0) (fun p' =>
  Ret (r, p, p')))))
  = Ret (None, slot_addr 0 3, slot_addr 0 3).
Proof. vm_compute. reflexivity. Qed.

(** * Exhaustion *)

(** A returning [create_inode] has changed the disk: the bit it found clear
    is set.  There is no path on which it gives up. *)
Lemma create_inode_changes_disk (shl_undef : Z -> option Z) (d : disk_image)
    (parent : Z) (name : string) (ty : Z) (d' : disk_image) :
  shifts_never_zero shl_undef ->
  reachable shl_undef d ->
  create_inode shl_undef d parent name ty = Ret d' ->
  exists inum,
    get_bit shl_undef (dk_inode_bitmap d) inum = Ret false
    /\ get_bit shl_undef (dk_inode_bitmap d') inum = Ret true
    /\ get_bit shl_undef (dk_data_bitmap d) inum = Ret false
    /\ get_bit shl_undef (dk_data_bitmap d') inum = Ret true.
Proof.
  intros nz R H. apply (reachable_Inv _ nz) in R.
  destruct (create_inode_spec shl_undef d parent name ty d' R H)
    as (kp & a & n & blkp & e & imap' & C).
  exists (Z.of_nat a).
  pose proof (cr_state _ _ _ _ _ _ _ _ _ _ _ _ C) as ->.
  pose proof (cr_clear _ _ _ _ _ _ _ _ _ _ _ _ C) as Hclr.
  pose proof (set_bit_get _ nz _ _ _ (cr_set _ _ _ _ _ _ _ _ _ _ _ _ C)) as Hset.
  rewrite (inv_maps _ _ R). unfold created. cbn [dk_inode_bitmap dk_data_bitmap]. auto.
Qed.

(** C5.  Exhaustion is not checked.  After the root and thirty creations
    the scan of [first_clear_bit] reaches bit 31: by the C standard the
    next creation is undefined.  Where the shift count is taken modulo 32,
    that creation returns, and the one after it takes index 64 in both
    bitmaps: the call returns, its inode points past the end of the disk,
    and the data bitmap has changed. *)
Theorem exhaustion_unchecked :
  after iso_c (fill30 ++ [CreateFile "/r3"]) = Undef
  /\ exists d d' ino i p,
       after mod32 (fill30 ++ [CreateFile "/r3"]) = Ret d
       /\ next_allocation mod32 d = Ret (64, 64)
       /\ create_file mod32 d "/r4" = Ret d'
       /\ inode_for_index d' 64 = Ret ino
       /\ load_inode d' ino = Ret i
       /\ first_block i = Ret (Some p)
       /\ p = DATA_REGION_AT + 64 * BLOCK_SIZE_IN_BYTES
       /\ DISK_END <= p
       /\ get_bit mod32 (dk_data_bitmap d) 64 = Ret false
       /\ get_bit mod32 (dk_data_bitmap d') 64 = Ret true.
Proof.
  split; [vm_compute; reflexivity|].
  assert (H :
    bind (after mod32 (fill30 ++ [CreateFile "/r3"])) (fun d =>
    bind (next_allocation mod32 d) (fun al =>
    bind (create_file mod32 d "/r4") (fun d' =>
    bind (inode_for_index d' 64) (fun ino =>
    bind (load_inode d' ino) (fun i =>
    bind (first_block i) (fun b =>
    bind (get_bit mod32 (dk_data_bitmap d) 64) (fun g =>
    bind (get_bit mod32 (dk_data_bitmap d') 64) (fun g' =>
    Ret (al, b, g, g')))))))))
    = Ret ((64, 64), Some (DATA_REGION_AT + 64 * BLOCK_SIZE_IN_BYTES), false, true))
    by (vm_compute; reflexivity).
  bind_inv H d Hd. bind_inv H al Hal. bind_inv H d' Hd'. bind_inv H ino Hino.
  bind_inv H i Hi. bind_inv H b Hb. bind_inv H g Hg. bind_inv H g' Hg'.
  apply Ret_inj in H. injection H as -> -> -> ->.
  exists d, d', ino, i, (DATA_REGION_AT + 64 * BLOCK_SIZE_IN_BYTES).
  repeat split; try assumption. vm_compute. discriminate.
Qed.

(** Where an undefined shift yields 0 the same index is handed out twice. *)
Example allocation_repeats_on_zero_shift :
  bind (after (fun _ => Some 0) (fill30 ++ [CreateFile "/r3"])) (fun d =>
  bind (next_allocation (fun _ => Some 0) d) (fun al =>
  bind (create_file (fun _ => Some 0) d "/r4") (fun d' =>
  bind (next_allocation (fun _ => Some 0) d') (fun al' => Ret (al, al')))))
  = Ret ((31, 31), (31, 31)).
Proof. vm_compute. reflexivity. Qed.

(** * Instances *)

Lemma create_dir_x :
  create_inode iso_c root_disk (inode_addr 0) "x" inode_type_directory
  = Ret (disk_with inode_type_directory "x").
Proof. vm_compute. reflexivity. Qed.



Lemma writes_long_name :
  writes_entry iso_c root_disk (inode_addr 0) long_name inode_type_file
    (disk_with inode_type_file long_name) (new_entry zero_direntry long_name 1).
Proof.
  split; [vm_compute; reflexivity|].
  exists (set_first_block (set_type zero_inode inode_type_directory) (Some (block_addr 0))),
    (block_addr 0), (slot_addr 0 3).
  repeat split; vm_compute; reflexivity.
Qed.

Lemma writes_long_name_again :
  writes_entry iso_c (disk_with inode_type_file long_name) (inode_addr 0) long_name
    inode_type_file disk_with_twice (new_entry zero_direntry long_name 2).
Proof.
  split; [vm_compute; reflexivity|].
  exists (set_first_block (set_type zero_inode inode_type_directory) (Some (block_addr 0))),
    (block_addr 0), (slot_addr 0 6).
  repeat split; vm_compute; reflexivity.
Qed.

Lemma reachable_long_name : reachable iso_c (disk_with inode_type_file long_name).
Proof.
  apply (reachable_create iso_c root_disk (inode_addr 0) long_name inode_type_file).
  - apply reachable_root.
  - exact (proj1 writes_long_name).
Qed.




(** * The budget of the scans is never the reason a call ends

    Only [print_inode_recursive] needs its budget: every other function
    returns, aborts or is undefined, and never runs out. *)

Lemma bind_no_fuel {A B : Type} (m : result A) (f : A -> result B) :
  m <> Fuel -> (forall a, f a <> Fuel) -> bind m f <> Fuel.
Proof. intros Hm Hf. destruct m; simpl; auto; discriminate. Qed.

Lemma of_option_no_fuel {A : Type} (o : option A) : of_option o <> Fuel.
Proof. destruct o; discriminate. Qed.

Lemma int_val_no_fuel (v : Z) : int_val v <> Fuel.
Proof. unfold int_val. destruct (_ && _); discriminate. Qed.

Lemma Ret_no_fuel {A : Type} (a : A) : Ret a <> Fuel.
Proof. discriminate. Qed.

Create HintDb nofuel.
#[local] Hint Resolve of_option_no_fuel int_val_no_fuel Ret_no_fuel : nofuel.

Ltac no_fuel :=
  repeat first
    [ apply Ret_no_fuel
    | solve [auto with nofuel]
    | apply bind_no_fuel; [|intros ?]
    | discriminate ].

Lemma load_words_no_fuel (d : disk_image) (p : Z) : load_words d p <> Fuel.
Proof. unfold load_words. repeat destruct (_ =? _); discriminate. Qed.

Lemma store_words_no_fuel (d : disk_image) (p : Z) (ws : list Z) :
  store_words d p ws <> Fuel.
Proof. unfold store_words. repeat destruct (_ =? _); discriminate. Qed.

Lemma load_inode_no_fuel (d : disk_image) (p : Z) : load_inode d p <> Fuel.
Proof. unfold load_inode. no_fuel. Qed.

Lemma store_inode_no_fuel (d : disk_image) (p : Z) (i : inode) : store_inode d p i <> Fuel.
Proof. unfold store_inode. no_fuel. Qed.

Lemma load_entry_no_fuel (d : disk_image) (p : Z) : load_entry d p <> Fuel.
Proof. unfold load_entry. no_fuel. Qed.

Lemma store_entry_no_fuel (d : disk_image) (p : Z) (e : direntry) :
  store_entry d p e <> Fuel.
Proof. unfold store_entry. no_fuel. Qed.

#[local] Hint Resolve load_words_no_fuel store_words_no_fuel load_inode_no_fuel
  store_inode_no_fuel load_entry_no_fuel store_entry_no_fuel : nofuel.

Lemma inode_for_index_no_fuel (d : disk_image) (k : Z) : inode_for_index d k <> Fuel.
Proof. unfold inode_for_index. no_fuel. Qed.

Lemma data_block_for_index_no_fuel (d : disk_image) (k : Z) :
  data_block_for_index d k <> Fuel.
Proof. unfold data_block_for_index. no_fuel. Qed.

Lemma init_no_fuel (d : disk_image) (p : Z) :
  init_direntry_datablock_with_default_directories d p <> Fuel.
Proof. unfold init_direntry_datablock_with_default_directories. no_fuel. Qed.

#[local] Hint Resolve inode_for_index_no_fuel data_block_for_index_no_fuel
  init_no_fuel : nofuel.

Lemma used_at_bounds (d : disk_image) (p : Z) :
  used_at d p -> DATA_REGION_AT <= p < DISK_END.
Proof.
  intros (e & c & r & H & _). apply load_entry_Ret in H as (b & s & blk & -> & Hb & Hs & _).
  unfold slot_addr, block_addr, DATA_REGION_AT, DISK_END, DISK_SIZE_IN_BLOCKS,
    INODE_TABLE_IN_BLOCKS, DIRENTRY_SIZE, BLOCK_SIZE_IN_BYTES. lia.
Qed.

Lemma free_entry_scan_Fuel (fuel : nat) (d : disk_image) (entry index : Z) :
  free_entry_scan fuel d entry index = Fuel ->
  forall i, (i < fuel)%nat -> used_at d (probe entry index i).
Proof.
  revert entry index. induction fuel as [|fuel IH]; intros entry index H i Hi; [lia|].
  simpl in H. destruct (load_entry d entry) as [e| | |] eqn:He; try discriminate.
  - cbn [bind] in H. destruct (d_name e) as [|c r] eqn:Hn; [discriminate|].
    destruct (Ascii.eqb_spec c NUL) as [|Hc]; [discriminate|].
    destruct i as [|i]; [exists e, c, r; auto|]. apply (IH _ _ H). lia.
  - exfalso. eapply load_entry_no_fuel. exact He.
Qed.

Lemma directory_inode_scan_Fuel (fuel : nat) (d : disk_image) (entry index : Z)
    (s : string) :
  directory_inode_scan fuel d entry index s = Fuel ->
  forall i, (i < fuel)%nat -> used_at d (probe entry index i).
Proof.
  revert entry index. induction fuel as [|fuel IH]; intros entry index H i Hi; [lia|].
  simpl in H. destruct (load_entry d entry) as [e| | |] eqn:He; try discriminate.
  - cbn [bind] in H. destruct (d_name e) as [|c r] eqn:Hn; [discriminate|].
    destruct (Ascii.eqb_spec c NUL) as [|Hc]; [discriminate|].
    destruct (c_str (c :: r)) as [t| | |] eqn:Ht; try discriminate.
    + cbn [bind] in H. destruct (String.eqb t (cstr s)).
      * exfalso. revert H. no_fuel.
      * destruct i as [|i]; [exists e, c, r; auto|]. apply (IH _ _ H). lia.
    + exfalso. clear - Ht. revert Ht. generalize (c :: r). intros l.
      induction l as [|x l IHl]; simpl; [discriminate|].
      destruct (Ascii.eqb x NUL); [discriminate|].
      destruct (c_str l); simpl; try discriminate. intros _. apply IHl. reflexivity.
  - exfalso. eapply load_entry_no_fuel. exact He.
Qed.

(** 128 steps from any pointer lead out of the disk. *)
Lemma scan_leaves_disk (d : disk_image) (entry : Z) :
  ~ (forall i, (i < SCAN_FUEL)%nat -> used_at d (probe entry 0 i)).
Proof.
  intros H.
  pose proof (used_at_bounds _ _ (H 0%nat ltac:(unfold SCAN_FUEL; lia))) as H0.
  pose proof (used_at_bounds _ _ (H 127%nat ltac:(unfold SCAN_FUEL; lia))) as H1.
  rewrite probe_add in H1. change (probe entry 0 0) with entry in H0.
  change (Z.of_nat 127 * 0 + Z.of_nat 127 * (Z.of_nat 127 + 1) / 2) with 8128 in H1.
  unfold DATA_REGION_AT, DISK_END, DISK_SIZE_IN_BLOCKS, INODE_TABLE_IN_BLOCKS,
    DIRENTRY_SIZE, BLOCK_SIZE_IN_BYTES in *. lia.
Qed.

Lemma free_entry_scan_no_fuel (d : disk_image) (entry : Z) :
  free_entry_scan SCAN_FUEL d entry 0 <> Fuel.
Proof. intros H. exact (scan_leaves_disk d entry (free_entry_scan_Fuel _ _ _ _ H)). Qed.

Lemma directory_inode_scan_no_fuel (d : disk_image) (entry : Z) (s : string) :
  directory_inode_scan SCAN_FUEL d entry 0 s <> Fuel.
Proof. intros H. exact (scan_leaves_disk d entry (directory_inode_scan_Fuel _ _ _ _ _ H)). Qed.

#[local] Hint Resolve free_entry_scan_no_fuel directory_inode_scan_no_fuel : nofuel.

Lemma directory_inode_no_fuel (d : disk_image) (p : Z) (s : string) :
  directory_inode d p s <> Fuel.
Proof.
  unfold directory_inode. apply bind_no_fuel; [auto with nofuel|]. intros i.
  destruct (negb _); [discriminate|]. unfold first_block. no_fuel.
Qed.

Section NoFuel.
Variable shl_undef : Z -> option Z.

Lemma int_shl1_no_fuel (k : Z) : int_shl1 shl_undef k <> Fuel.
Proof. unfold int_shl1. destruct (_ && _); no_fuel. Qed.

Lemma word_at_no_fuel (ws : list Z) (i : Z) : word_at ws i <> Fuel.
Proof. unfold word_at. destruct (_ && _); no_fuel. Qed.

#[local] Hint Resolve int_shl1_no_fuel word_at_no_fuel : nofuel.

Lemma set_bit_no_fuel (ws : list Z) (n : Z) : set_bit shl_undef ws n <> Fuel.
Proof. unfold set_bit. no_fuel. Qed.

Lemma get_bit_no_fuel (ws : list Z) (n : Z) : get_bit shl_undef ws n <> Fuel.
Proof. unfold get_bit. no_fuel. Qed.

Lemma first_clear_from_no_fuel (ws : list Z) (rem : nat) (i : Z) :
  first_clear_from shl_undef ws rem i <> Fuel.
Proof.
  revert i. induction rem as [|rem IH]; intros i; simpl; [discriminate|].
  apply bind_no_fuel; [apply get_bit_no_fuel|]. intros [|]; [apply IH|discriminate].
Qed.

Lemma first_clear_bit_in_no_fuel (d : disk_image) (p : Z) :
  first_clear_bit_in shl_undef d p <> Fuel.
Proof.
  unfold first_clear_bit_in, first_clear_bit.
  apply bind_no_fuel; [auto with nofuel|]. intros ws. apply first_clear_from_no_fuel.
Qed.

Lemma set_bit_in_no_fuel (d : disk_image) (p n : Z) : set_bit_in shl_undef d p n <> Fuel.
Proof.
  unfold set_bit_in. apply bind_no_fuel; [auto with nofuel|]. intros ws.
  apply bind_no_fuel; [apply set_bit_no_fuel|]. intros ws'. auto with nofuel.
Qed.

#[local] Hint Resolve first_clear_bit_in_no_fuel set_bit_in_no_fuel : nofuel.

Lemma create_inode_no_fuel (d : disk_image) (parent : Z) (name : string) (ty : Z) :
  create_inode shl_undef d parent name ty <> Fuel.
Proof.
  unfold create_inode. apply bind_no_fuel; [auto with nofuel|]. intros pi.
  destruct (negb _); [discriminate|].
  unfold inode_bitmap, data_bitmap, first_block.
  no_fuel. destruct (ty =? inode_type_directory); no_fuel.
Qed.

Lemma walk_parent_no_fuel (d : disk_image) (components : list string) :
  walk_parent d components <> Fuel.
Proof.
  unfold walk_parent, root_inode. apply bind_no_fuel; [auto with nofuel|]. intros root.
  generalize (removelast components). intros l.
  assert (H : Ret (Some root) <> (Fuel : result ptr)) by discriminate.
  revert H. generalize (Ret (Some root) : result ptr). induction l as [|c l IH]; intros r Hr.
  - exact Hr.
  - simpl. apply IH. unfold lookup_step. apply bind_no_fuel; [exact Hr|].
    intros [p|]; [apply directory_inode_no_fuel|discriminate].
Qed.

Lemma create_path_no_fuel (d : disk_image) (path : string) (ty : Z) :
  create_path shl_undef d path ty <> Fuel.
Proof.
  unfold create_path. destruct (cstr path) as [|c path']; [discriminate|].
  destruct (Ascii.eqb c "/"); [|discriminate].
  apply bind_no_fuel; [apply walk_parent_no_fuel|].
  intros [p|]; [apply create_inode_no_fuel|discriminate].
Qed.

End NoFuel.

(** * Further properties of the code *)

(** ** The bits the bitmap functions touch *)

Lemma offsets_nonneg (n : Z) :
  0 <= n -> WORD_OFFSET n = n / BITS_PER_WORD /\ BIT_OFFSET n = n mod BITS_PER_WORD.
Proof.
  intros Hn. unfold WORD_OFFSET, BIT_OFFSET, BITS_PER_WORD, CHAR_BIT. split.
  - apply Z.quot_div_nonneg; lia.
  - apply Z.rem_mod_nonneg; lia.
Qed.

Lemma word_offset_range (n : Z) :
  0 <= n < BITMAP_BITS -> 0 <= WORD_OFFSET n < WORDS_PER_BLOCK.
Proof.
  intros Hn. destruct (offsets_nonneg n ltac:(lia)) as [-> _].
  unfold WORDS_PER_BLOCK, BITMAP_BITS, BITS_PER_WORD, BLOCK_SIZE_IN_BYTES,
    CHAR_BIT in *.
  change (4096 / 8) with 512. change (8 * 8) with 64. split.
  - apply Z.div_pos; lia.
  - apply Z.div_lt_upper_bound; lia.
Qed.

Lemma word_at_lookup (ws : list Z) (i : Z) :
  length ws = Z.to_nat WORDS_PER_BLOCK -> 0 <= i < WORDS_PER_BLOCK ->
  exists w, ws !! Z.to_nat i = Some w /\ word_at ws i = Ret w.
Proof.
  intros Hl Hi. destruct (lookup_lt_is_Some_2 ws (Z.to_nat i)) as [w Hw]; [lia|].
  exists w. split; [exact Hw|]. unfold word_at.
  destruct (Z.leb_spec 0 i); [|lia]. destruct (Z.ltb_spec i WORDS_PER_BLOCK); [|lia].
  cbn [andb]. rewrite Hw. reflexivity.
Qed.

(** The mask of [clear_bit], [~(1 << k)] converted to [word_t]: every bit
    of the word but bit [k]. *)
Lemma clear_mask_bits (k j : Z) :
  0 <= k -> 0 <= j < 64 ->
  Z.testbit (to_word (Z.lnot (2 ^ k))) j = negb (k =? j).
Proof.
  intros Hk Hj. unfold to_word.
  rewrite Z.mod_pow2_bits_low by lia.
  rewrite Z.lnot_spec by lia.
  rewrite Z.pow2_bits_eqb by lia. reflexivity.
Qed.

Lemma word_bits_high (w j : Z) : 0 <= w < 2 ^ 64 -> 64 <= j -> Z.testbit w j = false.
Proof.
  intros Hw Hj. rewrite <- (Z.mod_small w (2 ^ 64)) by lia.
  apply Z.mod_pow2_bits_high. lia.
Qed.

Lemma to_word_bits_high (v j : Z) : 64 <= j -> Z.testbit (to_word v) j = false.
Proof. intros Hj. unfold to_word. apply Z.mod_pow2_bits_high. lia. Qed.

(** A bit of the bytes after one word has been replaced. *)
Lemma bit_is_set_insert (ws : list Z) (i : nat) (v : Z) (j : Z) :
  (i < length ws)%nat ->
  bit_is_set (<[i := v]> ws) j
  = if decide (Z.to_nat (j / BITS_PER_WORD) = i)
    then Z.testbit v (j mod BITS_PER_WORD)
    else bit_is_set ws j.
Proof.
  intros Hi. unfold bit_is_set.
  destruct (decide (Z.to_nat (j / BITS_PER_WORD) = i)) as [->|Hne].
  - rewrite list_lookup_insert_eq by exact Hi. reflexivity.
  - rewrite list_lookup_insert_ne by congruence. reflexivity.
Qed.

Lemma same_word_other_bit (n j : Z) :
  0 <= n -> 0 <= j -> j <> n ->
  Z.to_nat (j / BITS_PER_WORD) = Z.to_nat (n / BITS_PER_WORD) ->
  n mod BITS_PER_WORD <> j mod BITS_PER_WORD.
Proof.
  intros Hn Hj Hne E. unfold BITS_PER_WORD, CHAR_BIT in *. change (8 * 8) with 64 in *.
  assert (j / 64 = n / 64).
  { pose proof (Z.div_pos j 64). pose proof (Z.div_pos n 64). lia. }
  pose proof (Z.div_mod j 64). pose proof (Z.div_mod n 64). lia.
Qed.

Section BitmapLaws.
Variable shl_undef : Z -> option Z.

Lemma set_bit_low (ws : list Z) (n w : Z) :
  0 <= n < BITMAP_BITS -> BIT_OFFSET n < 31 ->
  ws !! Z.to_nat (WORD_OFFSET n) = Some w ->
  set_bit shl_undef ws n
  = Ret (<[Z.to_nat (WORD_OFFSET n) := Z.lor w (2 ^ BIT_OFFSET n)]> ws).
Proof.
  intros Hn Ho Hw. destruct (bit_split n ltac:(lia)) as (_ & _ & Hb).
  pose proof (word_offset_range n Hn) as Hr.
  unfold set_bit, word_at.
  destruct (Z.leb_spec 0 (WORD_OFFSET n)); [|lia].
  destruct (Z.ltb_spec (WORD_OFFSET n) WORDS_PER_BLOCK); [|lia].
  cbn [andb]. rewrite Hw. cbn [of_option bind].
  rewrite int_shl1_low by lia. cbn [bind].
  rewrite to_word_pow2 by lia. reflexivity.
Qed.

Lemma clear_bit_low (ws : list Z) (n w : Z) :
  0 <= n < BITMAP_BITS -> BIT_OFFSET n < 31 ->
  ws !! Z.to_nat (WORD_OFFSET n) = Some w ->
  clear_bit shl_undef ws n
  = Ret (<[Z.to_nat (WORD_OFFSET n)
           := Z.land w (to_word (Z.lnot (2 ^ BIT_OFFSET n)))]> ws).
Proof.
  intros Hn Ho Hw. destruct (bit_split n ltac:(lia)) as (_ & _ & Hb).
  pose proof (word_offset_range n Hn) as Hr.
  unfold clear_bit, word_at.
  destruct (Z.leb_spec 0 (WORD_OFFSET n)); [|lia].
  destruct (Z.ltb_spec (WORD_OFFSET n) WORDS_PER_BLOCK); [|lia].
  cbn [andb]. rewrite Hw. cbn [of_option bind].
  rewrite int_shl1_low by lia. reflexivity.
Qed.

(** Below bit 31 of a word [get_bit] reads the bit the bytes hold. *)
Lemma get_bit_reads (ws : list Z) (n : Z) :
  length ws = Z.to_nat WORDS_PER_BLOCK ->
  0 <= n < BITMAP_BITS -> BIT_OFFSET n < 31 ->
  get_bit shl_undef ws n = Ret (bit_is_set ws n).
Proof.
  intros Hl Hn Ho. destruct (bit_split n ltac:(lia)) as (_ & _ & Hb).
  destruct (word_at_lookup ws (WORD_OFFSET n) Hl (word_offset_range n Hn))
    as (w & Hw & Hat).
  unfold get_bit. rewrite Hat. cbn [bind].
  rewrite int_shl1_low by lia. cbn [bind].
  rewrite to_word_pow2, land_pow2_eq0, negb_involutive by lia.
  unfold bit_is_set. destruct (offsets_nonneg n ltac:(lia)) as [<- <-].
  rewrite Hw. reflexivity.
Qed.

(** X1.  What [first_clear_bit] answers, on any implementation.  When the
    call returns, its result is either -1, and then [get_bit] reads every
    one of the 32768 bits as set, or an index of the bitmap that [get_bit]
    reads as clear while it reads every lower index as set.  No other
    value is ever returned. *)
Theorem first_clear_bit_answer (ws : list Z) (r : Z) :
  first_clear_bit shl_undef ws = Ret r ->
  (r = -1 /\ forall j, 0 <= j < BITMAP_BITS -> get_bit shl_undef ws j = Ret true)
  \/ (0 <= r < BITMAP_BITS
      /\ get_bit shl_undef ws r = Ret false
      /\ forall j, 0 <= j < r -> get_bit shl_undef ws j = Ret true).
Proof.
  intros H. destruct (Z.eq_dec r (-1)) as [->|Hr].
  - left. split; [reflexivity|]. apply first_clear_bit_none. exact H.
  - right. apply first_clear_bit_found; assumption.
Qed.

(** X2.  [set_bit] below bit 31 of a word.  For an index [n] of the
    bitmap whose offset in its word is at most 30, the call returns, the
    bitmap keeps its length, bit [n] of the bytes is set and every other
    bit of the bytes is as before; [get_bit] then reads [n] as set, and
    reads every other index of offset at most 30 as it did before. *)
Theorem set_bit_sets_one_bit (ws : list Z) (n : Z) :
  length ws = Z.to_nat WORDS_PER_BLOCK ->
  0 <= n < BITMAP_BITS -> BIT_OFFSET n < 31 ->
  exists ws',
    set_bit shl_undef ws n = Ret ws'
    /\ length ws' = length ws
    /\ bit_is_set ws' n = true
    /\ (forall j, 0 <= j -> j <> n -> bit_is_set ws' j = bit_is_set ws j)
    /\ get_bit shl_undef ws' n = Ret true
    /\ (forall j, 0 <= j -> BIT_OFFSET j < 31 -> j <> n ->
          get_bit shl_undef ws' j = get_bit shl_undef ws j).
Proof.
  intros Hl Hn Ho.
  pose proof (word_offset_range n Hn) as Hr.
  destruct (word_at_lookup ws (WORD_OFFSET n) Hl Hr) as (w & Hw & _).
  destruct (bit_split n ltac:(lia)) as (_ & _ & Hb).
  destruct (offsets_nonneg n ltac:(lia)) as [Ew Eb].
  pose proof (set_bit_low ws n w Hn Ho Hw) as Hs.
  eexists. split; [exact Hs|].
  assert (Hi : (Z.to_nat (WORD_OFFSET n) < length ws)%nat) by lia.
  split; [apply length_insert|].
  split.
  { rewrite bit_is_set_insert by exact Hi. rewrite <- Ew.
    rewrite decide_True by reflexivity.
    rewrite <- Eb, Z.lor_spec, Z.pow2_bits_eqb, Z.eqb_refl by lia.
    apply orb_true_r. }
  split.
  { intros j Hj Hne. rewrite bit_is_set_insert by exact Hi.
    destruct (decide _) as [E|E]; [|reflexivity].
    rewrite Ew in E. pose proof (same_word_other_bit n j ltac:(lia) Hj Hne E) as Hd.
    unfold bit_is_set. rewrite E, <- Ew, Hw.
    rewrite Z.lor_spec, Z.pow2_bits_eqb by lia.
    rewrite Eb. destruct (Z.eqb_spec (n mod BITS_PER_WORD) (j mod BITS_PER_WORD));
      [contradiction|]. apply orb_false_r. }
  split.
  - eapply set_bit_get_same; [| |exact Hs]; lia.
  - intros j Hj Hoj Hne. eapply set_bit_get_other; [| | | | |exact Hs]; auto; lia.
Qed.

(** X3.  [clear_bit] below bit 31 of a word.  For an index [n] of the
    bitmap whose offset in its word is at most 30, the call returns, the
    bitmap keeps its length, bit [n] of the bytes is clear and every other
    bit of the bytes, the upper half of the word included, is as before;
    [get_bit] then reads [n] as clear. *)
Theorem clear_bit_clears_one_bit (ws : list Z) (n : Z) :
  length ws = Z.to_nat WORDS_PER_BLOCK ->
  0 <= n < BITMAP_BITS -> BIT_OFFSET n < 31 ->
  exists ws',
    clear_bit shl_undef ws n = Ret ws'
    /\ length ws' = length ws
    /\ bit_is_set ws' n = false
    /\ (forall j, 0 <= j -> j <> n -> bit_is_set ws' j = bit_is_set ws j)
    /\ get_bit shl_undef ws' n = Ret false.
Proof.
  intros Hl Hn Ho.
  pose proof (word_offset_range n Hn) as Hr.
  destruct (word_at_lookup ws (WORD_OFFSET n) Hl Hr) as (w & Hw & _).
  destruct (bit_split n ltac:(lia)) as (_ & _ & Hb).
  destruct (offsets_nonneg n ltac:(lia)) as [Ew Eb].
  pose proof (clear_bit_low ws n w Hn Ho Hw) as Hs.
  eexists. split; [exact Hs|].
  assert (Hi : (Z.to_nat (WORD_OFFSET n) < length ws)%nat) by lia.
  assert (Hm : 0 <= n mod BITS_PER_WORD < 64) by (rewrite <- Eb; lia).
  split; [apply length_insert|].
  assert (Hsame : bit_is_set
    (<[Z.to_nat (WORD_OFFSET n)
       := Z.land w (to_word (Z.lnot (2 ^ BIT_OFFSET n)))]> ws) n = false).
  { rewrite bit_is_set_insert by exact Hi. rewrite <- Ew.
    rewrite decide_True by reflexivity.
    rewrite Z.land_spec, <- Eb, clear_mask_bits, Z.eqb_refl by lia.
    apply andb_false_r. }
  split; [exact Hsame|].
  split.
  { intros j Hj Hne. rewrite bit_is_set_insert by exact Hi.
    destruct (decide _) as [E|E]; [|reflexivity].
    rewrite Ew in E. pose proof (same_word_other_bit n j ltac:(lia) Hj Hne E) as Hd.
    unfold bit_is_set. rewrite E, <- Ew, Hw.
    assert (0 <= j mod BITS_PER_WORD < 64).
    { unfold BITS_PER_WORD, CHAR_BIT. apply Z.mod_pos_bound. lia. }
    rewrite Z.land_spec, clear_mask_bits by lia.
    rewrite Eb. destruct (Z.eqb_spec (n mod BITS_PER_WORD) (j mod BITS_PER_WORD));
      [contradiction|]. apply andb_true_r. }
  rewrite get_bit_reads; [rewrite Hsame; reflexivity| |exact Hn|exact Ho].
  rewrite length_insert. exact Hl.
Qed.

(** X4.  [set_bit] and [clear_bit] undo each other below bit 31 of a
    word.  On a bitmap of 64-bit words, setting a bit that was clear and
    then clearing it gives the bitmap back, and so does clearing a bit
    that was set and then setting it. *)
Theorem set_bit_clear_bit_round_trip (ws : list Z) (n : Z) :
  length ws = Z.to_nat WORDS_PER_BLOCK ->
  Forall (fun w => 0 <= w < 2 ^ 64) ws ->
  0 <= n < BITMAP_BITS -> BIT_OFFSET n < 31 ->
  (bit_is_set ws n = false ->
   exists ws1, set_bit shl_undef ws n = Ret ws1
               /\ clear_bit shl_undef ws1 n = Ret ws)
  /\ (bit_is_set ws n = true ->
      exists ws1, clear_bit shl_undef ws n = Ret ws1
                  /\ set_bit shl_undef ws1 n = Ret ws).
Proof.
  intros Hl Hws Hn Ho.
  pose proof (word_offset_range n Hn) as Hr.
  destruct (word_at_lookup ws (WORD_OFFSET n) Hl Hr) as (w & Hw & _).
  destruct (bit_split n ltac:(lia)) as (_ & _ & Hb).
  destruct (offsets_nonneg n ltac:(lia)) as [Ew Eb].
  assert (Hi : (Z.to_nat (WORD_OFFSET n) < length ws)%nat) by lia.
  assert (Hrange : 0 <= w < 2 ^ 64).
  { exact (Forall_lookup_1 _ _ _ _ Hws Hw). }
  assert (Hbit : bit_is_set ws n = Z.testbit w (BIT_OFFSET n)).
  { unfold bit_is_set. rewrite <- Ew, Hw, Eb. reflexivity. }
  split; intros Hclear; rewrite Hbit in Hclear.
  - eexists. split; [apply (set_bit_low ws n w Hn Ho Hw)|].
    rewrite (clear_bit_low _ n (Z.lor w (2 ^ BIT_OFFSET n)) Hn Ho)
      by (apply list_lookup_insert_eq; exact Hi).
    rewrite list_insert_insert_eq. f_equal.
    replace (Z.land _ _) with w; [apply list_insert_id; exact Hw|].
    apply Z.bits_inj'. intros j Hj.
    rewrite Z.land_spec, Z.lor_spec, Z.pow2_bits_eqb by lia.
    destruct (Z.lt_ge_cases j 64) as [Hlt|Hge].
    + rewrite clear_mask_bits by lia.
      destruct (Z.eqb_spec (BIT_OFFSET n) j) as [<-|Hd].
      * rewrite Hclear. reflexivity.
      * rewrite orb_false_r, andb_true_r. reflexivity.
    + rewrite to_word_bits_high, word_bits_high by lia.
      symmetry. apply andb_false_r.
  - eexists. split; [apply (clear_bit_low ws n w Hn Ho Hw)|].
    rewrite (set_bit_low _ n (Z.land w (to_word (Z.lnot (2 ^ BIT_OFFSET n)))) Hn Ho)
      by (apply list_lookup_insert_eq; exact Hi).
    rewrite list_insert_insert_eq. f_equal.
    replace (Z.lor _ _) with w; [apply list_insert_id; exact Hw|].
    apply Z.bits_inj'. intros j Hj.
    rewrite Z.lor_spec, Z.land_spec, Z.pow2_bits_eqb by lia.
    destruct (Z.lt_ge_cases j 64) as [Hlt|Hge].
    + rewrite clear_mask_bits by lia.
      destruct (Z.eqb_spec (BIT_OFFSET n) j) as [<-|Hd].
      * rewrite Hclear. reflexivity.
      * rewrite orb_false_r, andb_true_r. reflexivity.
    + rewrite to_word_bits_high, word_bits_high by lia.
      destruct (Z.eqb_spec (BIT_OFFSET n) j); [lia|]. reflexivity.
Qed.

End BitmapLaws.

(** ** The addresses the accessors compute *)

(** X5.  The accessors check no bound.  With the superblock
    [fs_create_disk] writes, the pointer [inode_for_index] returns lies in
    the inode table exactly for the indices 0..79, the pointer
    [data_block_for_index] returns lies in the disk exactly for the
    indices 0..55, and inode index [80 + 16 * b] is the address of data
    block [b]. *)
Theorem accessors_unchecked (d : disk_image) :
  dk_superblock d = std_superblock ->
  (forall index p, inode_for_index d index = Ret p ->
     (INODE_TABLE_AT <= p /\ p + INODE_SIZE_IN_BYTES <= DATA_REGION_AT
      <-> 0 <= index < INODES_IN_TABLE))
  /\ (forall index p, data_block_for_index d index = Ret p ->
        (DATA_REGION_AT <= p /\ p + BLOCK_SIZE_IN_BYTES <= DISK_END
         <-> 0 <= index < DATA_REGION_IN_BLOCKS))
  /\ (forall b, 0 <= b < DATA_REGION_IN_BLOCKS ->
        exists p, inode_for_index d (INODES_IN_TABLE + 16 * b) = Ret p
                  /\ data_block_for_index d b = Ret p).
Proof.
  intros E. split; [|split].
  - intros index p H. apply (inode_for_index_inv d index p E) in H. subst p.
    unfold INODE_TABLE_AT, DATA_REGION_AT, INODES_IN_TABLE, INODE_TABLE_IN_BLOCKS,
      BLOCK_SIZE_IN_BYTES, INODE_SIZE_IN_BYTES.
    change (5 * 4096 / 256) with 80. lia.
  - intros index p H. apply (data_block_for_index_inv d index p E) in H. subst p.
    unfold DATA_REGION_AT, DISK_END, DISK_SIZE_IN_BLOCKS, DATA_REGION_IN_BLOCKS,
      INODE_TABLE_IN_BLOCKS, BLOCK_SIZE_IN_BYTES. lia.
  - intros b Hb. unfold DATA_REGION_IN_BLOCKS in Hb.
    exists (DATA_REGION_AT + b * BLOCK_SIZE_IN_BYTES). split.
    + unfold inode_for_index. rewrite E. cbn [sb_inode_table_start std_superblock].
      unfold DATA_REGION_AT, INODES_IN_TABLE, INODE_TABLE_IN_BLOCKS,
        BLOCK_SIZE_IN_BYTES, INODE_SIZE_IN_BYTES.
      change (5 * 4096 / 256) with 80.
      rewrite int_val_Ret by (unfold INT_MIN, INT_MAX; lia).
      cbn [bind].
      rewrite int_val_Ret by (unfold INT_MIN, INT_MAX; lia).
      cbn [bind]. apply (f_equal (@Ret Z)). lia.
    + unfold data_block_for_index. rewrite E. cbn [sb_data_region_start std_superblock].
      unfold DATA_REGION_AT, INODE_TABLE_IN_BLOCKS, BLOCK_SIZE_IN_BYTES.
      rewrite int_val_Ret by (unfold INT_MIN, INT_MAX; lia).
      cbn [bind].
      rewrite int_val_Ret by (unfold INT_MIN, INT_MAX; lia).
      apply (f_equal (@Ret Z)). lia.
Qed.

(** ** The components of a path *)

Lemma string_of_list_snoc (l : list ascii) (c : ascii) (s : string) :
  (string_of_list_ascii (l ++ [c]) ++ s)%string
  = (string_of_list_ascii l ++ String c s)%string.
Proof. induction l as [|x l IH]; cbn; [reflexivity|]. rewrite IH. reflexivity. Qed.

Lemma path_components_cons (s : string) (tok : list ascii) :
  exists c l, path_components s tok = c :: l.
Proof.
  revert tok. induction s as [|x s IH]; intros tok; cbn.
  - eauto.
  - destruct (Ascii.eqb x "/"); [eauto|apply IH].
Qed.

Lemma concat_cons (sep c : string) (l : list string) :
  l <> [] -> String.concat sep (c :: l) = (c ++ sep ++ String.concat sep l)%string.
Proof. destruct l; [congruence|reflexivity]. Qed.

Lemma path_components_concat (s : string) (tok : list ascii) :
  String.concat "/" (path_components s tok)
  = (string_of_list_ascii (rev tok) ++ s)%string.
Proof.
  revert tok. induction s as [|x s IH]; intros tok; cbn [path_components].
  - cbn. induction (string_of_list_ascii (rev tok)) as [|y t IHt]; cbn; congruence.
  - destruct (Ascii.eqb_spec x "/") as [->|Hx].
    + rewrite concat_cons.
      * rewrite IH. reflexivity.
      * destruct (path_components_cons s []) as (c & l & ->). congruence.
    + rewrite IH. cbn [rev]. apply string_of_list_snoc.
Qed.

Lemma path_components_no_slash (s : string) (tok : list ascii) :
  ~ In "/"%char tok ->
  Forall (fun c => ~ In "/"%char (list_ascii_of_string c)) (path_components s tok).
Proof.
  revert tok. induction s as [|x s IH]; intros tok Htok; cbn [path_components].
  - constructor; [|constructor].
    rewrite list_ascii_of_string_of_list_ascii, <- in_rev. exact Htok.
  - destruct (Ascii.eqb_spec x "/") as [->|Hx].
    + constructor.
      * rewrite list_ascii_of_string_of_list_ascii, <- in_rev. exact Htok.
      * apply IH. intros [].
    + apply IH. intros [E|H]; [congruence|contradiction].
Qed.

Lemma path_components_length (s : string) (tok : list ascii) :
  length (path_components s tok)
  = S (count_occ ascii_dec (list_ascii_of_string s) "/"%char).
Proof.
  revert tok. induction s as [|x s IH]; intros tok; cbn [path_components].
  - reflexivity.
  - cbn [list_ascii_of_string].
    destruct (Ascii.eqb_spec x "/") as [->|Hx].
    + rewrite count_occ_cons_eq by reflexivity. cbn [length]. rewrite IH. reflexivity.
    + rewrite count_occ_cons_neq by exact Hx. apply IH.
Qed.

(** X6.  The [strsep] loop of [create_file] and [create_dir].  Joining
    the components it yields with slashes gives the string back, no
    component holds a slash, and there is one component more than there
    are slashes in the string. *)
Theorem path_components_join (s : string) :
  String.concat "/" (path_components s []) = s
  /\ Forall (fun c => ~ In "/"%char (list_ascii_of_string c)) (path_components s [])
  /\ length (path_components s [])
     = S (count_occ ascii_dec (list_ascii_of_string s) "/"%char).
Proof.
  split; [|split].
  - apply (path_components_concat s []).
  - apply path_components_no_slash. intros [].
  - apply path_components_length.
Qed.

(** ** The shape of the tree *)

Lemma dot_block_first : dot_block zero_block !! 0%nat = Some dot_entry.
Proof. reflexivity. Qed.

Lemma dot_block_second : dot_block zero_block !! 1%nat = Some dotdot_entry.
Proof. reflexivity. Qed.

Lemma dot_block_entries (s : nat) (e : direntry) :
  dot_block zero_block !! s = Some e ->
  (s = 0%nat /\ e = dot_entry) \/ (s = 1%nat /\ e = dotdot_entry) \/ e = zero_direntry.
Proof.
  unfold dot_block. intros H.
  apply list_lookup_insert_Some in H as [(<- & <- & _)|[_ H]]; [right; left; auto|].
  apply list_lookup_insert_Some in H as [(<- & <- & _)|[_ H]]; [left; auto|].
  right. right. apply zero_block_lookup in H. exact H.
Qed.

Lemma dot_entry_used : exists c r, d_name dot_entry = c :: r /\ c <> NUL.
Proof. eexists _, _. split; [reflexivity|]. discriminate. Qed.

Lemma dotdot_entry_used : exists c r, d_name dotdot_entry = c :: r /\ c <> NUL.
Proof. eexists _, _. split; [reflexivity|]. discriminate. Qed.

Lemma probe_slot_0 : probe_slot 0 = 0%nat.
Proof. reflexivity. Qed.

Lemma probe_slot_1 : probe_slot 1 = 1%nat.
Proof. reflexivity. Qed.

Lemma dir_not_zero (i : inode) : i_type i = inode_type_directory -> i <> zero_inode.
Proof. intros H ->. discriminate. Qed.

Lemma new_inode_not_zero (p : Z) (ty : Z) :
  set_type (set_first_block zero_inode (Some p)) ty <> zero_inode.
Proof. intros H. apply (f_equal (fun i => i_data_block_pointers i !! 0%nat)) in H. discriminate. Qed.

(** The blocks of the state a returning [create_inode] leaves. *)
Lemma created_blocks (d : disk_image) (kp a n : nat) (blkp : list direntry)
    (e : direntry) (name : string) (ty : Z) (imap' : list Z) (b : nat)
    (blk : list direntry) :
  kp <> a -> (kp < length (dk_data_region d))%nat ->
  dk_data_region (created d kp a n blkp e name ty imap') !! b = Some blk ->
  (b = kp /\ blk = <[probe_slot n := new_entry e name (Z.of_nat a)]> blkp)
  \/ (b = a /\ blk = dot_block zero_block /\ ty = inode_type_directory)
  \/ (b <> kp /\ (b = a -> ty <> inode_type_directory)
      /\ dk_data_region d !! b = Some blk).
Proof.
  intros Hne Hkp Hb. destruct (Nat.eq_dec b kp) as [->|Hbk].
  - rewrite created_region_parent in Hb by auto. left. split; congruence.
  - right. destruct (Nat.eq_dec b a) as [->|Hba].
    + assert (Hal : (a < length (dk_data_region d))%nat).
      { apply lookup_lt_Some in Hb. unfold created in Hb. cbn [dk_data_region] in Hb.
        destruct (ty =? inode_type_directory); rewrite ?length_insert in Hb; exact Hb. }
      rewrite created_region_new in Hb by auto.
      destruct (Z.eqb_spec ty inode_type_directory).
      * left. repeat split; congruence.
      * right. auto.
    + right. rewrite created_region_other in Hb by auto. split; [auto|].
      split; [congruence|exact Hb].
Qed.

Section TreeShape.
Variable shl_undef : Z -> option Z.
Hypothesis shl_nz : shifts_never_zero shl_undef.

Local Opaque get_bit set_bit first_clear_bit.

Section Step.
Variables (d : disk_image) (parent : Z) (name : string) (ty : Z) (d' : disk_image).
Variables (kp a n : nat) (blkp : list direntry) (e : direntry) (imap' : list Z).
Hypothesis I : Inv shl_undef d.
Hypothesis T : Tree shl_undef d.
Hypothesis C : creation shl_undef d parent name ty d' kp a n blkp e imap'.

(** The parent's index is below the one allocated. *)
Lemma creation_below : (kp < a)%nat.
Proof.
  destruct (cr_pinode _ _ _ _ _ _ _ _ _ _ _ _ C) as (pi & Hpi & Hty).
  pose proof (cr_clear _ _ _ _ _ _ _ _ _ _ _ _ C) as Hclear.
  pose proof (cr_ne _ _ _ _ _ _ _ _ _ _ _ _ C) as Hne.
  destruct (Nat.lt_ge_cases kp a) as [Hlt|Hge]; [exact Hlt|].
  rewrite (tr_filled _ _ T kp pi (Z.of_nat a) Hpi (dir_not_zero _ Hty)) in Hclear
    by lia.
  discriminate.
Qed.

(** The scan of the parent passed the two dot entries. *)
Lemma creation_after_dots : (2 <= n)%nat.
Proof.
  destruct (cr_pinode _ _ _ _ _ _ _ _ _ _ _ _ C) as (pi & Hpi & Hty).
  pose proof (cr_pblock _ _ _ _ _ _ _ _ _ _ _ _ C) as Hblkp.
  pose proof (cr_entry _ _ _ _ _ _ _ _ _ _ _ _ C) as He.
  destruct (cr_free _ _ _ _ _ _ _ _ _ _ _ _ C) as (e0 & r0 & Hl0 & Hn0).
  destruct (tr_dots _ _ T kp pi Hpi Hty) as (blk & Hblk & H0 & H1).
  rewrite Hblkp in Hblk. injection Hblk as <-.
  pose proof (cr_kp _ _ _ _ _ _ _ _ _ _ _ _ C) as Hkp.
  pose proof (cr_n _ _ _ _ _ _ _ _ _ _ _ _ C) as Hn.
  rewrite probe_block in Hl0.
  rewrite (load_entry_addr d kp (probe_slot n) blkp) in Hl0
    by (auto using probe_slot_small).
  rewrite He in Hl0. apply Ret_inj in Hl0. subst e0.
  destruct n as [|[|m]]; [| |lia].
  - rewrite probe_slot_0, H0 in He. injection He as <-. discriminate.
  - rewrite probe_slot_1, H1 in He. injection He as <-. discriminate.
Qed.

Lemma creation_Tree : Tree shl_undef d'.
Proof.
  pose proof (cr_state _ _ _ _ _ _ _ _ _ _ _ _ C) as Hst.
  pose proof (inv_region _ _ I) as Hrlen.
  pose proof (cr_kp _ _ _ _ _ _ _ _ _ _ _ _ C) as Hkp.
  pose proof (cr_ne _ _ _ _ _ _ _ _ _ _ _ _ C) as Hne.
  pose proof (cr_pblock _ _ _ _ _ _ _ _ _ _ _ _ C) as Hblkp.
  pose proof (cr_a _ _ _ _ _ _ _ _ _ _ _ _ C) as Ha.
  pose proof (cr_n _ _ _ _ _ _ _ _ _ _ _ _ C) as Hn.
  pose proof (cr_set _ _ _ _ _ _ _ _ _ _ _ _ C) as Hset.
  pose proof (cr_inode _ _ _ _ _ _ _ _ _ _ _ _ C) as Hzero.
  pose proof creation_below as Hlt.
  pose proof creation_after_dots as Hn2.
  assert (Hkpl : (kp < length (dk_data_region d))%nat) by lia.
  assert (Htab : dk_inode_table d'
                 = <[a := set_type (set_first_block zero_inode
                                      (Some (block_addr a))) ty]>
                     (dk_inode_table d)).
  { rewrite Hst. reflexivity. }
  assert (Hmap : dk_inode_bitmap d' = imap') by (rewrite Hst; reflexivity).
  assert (Halen : (a < length (dk_inode_table d))%nat).
  { apply lookup_lt_Some in Hzero. exact Hzero. }
  constructor.
  - destruct (tr_root _ _ T) as (i & Hi & Hty). exists i. split; [|exact Hty].
    rewrite Htab, list_lookup_insert_ne by lia. exact Hi.
  - intros k i j Hi Hnz Hj. rewrite Hmap. rewrite Htab in Hi.
    apply list_lookup_insert_Some in Hi as [(<- & <- & _)|[Hka Hi]].
    + destruct (Z.eq_dec j (Z.of_nat a)) as [->|Hja].
      * eapply set_bit_get; [exact shl_nz|exact Hset].
      * eapply set_bit_keeps; [exact Hset|].
        apply (first_clear_bit_found shl_undef _ (Z.of_nat a)
                 (cr_first _ _ _ _ _ _ _ _ _ _ _ _ C)); lia.
    + eapply set_bit_keeps; [exact Hset|].
      eapply (tr_filled _ _ T); eauto.
  - intros k i Hi Hty. rewrite Htab in Hi.
    apply list_lookup_insert_Some in Hi as [(<- & <- & _)|[Hka Hi]].
    + cbn [i_type set_type] in Hty.
      pose proof (cr_a_dir _ _ _ _ _ _ _ _ _ _ _ _ C Hty) as Had.
      exists (dot_block zero_block).
      split; [|split; reflexivity].
      rewrite Hst, created_region_new by (auto; lia).
      rewrite Hty. reflexivity.
    + destruct (tr_dots _ _ T k i Hi Hty) as (blk & Hblk & H0 & H1).
      destruct (Nat.eq_dec k kp) as [->|Hkkp].
      * rewrite Hblkp in Hblk. injection Hblk as <-.
        exists (<[probe_slot n := new_entry e name (Z.of_nat a)]> blkp).
        split; [rewrite Hst; apply created_region_parent; auto|].
        pose proof (probe_slot_lt 1 n ltac:(lia)) as Hp. rewrite probe_slot_1 in Hp.
        rewrite !list_lookup_insert_ne by lia. auto.
      * exists blk. split; [|auto].
        rewrite Hst, created_region_other by auto. exact Hblk.
  - intros b blk s e' Hb He' Hnz. rewrite Hst in Hb.
    destruct (created_blocks _ _ _ _ _ _ _ _ _ _ _ Hne Hkpl Hb)
      as [[-> ->]|[(-> & -> & _)|(_ & _ & Hold)]].
    + apply list_lookup_insert_Some in He' as [(<- & _ & _)|[_ He']].
      * exists n. auto.
      * eapply (tr_slots _ _ T); eauto.
    + apply dot_block_entries in He' as [[-> _]|[[-> _]| ->]].
      * exists 0%nat. split; [lia|reflexivity].
      * exists 1%nat. split; [lia|reflexivity].
      * contradiction.
    + eapply (tr_slots _ _ T); eauto.
  - intros b blk s e' Hb He'. rewrite Hst in Hb.
    assert (Hold : forall b0 blk0, dk_data_region d !! b0 = Some blk0 ->
              blk0 !! s = Some e' ->
              e' = zero_direntry \/ e' = dot_entry \/ e' = dotdot_entry
              \/ (Z.of_nat b0 < d_inum e' < 80
                  /\ exists i, dk_inode_table d' !! Z.to_nat (d_inum e') = Some i
                               /\ i <> zero_inode)).
    { intros b0 blk0 Hb0 He0.
      destruct (tr_entries _ _ T b0 blk0 s e' Hb0 He0)
        as [H|[H|[H|(Hr & i & Hi & Hnz)]]]; auto.
      right. right. right. split; [exact Hr|]. exists i. split; [|exact Hnz].
      rewrite Htab. rewrite list_lookup_insert_ne; [exact Hi|].
      intros E. rewrite <- E, Hzero in Hi. injection Hi as <-. contradiction. }
    destruct (created_blocks _ _ _ _ _ _ _ _ _ _ _ Hne Hkpl Hb)
      as [[-> ->]|[(-> & -> & _)|(_ & _ & Hb0)]].
    + apply list_lookup_insert_Some in He' as [(_ & <- & _)|[_ He']].
      * right. right. right. cbn [d_inum new_entry set_inum].
        split; [lia|]. rewrite Nat2Z.id, Htab.
        eexists. split; [apply list_lookup_insert_eq; exact Halen|].
        apply new_inode_not_zero.
      * eapply Hold; eauto.
    + apply dot_block_entries in He' as [[_ ->]|[[_ ->]| ->]]; auto.
    + eapply Hold; eauto.
Qed.

End Step.

Lemma root_disk_Tree : Tree shl_undef root_disk.
Proof.
  assert (Htab : forall k i, dk_inode_table root_disk !! k = Some i ->
            i <> zero_inode -> k = 0%nat).
  { intros k i Hi Hnz. unfold root_disk in Hi. cbn [dk_inode_table] in Hi.
    apply list_lookup_insert_Some in Hi as [(<- & _ & _)|[_ Hi]]; [reflexivity|].
    apply lookup_replicate in Hi as [-> _]. contradiction. }
  assert (Hreg : forall b blk, dk_data_region root_disk !! b = Some blk ->
            blk = dot_block zero_block \/ blk = zero_block).
  { intros b blk Hb. unfold root_disk in Hb. cbn [dk_data_region] in Hb.
    apply list_lookup_insert_Some in Hb as [(_ & <- & _)|[_ Hb]]; [auto|].
    apply lookup_replicate in Hb as [-> _]. auto. }
  constructor.
  - eexists. split; reflexivity.
  - intros k i j Hi Hnz Hj. apply (Htab k i Hi) in Hnz. subst k.
    assert (j = 0) as -> by lia.
    vm_compute. reflexivity.
  - intros k i Hi Hty. rewrite (Htab k i Hi (dir_not_zero _ Hty)).
    exists (dot_block zero_block). repeat split; reflexivity.
  - intros b blk s e Hb He Hnz. destruct (Hreg b blk Hb) as [->| ->].
    + apply dot_block_entries in He as [[-> _]|[[-> _]| ->]].
      * exists 0%nat. split; [lia|reflexivity].
      * exists 1%nat. split; [lia|reflexivity].
      * contradiction.
    + apply zero_block_lookup in He. contradiction.
  - intros b blk s e Hb He. destruct (Hreg b blk Hb) as [->| ->].
    + apply dot_block_entries in He as [[_ ->]|[[_ ->]| ->]]; auto.
    + apply zero_block_lookup in He. auto.
Qed.

Lemma reachable_Tree (d : disk_image) : reachable shl_undef d -> Tree shl_undef d.
Proof.
  induction 1 as [d H|d parent name ty d' R IH H].
  - rewrite fs_create_disk_root in H. apply Ret_inj in H. subst d.
    exact root_disk_Tree.
  - pose proof (reachable_Inv _ shl_nz d R) as I.
    destruct (create_inode_spec shl_undef d parent name ty d' I H)
      as (kp & a & n & blkp & e & imap' & C).
    eapply creation_Tree; eauto.
Qed.

End TreeShape.

(** ** What the reachable states look like *)

(** A name array that holds a NUL reads as a string no longer than the
    position of that NUL. *)
Lemma c_str_terminated (l : list ascii) (k : nat) :
  l !! k = Some NUL ->
  exists t, c_str l = Ret t /\ (String.length t <= k)%nat.
Proof.
  revert k. induction l as [|c l IH]; intros k Hk; [discriminate|].
  cbn [c_str]. destruct (Ascii.eqb c NUL) eqn:E.
  - exists EmptyString. split; [reflexivity|cbn; lia].
  - destruct k as [|k].
    + cbn in Hk. injection Hk as ->. discriminate.
    + destruct (IH k Hk) as (t & -> & Ht). exists (String c t).
      split; [reflexivity|cbn; lia].
Qed.

Lemma c_str_name_ok (e : direntry) :
  name_ok e -> exists t, c_str (d_name e) = Ret t /\ (String.length t <= 30)%nat.
Proof. intros [_ H]. exact (c_str_terminated _ _ H). Qed.

Lemma c_str_dot : c_str (d_name dot_entry) = Ret "."%string.
Proof. reflexivity. Qed.

Lemma c_str_dotdot : c_str (d_name dotdot_entry) = Ret ".."%string.
Proof. reflexivity. Qed.

Lemma probe_slot_formula (b n : nat) :
  probe (block_addr b) 0 n
  = block_addr b + DIRENTRY_SIZE * (Z.of_nat n * (Z.of_nat n + 1) / 2).
Proof. rewrite probe_add. f_equal. f_equal. lia. Qed.

Lemma inode_eq_zero (i : inode) : i = zero_inode \/ i <> zero_inode.
Proof.
  destruct i as [t s l]. unfold zero_inode.
  destruct (decide (t = 0)) as [->|Ht]; [|right; congruence].
  destruct (decide (s = 0)) as [->|Hs]; [|right; congruence].
  destruct (decide (l = replicate 12 None)) as [->|Hl]; [left; reflexivity|].
  right. congruence.
Qed.

Section Shape.
Variable shl_undef : Z -> option Z.
Hypothesis shl_nz : shifts_never_zero shl_undef.

Local Opaque get_bit set_bit first_clear_bit.

(** A directory inode, its index and its block. *)
Lemma directory_block (d : disk_image) (dir : Z) (i : inode) :
  Inv shl_undef d -> Tree shl_undef d ->
  load_inode d dir = Ret i -> i_type i = inode_type_directory ->
  exists k blk,
    dir = inode_addr k /\ (k < 56)%nat
    /\ dk_inode_table d !! k = Some i
    /\ first_block i = Ret (Some (block_addr k))
    /\ dk_data_region d !! k = Some blk
    /\ blk !! 0%nat = Some dot_entry /\ blk !! 1%nat = Some dotdot_entry.
Proof.
  intros I T Hl Hty.
  apply load_inode_Ret in Hl as (k & -> & Hk & Hi).
  destruct (tr_dots _ _ T k i Hi Hty) as (blk & Hblk & H0 & H1).
  exists k, blk. split; [reflexivity|].
  split; [apply lookup_lt_Some in Hblk; rewrite (inv_region _ _ I) in Hblk; exact Hblk|].
  split; [exact Hi|].
  split; [|auto].
  destruct (inv_inodes _ _ I k i Hi) as [[-> _]|[_ Hb]]; [discriminate|exact Hb].
Qed.

(** An inode in use, its index, its bit and its block. *)
Lemma inode_in_use (d : disk_image) (index p : Z) (i : inode) :
  Inv shl_undef d ->
  inode_for_index d index = Ret p -> load_inode d p = Ret i -> i <> zero_inode ->
  exists k, index = Z.of_nat k /\ (k < 80)%nat
    /\ dk_inode_table d !! k = Some i
    /\ get_bit shl_undef (dk_inode_bitmap d) index = Ret true
    /\ first_block i = Ret (Some (block_addr k)).
Proof.
  intros I Hp Hl Hnz.
  apply (inode_for_index_inv d index p (inv_sb _ _ I)) in Hp.
  apply load_inode_Ret in Hl as (k & E & Hk & Hi). rewrite E in Hp.
  symmetry in Hp. apply inode_addr_Z in Hp. subst index.
  exists k. split; [reflexivity|]. split; [exact Hk|]. split; [exact Hi|].
  destruct (inv_inodes _ _ I k i Hi) as [[-> _]|[Hbit Hb]]; [contradiction|auto].
Qed.





End Shape.

(** ** Lookups and the entries a create leaves alone *)

Lemma directory_inode_scan_Some (fuel : nat) (d : disk_image) (entry index : Z)
    (s : string) (q : Z) :
  directory_inode_scan fuel d entry index s = Ret (Some q) ->
  exists n e, (n < fuel)%nat
    /\ (forall i, (i < n)%nat ->
          exists t, named_at d (probe entry index i) t /\ t <> cstr s)
    /\ load_entry d (probe entry index n) = Ret e
    /\ c_str (d_name e) = Ret (cstr s)
    /\ cstr s <> EmptyString
    /\ inode_for_index d (d_inum e) = Ret q.
Proof.
  revert entry index. induction fuel as [|fuel IH]; intros entry index H; [discriminate|].
  simpl in H. bind_inv H e He.
  destruct (d_name e) as [|c r] eqn:Hn; [discriminate|].
  destruct (Ascii.eqb_spec c NUL) as [->|Hc]; [discriminate|].
  bind_inv H t Ht. destruct (String.eqb_spec t (cstr s)) as [->|Hne].
  - bind_inv H p Hp. apply Ret_inj in H. injection H as ->.
    exists 0%nat, e. split; [lia|]. split; [intros i Hi; lia|].
    split; [exact He|]. rewrite Hn. split; [exact Ht|]. split; [|exact Hp].
    eapply c_str_head; eauto.
  - apply IH in H as (n & e' & Hlt & Hu & Hl & Hs & Hnz & Hq).
    exists (S n), e'. split; [lia|]. split; [|auto].
    intros [|i] Hi.
    + exists t. split; [|exact Hne]. exists e. rewrite Hn.
      repeat split; [exact He|exact Ht|]. eapply c_str_head; eauto.
    + apply Hu. lia.
Qed.

(** Two disks on which a scan meets the same entries up to a free one
    answer every lookup alike. *)
Lemma directory_inode_scan_agree (fuel : nat) (d d' : disk_image) (entry index : Z)
    (s : string) (n : nat) :
  dk_superblock d' = dk_superblock d ->
  (forall i, (i < n)%nat ->
     load_entry d' (probe entry index i) = load_entry d (probe entry index i)) ->
  free_at d (probe entry index n) -> free_at d' (probe entry index n) ->
  directory_inode_scan fuel d' entry index s = directory_inode_scan fuel d entry index s.
Proof.
  intros Hsb. revert entry index n.
  induction fuel as [|fuel IH]; intros entry index n Hsame Hf Hf'; [reflexivity|].
  cbn [directory_inode_scan]. destruct n as [|n].
  - destruct Hf as (e & r & He & Hn). destruct Hf' as (e' & r' & He' & Hn').
    cbn [probe] in He, He'. rewrite He, He'. cbn [bind]. rewrite Hn, Hn'.
    change (Ascii.eqb NUL NUL) with true. reflexivity.
  - pose proof (Hsame 0%nat ltac:(lia)) as H0. cbn [probe] in H0. rewrite H0.
    destruct (load_entry d entry) as [e| | |]; try reflexivity. cbn [bind].
    destruct (d_name e) as [|c r]; [reflexivity|].
    destruct (Ascii.eqb c NUL); [reflexivity|].
    destruct (c_str (c :: r)) as [t| | |]; try reflexivity. cbn [bind].
    destruct (String.eqb t (cstr s)).
    + unfold inode_for_index. rewrite Hsb. reflexivity.
    + apply (IH _ _ n); auto. intros i Hi. apply (Hsame (S i)). lia.
Qed.

Lemma substring_all (s : string) (n : nat) :
  (String.length s <= n)%nat -> substring 0 n s = s.
Proof.
  revert s. induction n as [|n IH]; intros s Hn.
  - destruct s; [reflexivity|cbn in Hn; lia].
  - destruct s as [|c s]; [reflexivity|].
    cbn [substring]. rewrite IH; [reflexivity|]. cbn in Hn. lia.
Qed.

Lemma strncpy_chars_empty (name : string) (n : nat) :
  cstr name = EmptyString -> exists r, strncpy_chars name (S n) = NUL :: r.
Proof.
  destruct name as [|c s]; cbn [cstr strncpy_chars]; [eauto|].
  destruct (Ascii.eqb c NUL); [eauto|discriminate].
Qed.

(** The entries of the state a returning [create_inode] leaves, away from
    the one it writes and from the block it seeds. *)
Lemma created_load_entry (d : disk_image) (kp a n : nat) (blkp : list direntry)
    (e : direntry) (name : string) (ty : Z) (imap' : list Z) (p : Z) :
  kp <> a -> (kp < length (dk_data_region d))%nat ->
  dk_data_region d !! kp = Some blkp ->
  p <> slot_addr kp (probe_slot n) ->
  ~ (ty = inode_type_directory
     /\ block_addr a <= p < block_addr a + BLOCK_SIZE_IN_BYTES) ->
  load_entry (created d kp a n blkp e name ty imap') p = load_entry d p.
Proof.
  intros Hne Hkp Hblkp Hp Hblk. unfold load_entry.
  destruct (entry_slot p) as [[b s]|] eqn:Es; [|reflexivity].
  apply entry_slot_Some in Es as (-> & Hb & Hs). cbn [of_option bind fst snd].
  destruct (Nat.eq_dec b kp) as [->|Hbk].
  - rewrite created_region_parent, Hblkp by auto. cbn [of_option bind].
    rewrite list_lookup_insert_ne; [reflexivity|]. congruence.
  - destruct (Nat.eq_dec b a) as [->|Hba].
    + unfold created. cbn [dk_data_region].
      destruct (Z.eqb_spec ty inode_type_directory) as [Hty|Hty].
      * exfalso. apply Hblk. split; [exact Hty|].
        unfold slot_addr, DIRENTRY_SIZE, BLOCK_SIZE_IN_BYTES. lia.
      * rewrite list_lookup_insert_ne by auto. reflexivity.
    + rewrite created_region_other by auto. reflexivity.
Qed.

Lemma inode_for_index_sb (d d' : disk_image) (index : Z) :
  dk_superblock d' = dk_superblock d -> inode_for_index d' index = inode_for_index d index.
Proof. intros E. unfold inode_for_index. rewrite E. reflexivity. Qed.

Section Lookups.
Variable shl_undef : Z -> option Z.
Hypothesis shl_nz : shifts_never_zero shl_undef.

Local Opaque get_bit set_bit first_clear_bit create_inode free_entry_scan
  directory_inode_scan.

(** [directory_inode] on a directory is the scan of its block. *)
Lemma directory_inode_dir (d : disk_image) (k : nat) (i : inode) (s : string) :
  load_inode d (inode_addr k) = Ret i -> i_type i = inode_type_directory ->
  first_block i = Ret (Some (block_addr k)) ->
  directory_inode d (inode_addr k) s
  = directory_inode_scan SCAN_FUEL d (block_addr k) 0 s.
Proof.
  intros Hl Hty Hfb. unfold directory_inode. rewrite Hl. cbn [bind]. rewrite Hty.
  change (negb (inode_type_directory =? inode_type_directory)) with false.
  cbn iota. rewrite Hfb. reflexivity.
Qed.

(** A lookup that finds its name stops inside the block. *)
Lemma found_inside (d : disk_image) (k n : nat) :
  (forall i, (i <= n)%nat -> used_at d (probe (block_addr k) 0 i)) -> (n <= 14)%nat.
Proof.
  intros Hu. destruct (Nat.le_gt_cases n 14) as [H|H]; [exact H|exfalso].
  apply (used_at_mapped d _ (Hu 15%nat ltac:(lia))). apply probe_15_unmapped.
Qed.

Section Step.
Variables (d : disk_image) (parent : Z) (name : string) (ty : Z) (d' : disk_image).
Variables (kp a n : nat) (blkp : list direntry) (e : direntry) (imap' : list Z).
Hypothesis I : Inv shl_undef d.
Hypothesis T : Tree shl_undef d.
Hypothesis C : creation shl_undef d parent name ty d' kp a n blkp e imap'.

Lemma creation_superblock : dk_superblock d' = dk_superblock d.
Proof. rewrite (cr_state _ _ _ _ _ _ _ _ _ _ _ _ C). reflexivity. Qed.

Lemma creation_load_entry (p : Z) :
  p <> probe (block_addr kp) 0 n ->
  ~ (ty = inode_type_directory
     /\ block_addr a <= p < block_addr a + BLOCK_SIZE_IN_BYTES) ->
  load_entry d' p = load_entry d p.
Proof.
  intros Hp Hb. rewrite (cr_state _ _ _ _ _ _ _ _ _ _ _ _ C).
  apply created_load_entry; auto.
  - exact (cr_ne _ _ _ _ _ _ _ _ _ _ _ _ C).
  - rewrite (inv_region _ _ I). exact (cr_kp _ _ _ _ _ _ _ _ _ _ _ _ C).
  - exact (cr_pblock _ _ _ _ _ _ _ _ _ _ _ _ C).
  - rewrite <- probe_block. exact Hp.
Qed.

Lemma creation_load_inode (p : Z) :
  p <> inode_addr a -> load_inode d' p = load_inode d p.
Proof.
  intros Hp. rewrite (cr_state _ _ _ _ _ _ _ _ _ _ _ _ C). unfold load_inode.
  destruct (inode_slot p) as [k|] eqn:Ek; [|reflexivity].
  apply inode_slot_Some in Ek as [-> Hk]. cbn [of_option bind].
  unfold created. cbn [dk_inode_table].
  rewrite list_lookup_insert_ne; [reflexivity|]. congruence.
Qed.

(** The entries of another directory's block are left alone. *)
Lemma creation_other_block (k : nat) (i : inode) (j : nat) :
  dk_inode_table d !! k = Some i -> i_type i = inode_type_directory ->
  k <> kp -> (j <= 14)%nat ->
  load_entry d' (probe (block_addr k) 0 j) = load_entry d (probe (block_addr k) 0 j).
Proof.
  intros Hi Hty Hk Hj.
  assert (Hka : k <> a).
  { intros ->. rewrite (cr_inode _ _ _ _ _ _ _ _ _ _ _ _ C) in Hi.
    injection Hi as <-. discriminate. }
  pose proof (probe_slot_small j Hj) as Hs.
  pose proof (probe_slot_small n (cr_n _ _ _ _ _ _ _ _ _ _ _ _ C)) as Hsn.
  apply creation_load_entry.
  - rewrite !probe_block. intros E. apply slot_addr_inj in E as [E _]; auto.
  - rewrite probe_block. intros [_ Hr].
    unfold slot_addr, block_addr, DIRENTRY_SIZE, BLOCK_SIZE_IN_BYTES in Hr. lia.
Qed.

End Step.

(** A name that a directory holds is still found, and with the same
    inode, after a [create_inode] that returns. *)
Lemma lookup_kept (d : disk_image) (parent : Z) (name : string)
    (ty : Z) (d' : disk_image) (dir : Z) (t : string) (q : Z) :
  reachable shl_undef d ->
  create_inode shl_undef d parent name ty = Ret d' ->
  directory_inode d dir t = Ret (Some q) ->
  directory_inode d' dir t = Ret (Some q).
Proof.
  intros R H Hfound.
  pose proof (reachable_Inv _ shl_nz d R) as I.
  pose proof (reachable_Tree _ shl_nz d R) as T.
  destruct (create_inode_spec shl_undef d parent name ty d' I H)
    as (kp & a & n & blkp & e & imap' & C).
  assert (Hdir : exists i, load_inode d dir = Ret i /\ i_type i = inode_type_directory).
  { unfold directory_inode in Hfound. bind_inv Hfound i Hi. exists i. split; [exact Hi|].
    destruct (Z.eqb_spec (i_type i) inode_type_directory) as [E|E]; [exact E|].
    cbn [negb] in Hfound. discriminate. }
  destruct Hdir as (i & Hl & Hty).
  destruct (directory_block shl_undef d dir i I T Hl Hty)
    as (k & blk & -> & Hk & Hi & Hfb & Hblk & _).
  rewrite (directory_inode_dir d k i t Hl Hty Hfb) in Hfound.
  apply directory_inode_scan_Some in Hfound
    as (n0 & e0 & _ & Hother & He0 & Hs0 & Hne0 & Hq).
  assert (Hused : forall j, (j <= n0)%nat -> used_at d (probe (block_addr k) 0 j)).
  { intros j Hj. destruct (Nat.eq_dec j n0) as [->|Hjn].
    - destruct (c_str_nonempty _ _ Hs0 Hne0) as (c & r & Hr & Hc).
      exists e0, c, r. auto.
    - destruct (Hother j ltac:(lia)) as (t0 & Ht0 & _). eapply named_used; eauto. }
  pose proof (found_inside d k n0 Hused) as Hn0.
  assert (Hka : k <> a).
  { intros ->. rewrite (cr_inode _ _ _ _ _ _ _ _ _ _ _ _ C) in Hi.
    injection Hi as <-. discriminate. }
  assert (Hl' : load_inode d' (inode_addr k) = Ret i).
  { rewrite (creation_load_inode _ _ _ _ _ _ _ _ _ _ _ C); [exact Hl|].
    unfold inode_addr, INODE_SIZE_IN_BYTES. lia. }
  assert (Hsame : forall j, (j <= n0)%nat ->
    load_entry d' (probe (block_addr k) 0 j) = load_entry d (probe (block_addr k) 0 j)).
  { intros j Hj. destruct (Nat.eq_dec k kp) as [->|Hkkp].
    - eapply creation_earlier; eauto.
      destruct (Nat.lt_ge_cases j n) as [Hlt|Hge]; [exact Hlt|exfalso].
      eapply used_not_free; [apply (Hused n); lia|].
      exact (cr_free _ _ _ _ _ _ _ _ _ _ _ _ C).
    - eapply creation_other_block; eauto. lia. }
  rewrite (directory_inode_dir d' k i t Hl' Hty Hfb).
  apply directory_inode_scan_found with (n := n0) (e := e0).
  - unfold SCAN_FUEL. lia.
  - intros j Hj. destruct (Hother j Hj) as (t0 & Ht0 & Hd). exists t0.
    split; [|exact Hd]. eapply named_at_transfer; [|exact Ht0]. apply Hsame. lia.
  - rewrite Hsame by lia. exact He0.
  - exact Hs0.
  - exact Hne0.
  - rewrite (inode_for_index_sb d d'); [exact Hq|].
    eapply creation_superblock; eauto.
Qed.





End Lookups.

(** ** Paths *)

Lemma fold_lookup_Ret (d : disk_image) (cs : list string) (r : result ptr) (x : ptr) :
  fold_left (lookup_step d) cs r = Ret x -> exists y, r = Ret y.
Proof.
  revert r. induction cs as [|c cs IH]; intros r H; [eauto|].
  cbn [fold_left] in H. apply IH in H as [y Hy].
  destruct r; try discriminate. eauto.
Qed.

Lemma cstr_fixed_cons (c : ascii) (s : string) :
  cstr (String c s) = String c s -> c <> NUL /\ cstr s = s.
Proof.
  cbn [cstr]. destruct (Ascii.eqb_spec c NUL) as [->|Hc]; [discriminate|].
  intros H. injection H as H. auto.
Qed.

Lemma cstr_fixed_app (s t : string) :
  cstr s = s -> cstr (s ++ t) = (s ++ cstr t)%string.
Proof.
  induction s as [|c s IH]; intros H; [reflexivity|].
  apply cstr_fixed_cons in H as [Hc Hs]. cbn [append cstr].
  destruct (Ascii.eqb_spec c NUL) as [|_]; [contradiction|].
  rewrite IH by exact Hs. reflexivity.
Qed.

Lemma cstr_fixed_snoc (l : list ascii) (c : ascii) :
  cstr (string_of_list_ascii l) = string_of_list_ascii l -> c <> NUL ->
  cstr (string_of_list_ascii (l ++ [c])) = string_of_list_ascii (l ++ [c]).
Proof.
  intros Hl Hc. induction l as [|x l IH]; cbn [app string_of_list_ascii cstr].
  - destruct (Ascii.eqb_spec c NUL) as [|_]; [contradiction|]. reflexivity.
  - cbn [string_of_list_ascii] in Hl. apply cstr_fixed_cons in Hl as [Hx Hl].
    destruct (Ascii.eqb_spec x NUL) as [|_]; [contradiction|].
    rewrite IH by exact Hl. reflexivity.
Qed.

(** The components of a string without NUL hold no NUL. *)
Lemma path_components_fixed (s : string) (tok : list ascii) :
  cstr s = s ->
  cstr (string_of_list_ascii (rev tok)) = string_of_list_ascii (rev tok) ->
  Forall (fun c => cstr c = c) (path_components s tok).
Proof.
  revert tok. induction s as [|x s IH]; intros tok Hs Htok; cbn [path_components].
  - constructor; [exact Htok|constructor].
  - apply cstr_fixed_cons in Hs as [Hx Hs].
    destruct (Ascii.eqb x "/").
    + constructor; [exact Htok|]. apply IH; [exact Hs|reflexivity].
    + apply IH; [exact Hs|]. cbn [rev]. apply cstr_fixed_snoc; assumption.
Qed.

Lemma path_components_app (s x : string) (tok : list ascii) :
  path_components (s ++ String "/" x) tok
  = path_components s tok ++ path_components x [].
Proof.
  revert tok. induction s as [|c s IH]; intros tok; cbn [append path_components].
  - reflexivity.
  - destruct (Ascii.eqb c "/"); [cbn [app]; f_equal|]; apply IH.
Qed.

Lemma path_components_single (x : string) (tok : list ascii) :
  ~ In "/"%char (list_ascii_of_string x) ->
  path_components x tok = [(string_of_list_ascii (rev tok) ++ x)%string].
Proof.
  revert tok. induction x as [|c x IH]; intros tok Hx; cbn [path_components].
  - f_equal. induction (string_of_list_ascii (rev tok)) as [|y t IHt]; cbn; congruence.
  - cbn [list_ascii_of_string] in Hx.
    destruct (Ascii.eqb_spec c "/") as [->|Hc]; [exfalso; apply Hx; left; reflexivity|].
    rewrite IH by (intros H; apply Hx; right; exact H).
    cbn [rev]. rewrite string_of_list_snoc. reflexivity.
Qed.

Lemma last_in_Forall {A : Type} (P : A -> Prop) (l : list A) (x : A) :
  Forall P l -> l <> [] -> P (List.last l x).
Proof.
  intros H Hne. rewrite Forall_forall in H. apply H.
  destruct (exists_last Hne) as (l' & y & ->). rewrite last_last.
  apply elem_of_app. right. constructor.
Qed.

Lemma fold_left_cons {A B : Type} (f : A -> B -> A) (c : B) (cs : list B) (r : A) :
  fold_left f (c :: cs) r = fold_left f cs (f r c).
Proof. reflexivity. Qed.

Lemma fold_left_nil {A B : Type} (f : A -> B -> A) (r : A) : fold_left f [] r = r.
Proof. reflexivity. Qed.

Section Paths.
Variable shl_undef : Z -> option Z.
Hypothesis shl_nz : shifts_never_zero shl_undef.

(** [create_inode] under an inode that is not a directory. *)
Lemma create_inode_aborts (d : disk_image) (p : Z) (i : inode) (x : string) (ty : Z) :
  load_inode d p = Ret i -> i_type i <> inode_type_directory ->
  create_inode shl_undef d p x ty = Abort.
Proof.
  intros Hl Hty. unfold create_inode. rewrite Hl. cbn [bind].
  destruct (Z.eqb_spec (i_type i) inode_type_directory); [contradiction|reflexivity].
Qed.

Local Opaque get_bit set_bit first_clear_bit create_inode free_entry_scan
  directory_inode_scan.

Lemma lookup_step_kept (d d' : disk_image) (parent : Z) (name : string) (ty : Z)
    (p0 : Z) (c : string) (q : Z) :
  reachable shl_undef d ->
  create_inode shl_undef d parent name ty = Ret d' ->
  lookup_step d (@Ret ptr (Some p0)) c = Ret (Some q) ->
  lookup_step d' (@Ret ptr (Some p0)) c = Ret (Some q).
Proof.
  intros R H. unfold lookup_step. cbn [bind].
  apply (lookup_kept shl_undef shl_nz d parent name ty d' p0 c q R H).
Qed.

Lemma walk_kept (d d' : disk_image) (parent : Z) (name : string) (ty : Z)
    (cs : list string) (r : result ptr) (p : Z) :
  reachable shl_undef d ->
  create_inode shl_undef d parent name ty = Ret d' ->
  fold_left (lookup_step d) cs r = Ret (Some p) ->
  fold_left (lookup_step d') cs r = Ret (Some p).
Proof.
  intros R H. revert r. induction cs as [|c cs IH]; intros r Hw.
  { rewrite fold_left_nil in Hw |- *. exact Hw. }
  rewrite fold_left_cons in Hw |- *.
  destruct (fold_lookup_Ret _ _ _ _ Hw) as [q Hq].
  destruct r as [[p0|]| | |].
  - destruct q as [p1|].
    + rewrite (lookup_step_kept d d' parent name ty p0 c p1 R H Hq).
      rewrite Hq in Hw. apply IH. exact Hw.
    + rewrite Hq, walk_stays_null in Hw. discriminate.
  - change (lookup_step d' (Ret None) c) with (@Ret ptr None).
    rewrite walk_stays_null.
    change (lookup_step d (Ret None) c) with (@Ret ptr None) in Hw.
    rewrite walk_stays_null in Hw. exact Hw.
  - discriminate.
  - discriminate.
  - discriminate.
Qed.

Lemma root_inode_sb (d d' : disk_image) :
  dk_superblock d' = dk_superblock d -> root_inode d' = root_inode d.
Proof. intros E. unfold root_inode. rewrite E. apply inode_for_index_sb. exact E. Qed.

Lemma create_inode_superblock (d : disk_image) (parent : Z) (name : string) (ty : Z)
    (d' : disk_image) :
  reachable shl_undef d -> create_inode shl_undef d parent name ty = Ret d' ->
  dk_superblock d' = dk_superblock d.
Proof.
  intros R H. pose proof (reachable_Inv _ shl_nz d R) as I.
  destruct (create_inode_spec shl_undef d parent name ty d' I H)
    as (kp & a & n & blkp & e & imap' & C).
  eapply creation_superblock; eauto.
Qed.

Lemma walk_parent_kept (d d' : disk_image) (parent : Z) (name : string) (ty : Z)
    (cs : list string) (p : Z) :
  reachable shl_undef d ->
  create_inode shl_undef d parent name ty = Ret d' ->
  walk_parent d cs = Ret (Some p) -> walk_parent d' cs = Ret (Some p).
Proof.
  intros R H Hw. unfold walk_parent in *.
  rewrite (root_inode_sb d d') by (eapply create_inode_superblock; eauto).
  bind_inv Hw root Hroot. rewrite Hroot. cbn [bind].
  eapply walk_kept; eauto.
Qed.


(** The child a returning [create_inode] has added under a name that
    was not there is found under that name. *)
Lemma created_is_found (d : disk_image) (parent : Z) (name : string) (ty : Z)
    (d' : disk_image) :
  reachable shl_undef d ->
  create_inode shl_undef d parent name ty = Ret d' ->
  stored_name name <> EmptyString ->
  directory_inode d parent (stored_name name) = Ret None ->
  exists a,
    next_allocation shl_undef d = Ret (Z.of_nat a, Z.of_nat a)
    /\ inode_for_index d' (Z.of_nat a) = Ret (inode_addr a)
    /\ load_inode d' (inode_addr a)
       = Ret (set_type (set_first_block zero_inode (Some (block_addr a))) ty)
    /\ directory_inode d' parent (stored_name name) = Ret (Some (inode_addr a)).
Proof.
  intros R H Hne Hnone. pose proof (reachable_Inv _ shl_nz d R) as I.
  destruct (create_inode_spec shl_undef d parent name ty d' I H)
    as (kp & a & n & blkp & e & imap' & C).
  destruct (creation_new_inode _ _ _ _ _ _ _ _ _ _ _ _ I C) as [Hino Hnew].
  destruct (creation_parent_inode _ _ _ _ _ _ _ _ _ _ _ _ I C)
    as (pi & Hpi & Hpi' & Hty & Hb).
  pose proof (cr_kp _ _ _ _ _ _ _ _ _ _ _ _ C) as Hkp.
  pose proof (cr_n _ _ _ _ _ _ _ _ _ _ _ _ C) as Hn.
  pose proof (cr_parent _ _ _ _ _ _ _ _ _ _ _ _ C) as ->.
  assert (Hok : name_ok e).
  { exact (inv_names _ _ I kp blkp (probe_slot n) e
             (cr_pblock _ _ _ _ _ _ _ _ _ _ _ _ C)
             (cr_entry _ _ _ _ _ _ _ _ _ _ _ _ C)). }
  assert (Hl : load_inode d (inode_addr kp) = Ret pi).
  { rewrite load_inode_addr, Hpi by lia. reflexivity. }
  assert (Hl' : load_inode d' (inode_addr kp) = Ret pi).
  { rewrite load_inode_addr, Hpi' by lia. reflexivity. }
  rewrite (directory_inode_dir d kp pi _ Hl Hty Hb) in Hnone.
  apply directory_inode_scan_None in Hnone as (n0 & _ & Hother & Hfree0).
  assert (n0 = n) as ->.
  { eapply first_free_unique; [|exact Hfree0| |].
    - intros i Hi. destruct (Hother i Hi) as (t & Ht & _). eapply named_used; eauto.
    - exact (cr_used _ _ _ _ _ _ _ _ _ _ _ _ C).
    - exact (cr_free _ _ _ _ _ _ _ _ _ _ _ _ C). }
  exists a. split; [eapply creation_allocation; eauto|].
  split; [exact Hino|]. split; [exact Hnew|].
  rewrite (directory_inode_dir d' kp pi _ Hl' Hty Hb).
  eapply directory_inode_scan_found with (n := n).
  - unfold SCAN_FUEL. lia.
  - intros i Hi. destruct (Hother i Hi) as (t & Ht & Hts). exists t.
    split; [|exact Hts]. eapply named_at_transfer; [|exact Ht].
    eapply creation_earlier; eauto.
  - eapply creation_entry; eauto.
  - rewrite new_entry_c_str, cstr_stored_name by exact Hok. reflexivity.
  - rewrite cstr_stored_name. exact Hne.
  - exact Hino.
Qed.


End Paths.

(** ** The listing of a reachable disk *)

Lemma print_inode_recursive_S (fuel : nat) (d : disk_image) (name : string)
    (ino level : Z) :
  print_inode_recursive (S fuel) d name ino level
  = let out := (spaces (Z.to_nat level) ++ name ++ newline)%string in
    if is_dot_name name then Ret out
    else
      bind (load_inode d ino) (fun i =>
        if i_type i =? inode_type_directory then
          bind (first_block i) (fun b =>
          bind (of_option b) (fun entry =>
          bind (print_entries fuel d entry 0 level) (fun rest =>
          Ret (out ++ rest)%string)))
        else Ret out).
Proof. reflexivity. Qed.

Lemma print_entries_S (fuel : nat) (d : disk_image) (entry entry_index level : Z) :
  print_entries (S fuel) d entry entry_index level
  = bind (load_entry d entry) (fun e =>
      match d_name e with
      | [] => Undef
      | c :: _ =>
          if Ascii.eqb c NUL then Ret EmptyString
          else
            bind (c_str (d_name e)) (fun s =>
            bind (inode_for_index d (d_inum e)) (fun p =>
            bind (print_inode_recursive fuel d s p (level + 1)) (fun o1 =>
            bind (print_entries fuel d
                    (entry_at entry (entry_index + 1)) (entry_index + 1) level)
              (fun o2 => Ret (o1 ++ o2)%string))))
      end).
Proof. reflexivity. Qed.

Lemma probe_next (b : Z) (j : nat) :
  entry_at (probe b 0 j) (Z.of_nat j + 1) = probe b 0 (S j).
Proof.
  rewrite !probe_add. unfold entry_at, DIRENTRY_SIZE.
  replace (Z.of_nat (S j) * (Z.of_nat (S j) + 1))
    with (Z.of_nat j * (Z.of_nat j + 1) + (Z.of_nat j + 1) * 2) by lia.
  rewrite Z.div_add by lia. lia.
Qed.

Section Listing.
Variable shl_undef : Z -> option Z.
Hypothesis shl_nz : shifts_never_zero shl_undef.
Variable d : disk_image.
Hypothesis I : Inv shl_undef d.
Hypothesis T : Tree shl_undef d.
Hypothesis room : roomy d.

Local Opaque print_inode_recursive print_entries free_entry_scan.

(** The listing of the entries of block [k] from scan step [j] on, when
    the inodes above [k] are known to be listed within the budget
    [17 * m + 1]. *)
Lemma print_entries_returns (m k n : nat) (blk : list direntry) (level : Z) :
  (k < 56)%nat -> dk_data_region d !! k = Some blk ->
  (n <= 14)%nat ->
  (forall i, (i < n)%nat -> used_at d (probe (block_addr k) 0 i)) ->
  free_at d (probe (block_addr k) 0 n) ->
  (forall k' i' name' level',
     (k < k')%nat -> dk_inode_table d !! k' = Some i' ->
     exists out, forall fuel, (17 * m + 1 <= fuel)%nat ->
       print_inode_recursive fuel d name' (inode_addr k') level' = Ret out) ->
  forall r j, (j + r = n)%nat ->
    exists out, forall fuel, (17 * m + 2 + r <= fuel)%nat ->
      print_entries fuel d (probe (block_addr k) 0 j) (Z.of_nat j) level = Ret out.
Proof.
  intros Hk Hblk Hn Hused Hfree Hdeep.
  induction r as [|r IH]; intros j Hj.
  - assert (j = n) as -> by lia.
    destruct Hfree as (e & tl & He & Hname).
    exists EmptyString. intros fuel Hfuel.
    destruct fuel as [|fuel]; [lia|].
    rewrite print_entries_S, He. cbn [bind]. rewrite Hname.
    change (Ascii.eqb NUL NUL) with true. reflexivity.
  - destruct (Hused j ltac:(lia)) as (e & c & tl & He & Hname & Hc).
    pose proof He as Hl.
    rewrite probe_block, (load_entry_addr d k _ blk Hk) in Hl
      by (auto; apply probe_slot_small; lia).
    destruct (blk !! probe_slot j) as [e'|] eqn:Hslot; [|discriminate].
    apply Ret_inj in Hl. subst e'.
    destruct (c_str_name_ok e (inv_names _ _ I k blk _ e Hblk Hslot)) as (s & Hs & _).
    assert (Hchild : exists q out1,
      inode_for_index d (d_inum e) = Ret q
      /\ forall fuel, (17 * m + 1 <= fuel)%nat ->
           print_inode_recursive fuel d s q (level + 1) = Ret out1).
    { destruct (tr_entries _ _ T k blk _ e Hblk Hslot)
        as [->|[->|[->|(Hr & ci & Hci & _)]]].
      - cbn in Hname. injection Hname as <- _. contradiction.
      - rewrite c_str_dot in Hs. apply Ret_inj in Hs. subst s.
        exists (inode_addr 0). eexists. split.
        + apply (inode_for_index_std d 0 (inv_sb _ _ I)). lia.
        + intros fuel Hfuel. destruct fuel as [|fuel]; [lia|].
          rewrite print_inode_recursive_S. reflexivity.
      - rewrite c_str_dotdot in Hs. apply Ret_inj in Hs. subst s.
        exists (inode_addr 0). eexists. split.
        + apply (inode_for_index_std d 0 (inv_sb _ _ I)). lia.
        + intros fuel Hfuel. destruct fuel as [|fuel]; [lia|].
          rewrite print_inode_recursive_S. reflexivity.
      - destruct (Hdeep (Z.to_nat (d_inum e)) ci s (level + 1) ltac:(lia) Hci)
          as (out1 & Hout1).
        exists (inode_addr (Z.to_nat (d_inum e))), out1. split; [|exact Hout1].
        rewrite <- (Z2Nat.id (d_inum e)) at 1 by lia.
        apply inode_for_index_std; [exact (inv_sb _ _ I)|lia]. }
    destruct Hchild as (q & out1 & Hq & Hout1).
    destruct (IH (S j) ltac:(lia)) as (out2 & Hout2).
    exists (out1 ++ out2)%string. intros fuel Hfuel.
    destruct fuel as [|fuel]; [lia|].
    rewrite print_entries_S, He. cbn [bind]. rewrite Hname.
    destruct (Ascii.eqb_spec c NUL) as [|_]; [contradiction|].
    rewrite <- Hname, Hs. cbn [bind]. rewrite Hq. cbn [bind].
    rewrite Hout1 by lia. cbn [bind].
    rewrite probe_next.
    replace (Z.of_nat j + 1) with (Z.of_nat (S j)) by lia.
    rewrite Hout2 by lia. reflexivity.
Qed.

Lemma print_inode_returns (m : nat) :
  forall k i name level,
    (80 <= k + m)%nat -> dk_inode_table d !! k = Some i ->
    exists out, forall fuel, (17 * m + 1 <= fuel)%nat ->
      print_inode_recursive fuel d name (inode_addr k) level = Ret out.
Proof.
  induction m as [|m IH]; intros k i name level Hkm Hi.
  { apply lookup_lt_Some in Hi. rewrite (inv_itable _ _ I) in Hi. lia. }
  assert (Hk : (k < 80)%nat).
  { apply lookup_lt_Some in Hi. rewrite (inv_itable _ _ I) in Hi. exact Hi. }
  assert (Hl : load_inode d (inode_addr k) = Ret i).
  { rewrite load_inode_addr, Hi by exact Hk. reflexivity. }
  destruct (is_dot_name name) eqn:Hdot.
  { eexists. intros fuel Hfuel. destruct fuel as [|fuel]; [lia|].
    rewrite print_inode_recursive_S. cbn zeta. rewrite Hdot. reflexivity. }
  destruct (Z.eqb_spec (i_type i) inode_type_directory) as [Hty|Hty].
  - destruct (directory_block shl_undef d _ i I T Hl Hty)
      as (k0 & blk & E & Hk0 & _ & Hfb & Hblk & _).
    assert (k0 = k) as ->.
    { unfold inode_addr, INODE_SIZE_IN_BYTES in E. lia. }
    destruct (room _ i _ Hl Hty Hfb) as (entry & Hscan).
    apply free_entry_scan_Ret in Hscan as (n & _ & -> & Hused & Hfree).
    pose proof (probes_bounded d k n Hused Hfree) as Hn.
    destruct (print_entries_returns m k n blk level Hk0 Hblk Hn Hused Hfree) with
      (r := n) (j := 0%nat) as (rest & Hrest).
    { intros k' i' name' level' Hlt Hi'. apply (IH k' i' name' level'); [lia|exact Hi']. }
    { lia. }
    eexists. intros fuel Hfuel. destruct fuel as [|fuel]; [lia|].
    rewrite print_inode_recursive_S. cbn zeta. rewrite Hdot, Hl. cbn [bind].
    destruct (Z.eqb_spec (i_type i) inode_type_directory) as [_|]; [|contradiction].
    rewrite Hfb. cbn [bind of_option].
    change (probe (block_addr k) 0 0) with (block_addr k) in Hrest.
    change (Z.of_nat 0) with 0 in Hrest.
    rewrite Hrest by lia. reflexivity.
  - eexists. intros fuel Hfuel. destruct fuel as [|fuel]; [lia|].
    rewrite print_inode_recursive_S. cbn zeta. rewrite Hdot, Hl. cbn [bind].
    destruct (Z.eqb_spec (i_type i) inode_type_directory) as [|_]; [contradiction|].
    reflexivity.
Qed.

End Listing.


(** ** Names given twice, and the program itself *)

Section Duplicates.
Variable shl_undef : Z -> option Z.
Hypothesis shl_nz : shifts_never_zero shl_undef.

Local Opaque get_bit set_bit first_clear_bit create_inode free_entry_scan
  directory_inode_scan.


End Duplicates.

(** ** Fields and blocks that stay zero *)

Section Unused.
Variable shl_undef : Z -> option Z.
Hypothesis shl_nz : shifts_never_zero shl_undef.

Local Opaque get_bit set_bit first_clear_bit create_inode.

(** No inode has its size or a block pointer other than the first
    written, and the block whose index is that of an inode that is not a
    directory is zero-filled. *)
Lemma reachable_unused (d : disk_image) :
  reachable shl_undef d ->
  (forall k i, dk_inode_table d !! k = Some i ->
     i_size i = 0 /\ drop 1 (i_data_block_pointers i) = replicate 11 None)
  /\ (forall k i blk, dk_inode_table d !! k = Some i ->
        i_type i <> inode_type_directory ->
        dk_data_region d !! k = Some blk -> blk = zero_block).
Proof.
  induction 1 as [d H|d parent name ty d' R [IHi IHb] H].
  - rewrite fs_create_disk_root in H. apply Ret_inj in H. subst d. split.
    + intros k i Hi. unfold root_disk in Hi. cbn [dk_inode_table] in Hi.
      apply list_lookup_insert_Some in Hi as [(_ & <- & _)|[_ Hi]].
      * split; reflexivity.
      * apply lookup_replicate in Hi as [-> _]. split; reflexivity.
    + intros k i blk Hi Hty Hblk. unfold root_disk in Hi, Hblk.
      cbn [dk_inode_table] in Hi. cbn [dk_data_region] in Hblk.
      apply list_lookup_insert_Some in Hi as [(<- & <- & _)|[Hk Hi]].
      * exfalso. apply Hty. reflexivity.
      * rewrite list_lookup_insert_ne in Hblk by exact Hk.
        apply lookup_replicate in Hblk as [-> _]. reflexivity.
  - pose proof (reachable_Inv _ shl_nz d R) as I.
    destruct (create_inode_spec shl_undef d parent name ty d' I H)
      as (kp & a & n & blkp & e & imap' & C).
    pose proof (cr_state _ _ _ _ _ _ _ _ _ _ _ _ C) as Hst.
    pose proof (cr_ne _ _ _ _ _ _ _ _ _ _ _ _ C) as Hne.
    destruct (cr_pinode _ _ _ _ _ _ _ _ _ _ _ _ C) as (pi & Hpi & Hpty).
    assert (Htab : dk_inode_table d'
                   = <[a := set_type (set_first_block zero_inode
                                        (Some (block_addr a))) ty]>
                       (dk_inode_table d)).
    { rewrite Hst. reflexivity. }
    split.
    + intros k i Hi. rewrite Htab in Hi.
      apply list_lookup_insert_Some in Hi as [(_ & <- & _)|[_ Hi]].
      * split; reflexivity.
      * exact (IHi k i Hi).
    + intros k i blk Hi Hty Hblk. rewrite Htab in Hi. rewrite Hst in Hblk.
      apply list_lookup_insert_Some in Hi as [(<- & <- & _)|[Hka Hi]].
      * cbn [i_type set_type] in Hty.
        assert (Hal : (a < length (dk_data_region d))%nat).
        { apply lookup_lt_Some in Hblk. unfold created in Hblk.
          cbn [dk_data_region] in Hblk.
          destruct (ty =? inode_type_directory); rewrite ?length_insert in Hblk;
            exact Hblk. }
        rewrite created_region_new in Hblk by auto.
        destruct (Z.eqb_spec ty inode_type_directory) as [|_]; [contradiction|].
        exact (cr_block _ _ _ _ _ _ _ _ _ _ _ _ C blk Hblk).
      * assert (Hkp : k <> kp).
        { intros ->. rewrite Hpi in Hi. injection Hi as <-. contradiction. }
        rewrite created_region_other in Hblk by auto.
        exact (IHb k i blk Hi Hty Hblk).
Qed.



End Unused.

(** ** The capacity a strictly conforming implementation leaves *)

Lemma get_bit_iso_c_31 (ws : list Z) (b : bool) : get_bit iso_c ws 31 <> Ret b.
Proof.
  unfold get_bit, word_at. change (WORD_OFFSET 31) with 0.
  change ((0 <=? 0) && (0 <? WORDS_PER_BLOCK)) with true. cbn iota.
  destruct (ws !! Z.to_nat 0); discriminate.
Qed.

Lemma set_bit_iso_c_minus_1 (ws ws' : list Z) : set_bit iso_c ws (-1) <> Ret ws'.
Proof.
  unfold set_bit, word_at. change (WORD_OFFSET (-1)) with 0.
  change ((0 <=? 0) && (0 <? WORDS_PER_BLOCK)) with true. cbn iota.
  destruct (ws !! Z.to_nat 0); discriminate.
Qed.

Section Capacity.

Local Opaque get_bit set_bit first_clear_bit.


End Capacity.

(** X19.  The program as shipped meets none of the defects.  Whatever
    an implementation does with the undefined shifts, [main] returns: it
    writes the listing of the fresh disk, two empty lines, and the
    listing of the disk after its four creations, with [test.txt] and
    [testdir] under the root and [test1.txt] and [test2.txt] under
    [testdir]. *)
Theorem main_prints (shl_undef : Z -> option Z) (k : nat) :
  main shl_undef (11 + k) = Ret main_output.
Proof. vm_compute. reflexivity. Qed.

(** ** Instances of the properties above *)

Lemma first_clear_bit_answer_witness :
  first_clear_bit iso_c zero_bitmap = Ret 0
  /\ ((0 = -1 /\ forall j, 0 <= j < BITMAP_BITS -> get_bit iso_c zero_bitmap j = Ret true)
      \/ (0 <= 0 < BITMAP_BITS
          /\ get_bit iso_c zero_bitmap 0 = Ret false
          /\ forall j, 0 <= j < 0 -> get_bit iso_c zero_bitmap j = Ret true)).
Proof.
  assert (H : first_clear_bit iso_c zero_bitmap = Ret 0) by (vm_compute; reflexivity).
  split; [exact H|]. exact (first_clear_bit_answer iso_c zero_bitmap 0 H).
Defined.

Lemma zero_bitmap_length : length zero_bitmap = Z.to_nat WORDS_PER_BLOCK.
Proof. reflexivity. Qed.

Lemma five_in_bitmap : 0 <= 5 < BITMAP_BITS.
Proof. unfold BITMAP_BITS, BLOCK_SIZE_IN_BYTES, CHAR_BIT. lia. Qed.

Lemma five_low : BIT_OFFSET 5 < 31.
Proof. reflexivity. Qed.

Lemma set_bit_sets_one_bit_witness :
  length zero_bitmap = Z.to_nat WORDS_PER_BLOCK
  /\ 0 <= 5 < BITMAP_BITS /\ BIT_OFFSET 5 < 31
  /\ exists ws',
       set_bit iso_c zero_bitmap 5 = Ret ws'
       /\ length ws' = length zero_bitmap
       /\ bit_is_set ws' 5 = true
       /\ (forall j, 0 <= j -> j <> 5 -> bit_is_set ws' j = bit_is_set zero_bitmap j)
       /\ get_bit iso_c ws' 5 = Ret true
       /\ (forall j, 0 <= j -> BIT_OFFSET j < 31 -> j <> 5 ->
             get_bit iso_c ws' j = get_bit iso_c zero_bitmap j).
Proof.
  split; [exact zero_bitmap_length|]. split; [exact five_in_bitmap|].
  split; [exact five_low|].
  exact (set_bit_sets_one_bit iso_c zero_bitmap 5 zero_bitmap_length five_in_bitmap
           five_low).
Defined.

Lemma clear_bit_clears_one_bit_witness :
  length bitmap_low32 = Z.to_nat WORDS_PER_BLOCK
  /\ 0 <= 5 < BITMAP_BITS /\ BIT_OFFSET 5 < 31
  /\ exists ws',
       clear_bit iso_c bitmap_low32 5 = Ret ws'
       /\ length ws' = length bitmap_low32
       /\ bit_is_set ws' 5 = false
       /\ (forall j, 0 <= j -> j <> 5 -> bit_is_set ws' j = bit_is_set bitmap_low32 j)
       /\ get_bit iso_c ws' 5 = Ret false.
Proof.
  assert (Hl : length bitmap_low32 = Z.to_nat WORDS_PER_BLOCK) by reflexivity.
  split; [exact Hl|]. split; [exact five_in_bitmap|]. split; [exact five_low|].
  exact (clear_bit_clears_one_bit iso_c bitmap_low32 5 Hl five_in_bitmap five_low).
Defined.

Lemma set_bit_clear_bit_round_trip_witness :
  length zero_bitmap = Z.to_nat WORDS_PER_BLOCK
  /\ Forall (fun w => 0 <= w < 2 ^ 64) zero_bitmap
  /\ 0 <= 5 < BITMAP_BITS /\ BIT_OFFSET 5 < 31
  /\ bit_is_set zero_bitmap 5 = false
  /\ exists ws1, set_bit iso_c zero_bitmap 5 = Ret ws1
                 /\ clear_bit iso_c ws1 5 = Ret zero_bitmap.
Proof.
  assert (Hws : Forall (fun w => 0 <= w < 2 ^ 64) zero_bitmap).
  { unfold zero_bitmap. apply Forall_replicate. lia. }
  assert (Hclear : bit_is_set zero_bitmap 5 = false) by reflexivity.
  split; [exact zero_bitmap_length|]. split; [exact Hws|].
  split; [exact five_in_bitmap|]. split; [exact five_low|]. split; [exact Hclear|].
  exact (proj1 (set_bit_clear_bit_round_trip iso_c zero_bitmap 5 zero_bitmap_length Hws
                  five_in_bitmap five_low) Hclear).
Defined.

Lemma accessors_unchecked_witness :
  dk_superblock root_disk = std_superblock
  /\ exists p, inode_for_index root_disk (INODES_IN_TABLE + 16 * 0) = Ret p
               /\ data_block_for_index root_disk 0 = Ret p.
Proof.
  assert (E : dk_superblock root_disk = std_superblock) by reflexivity.
  split; [exact E|].
  apply (proj2 (proj2 (accessors_unchecked root_disk E))). vm_compute.
  split; [discriminate|reflexivity].
Defined.

Lemma reachable_dir_x : reachable iso_c (disk_with inode_type_directory "x").
Proof.
  apply (reachable_create iso_c root_disk (inode_addr 0) "x" inode_type_directory).
  - apply reachable_root.
  - exact create_dir_x.
Qed.


Lemma dot_entry_not_zero : dot_entry <> zero_direntry.
Proof. discriminate. Qed.



Lemma root_inode_of_root_disk :
  load_inode root_disk (inode_addr 0)
  = Ret (set_first_block (set_type zero_inode inode_type_directory)
           (Some (block_addr 0))).
Proof. vm_compute. reflexivity. Qed.




Lemma writes_x :
  writes_entry iso_c root_disk (inode_addr 0) "x" inode_type_directory
    (disk_with inode_type_directory "x") (new_entry zero_direntry "x" 1).
Proof.
  split; [exact create_dir_x|].
  exists (set_first_block (set_type zero_inode inode_type_directory) (Some (block_addr 0))),
    (block_addr 0), (slot_addr 0 3).
  repeat split; vm_compute; reflexivity.
Qed.


Lemma create_file_empty :
  create_inode iso_c root_disk (inode_addr 0) "" inode_type_file
  = Ret (disk_with inode_type_file "").
Proof. vm_compute. reflexivity. Qed.



Lemma no_slash_y : ~ In "/"%char (list_ascii_of_string "y").
Proof. cbn. intros [H|[]]. discriminate. Qed.


Lemma root_disk_roomy : roomy root_disk.
Proof.
  intros dir i b Hl Hty Hfb.
  apply load_inode_Ret in Hl as (k & -> & Hk & Hi).
  unfold root_disk in Hi. cbn [dk_inode_table] in Hi.
  apply list_lookup_insert_Some in Hi as [(<- & <- & _)|[_ Hi]].
  - apply Ret_inj in Hfb. injection Hfb as <-.
    exists (slot_addr 0 3). vm_compute. reflexivity.
  - apply lookup_replicate in Hi as [-> _]. discriminate.
Qed.





Lemma reachable_file_f : reachable iso_c (disk_with inode_type_file "f").
Proof.
  exact (reachable_file iso_c root_disk "/f"%string _
           (reachable_root iso_c) create_file_f).
Qed.


